(** * PrivacyGuard account discovery: scoring, deduplication, scheduling, jobs

    A shallow embedding of the discovery subsystem of PrivacyGuard:

    - [DiscoveryEngine.js]  (class AccountDiscoveryEngine): task creation,
      chunked execution, result analysis, confidence scoring and
      deduplication;
    - the discovery service (class DiscoveryService): the job registry with
      its start / cancel / finish / reap operations.

    JavaScript numbers are modelled by [Z] (the scores and counters of the
    program are integers), strings by [string], [null]/[undefined] by
    [None], plain objects used as dictionaries by [gmap], a [Set] of strings
    by [gset], and insertion-ordered [Map]s by association lists. *)

From stdpp Require Import gmap strings list fin_maps sorting.
From Stdlib Require Import ZArith Lia Ascii.

Local Open Scope string_scope.
Local Open Scope Z_scope.

(** ** JavaScript idioms *)

(** [x || d] on a number that may be missing: [undefined], [null] and [0]
    are all falsy, so each of them selects the default. *)
Definition num_or (x : option Z) (d : Z) : Z :=
  match x with
  | Some n => if n =? 0 then d else n
  | None => d
  end.

(** [a || b] on strings that may be [null]: [null] and the empty string are
    falsy. *)
Definition str_or (a b : option string) : option string :=
  match a with
  | Some s => if String.eqb s "" then b else a
  | None => b
  end.

(** [x || d] where the default [d] is a string. *)
Definition str_or_default (a : option string) (d : string) : string :=
  match a with
  | Some s => if String.eqb s "" then d else s
  | None => d
  end.

(** Interpolation [`${x}`] of a string that may be [null]. *)
Definition template (x : option string) : string :=
  match x with
  | Some s => s
  | None => "null"
  end.

(** [Array.prototype.findIndex]; [None] stands for the result [-1]. *)
Fixpoint findIndex {A} (p : A → bool) (l : list A) : option nat :=
  match l with
  | [] => None
  | x :: l' => if p x then Some 0%nat else S <$> findIndex p l'
  end.

(** Relative index normalisation of [Array.prototype.slice]. *)
Definition rel_index (len k : Z) : Z :=
  if k <? 0 then Z.max (len + k) 0 else Z.min k len.

(** [Array.prototype.slice(b, e)]. *)
Definition slice {A} (l : list A) (b e : Z) : list A :=
  let len := Z.of_nat (length l) in
  let from := rel_index len b in
  let to := rel_index len e in
  take (Z.to_nat (to - from)) (drop (Z.to_nat from) l).

(** ** Data model of the engine *)

(** An identifier to probe: [{type, value, confidence, source}]. *)
Record Identifier := mkIdentifier {
  id_type : string;
  id_value : string;
  id_confidence : Z;
  id_source : string
}.

(** What an adapter's [discoverAccount] resolves to.  Every field other than
    [exists] may be missing. *)
Record ProbeResult := mkProbeResult {
  res_exists : option bool;
  res_confidence : option Z;
  res_method : option string;
  res_platformId : option string;
  res_profileUrl : option string;
  res_isVerified : option bool;
  res_lastActivity : option string;
  res_accountAge : option string;
  res_followers : option Z;
  res_following : option Z
}.

(** The [metadata] object of an account record. *)
Record Metadata := mkMetadata {
  profileUrl : option string;
  isVerified : bool;
  lastActivity : option string;
  accountAge : option string;
  followers : option Z;
  following : option Z
}.

(** An account record built by [analyzeDiscoveryResults] (the timestamp
    [lastVerified] is left out). *)
Record Account := mkAccount {
  platform : string;
  email : option string;
  username : option string;
  platformId : option string;
  detectionMethod : string;
  confidence : Z;
  metadata : Metadata;
  status : string
}.

(** The record [executeDiscoveryTask] resolves to (timings left out). *)
Record Discovery := mkDiscovery {
  d_platform : string;
  d_identifier : Identifier;
  d_result : option ProbeResult;
  d_error : option string;
  d_success : bool
}.

(** ** [calculateAccountConfidence] *)

(** The first [switch]: boost by identifier source. *)
Definition source_bonus (source : string) : Z :=
  if String.eqb source "primary_email" then 20
  else if String.eqb source "alternative_email" then 15
  else if String.eqb source "phone_number" then 10
  else if String.eqb source "common_username" then 5
  else 0.

(** The second [switch]: boost by detection method. *)
Definition method_bonus (method : option string) : Z :=
  match method with
  | Some m =>
      if String.eqb m "password_reset" then 15
      else if String.eqb m "api_verification" then 20
      else if String.eqb m "public_profile" then 10
      else if String.eqb m "email_enumeration" then 12
      else 0
  | None => 0
  end.

Definition calculateAccountConfidence (result : ProbeResult)
    (identifier : Identifier) : Z :=
  let confidence := num_or (res_confidence result) 50 in
  let confidence := confidence + source_bonus (id_source identifier) in
  let confidence := confidence + method_bonus (res_method result) in
  Z.min confidence 100.

(** ** [deduplicateAccounts] *)

(** The identifier the deduplication key is built from:
    [account.email || account.username]. *)
Definition canonicalIdentifier (a : Account) : option string :=
  str_or (email a) (username a).

(** [`${account.platform}:${account.email || account.username}`] *)
Definition account_key (a : Account) : string :=
  platform a +:+ ":" +:+ template (canonicalIdentifier a).

(** One iteration of the loop over [accounts]; the state is the pair of the
    set [seen] and the array [deduplicated]. *)
Definition dedup_step (st : gset string * list Account) (account : Account)
    : gset string * list Account :=
  let '(seen, deduplicated) := st in
  let key := account_key account in
  if decide (key ∈ seen) then
    match findIndex (λ a, String.eqb (account_key a) key) deduplicated with
    | Some existingIndex =>
        match deduplicated !! existingIndex with
        | Some existing =>
            if confidence existing <? confidence account
            then (seen, <[existingIndex := account]> deduplicated)
            else (seen, deduplicated)
        | None => (seen, deduplicated)
        end
    | None => (seen, deduplicated)
    end
  else ({[key]} ∪ seen, (deduplicated ++ [account])%list).

Definition deduplicateAccounts (accounts : list Account) : list Account :=
  (foldl dedup_step (∅, []) accounts).2.

(** ** [analyzeDiscoveryResults] *)

Record PlatformStat := mkPlatformStat {
  searched : nat;
  found : nat;
  errors : nat
}.

Record IdentifierStat := mkIdentifierStat {
  i_searched : nat;
  i_found : nat
}.

(** The loop state: [accounts], [platformStats], [identifierStats]. *)
Record Analysis := mkAnalysis {
  accounts : list Account;
  platformStats : gmap string PlatformStat;
  identifierStats : gmap string IdentifierStat
}.

(** [result && result.exists] *)
Definition result_exists (result : option ProbeResult) : bool :=
  match result with
  | Some r => match res_exists r with Some true => true | _ => false end
  | None => false
  end.

(** The account literal pushed for a positive probe. *)
Definition make_account (platform : string) (identifier : Identifier)
    (result : ProbeResult) : Account :=
  {| platform := platform;
     email := if String.eqb (id_type identifier) "email"
              then Some (id_value identifier) else None;
     username := if String.eqb (id_type identifier) "username"
                 then Some (id_value identifier) else None;
     platformId := str_or (res_platformId result) None;
     detectionMethod := str_or_default (res_method result) "unknown";
     confidence := calculateAccountConfidence result identifier;
     metadata :=
       {| profileUrl := res_profileUrl result;
          isVerified := default false (res_isVerified result);
          lastActivity := res_lastActivity result;
          accountAge := res_accountAge result;
          followers := res_followers result;
          following := res_following result |};
     status := "active" |}.

Definition bump_searched (s : PlatformStat) : PlatformStat :=
  {| searched := S (searched s); found := found s; errors := errors s |}.

Definition bump_found (s : PlatformStat) : PlatformStat :=
  {| searched := searched s; found := S (found s); errors := errors s |}.

Definition bump_errors (s : PlatformStat) : PlatformStat :=
  {| searched := searched s; found := found s; errors := S (errors s) |}.

(** [if (!platformStats[platform]) platformStats[platform] = {0,0,0}] *)
Definition ensure_platform (p : string) (m : gmap string PlatformStat)
    : gmap string PlatformStat :=
  match m !! p with
  | Some _ => m
  | None => <[p := mkPlatformStat 0 0 0]> m
  end.

Definition ensure_identifier (k : string) (m : gmap string IdentifierStat)
    : gmap string IdentifierStat :=
  match m !! k with
  | Some _ => m
  | None => <[k := mkIdentifierStat 0 0]> m
  end.

(** The body of the loop over [discoveryResults]. *)
Definition analyze_step (st : Analysis) (discovery : Discovery) : Analysis :=
  let p := d_platform discovery in
  let identifier := d_identifier discovery in
  let pstats := alter bump_searched p (ensure_platform p (platformStats st)) in
  if negb (d_success discovery) then
    {| accounts := accounts st;
       platformStats := alter bump_errors p pstats;
       identifierStats := identifierStats st |}
  else
    let hit := result_exists (d_result discovery) in
    let identifierKey := id_type identifier +:+ ":" +:+ id_source identifier in
    let istats :=
      alter (λ s, {| i_searched := S (i_searched s); i_found := i_found s |})
        identifierKey (ensure_identifier identifierKey (identifierStats st)) in
    match d_result discovery with
    | Some result =>
        if hit then
          {| accounts := (accounts st ++ [make_account p identifier result])%list;
             platformStats := alter bump_found p pstats;
             identifierStats :=
               alter (λ s, {| i_searched := i_searched s;
                              i_found := S (i_found s) |})
                 identifierKey istats |}
        else
          {| accounts := accounts st; platformStats := pstats;
             identifierStats := istats |}
    | None =>
        {| accounts := accounts st; platformStats := pstats;
           identifierStats := istats |}
    end.

(** The value [analyzeDiscoveryResults] resolves to (the breach lookup, which
    only adds a separate [breachData] field, is left out). *)
Record AnalysisResults := mkAnalysisResults {
  ar_accounts : list Account;
  originalAccountCount : nat;
  deduplicatedAccountCount : nat;
  ar_platformStats : gmap string PlatformStat;
  ar_identifierStats : gmap string IdentifierStat
}.

Definition analyzeDiscoveryResults (discoveryResults : list Discovery)
    : AnalysisResults :=
  let st := foldl analyze_step (mkAnalysis [] ∅ ∅) discoveryResults in
  let deduplicatedAccounts := deduplicateAccounts (accounts st) in
  {| ar_accounts := deduplicatedAccounts;
     originalAccountCount := length (accounts st);
     deduplicatedAccountCount := length deduplicatedAccounts;
     ar_platformStats := platformStats st;
     ar_identifierStats := identifierStats st |}.

(** ** Task creation: [platformSupportsIdentifierType] and the two loops *)

(** A platform configuration of the registry; the engine reads its [key]. *)
Record Platform := mkPlatform {
  p_key : string
}.

(** Call options: a plain object, spread into the adapter options. *)
Abbreviation Options := (gmap string string).

Record Task := mkTask {
  t_platform : string;
  t_identifier : Identifier;
  t_options : Options
}.

Definition phone_platforms : list string :=
  ["twitter"; "facebook"; "whatsapp"; "telegram"].

Definition platformSupportsIdentifierType (platform : Platform)
    (identifierType : string) : bool :=
  if String.eqb identifierType "phone"
  then bool_decide (p_key platform ∈ phone_platforms)
  else true.

(** The inner loop [for (const identifier of identifiers)]. *)
Definition push_tasks_for (options : Options) (platform : Platform)
    (tasks : list Task) (identifiers : list Identifier) : list Task :=
  foldl (λ tasks identifier,
           if negb (platformSupportsIdentifierType platform
                      (id_type identifier))
           then tasks
           else (tasks ++ [mkTask (p_key platform) identifier options])%list)
        tasks identifiers.

(** The outer loop [for (const platform of platforms)]. *)
Definition create_tasks (identifiers : list Identifier)
    (platforms : list Platform) (options : Options) : list Task :=
  foldl (λ tasks platform, push_tasks_for options platform tasks identifiers)
        [] platforms.

(** The cross-join of the specification: every platform paired with every
    identifier, the pairs with an unsupported identifier type dropped. *)
Definition cross_join_supported (identifiers : list Identifier)
    (platforms : list Platform) (options : Options) : list Task :=
  platform ← platforms;
  identifier ← filter (λ i, platformSupportsIdentifierType platform
                              (id_type i) = true) identifiers;
  [mkTask (p_key platform) identifier options].

(** ** [chunkArray] *)

(** The [for] loop of [chunkArray]: [i] is the loop counter, [chunks] the
    array built so far.  [None] means the fuel ran out. *)
Fixpoint chunkArray_loop {A} (fuel : nat) (array : list A)
    (chunkSize i : Z) (chunks : list (list A)) : option (list (list A)) :=
  match fuel with
  | O => None
  | S fuel' =>
      if i <? Z.of_nat (length array)
      then chunkArray_loop fuel' array chunkSize (i + chunkSize)
             (chunks ++ [slice array i (i + chunkSize)])%list
      else Some chunks
  end.

(** [chunkArray(array, chunkSize)].  The loop needs at most one iteration per
    element and one more to leave, whenever it leaves at all; [None] is the
    loop that never ends (see [chunkArray_diverges]). *)
Definition chunkArray {A} (array : list A) (chunkSize : Z)
    : option (list (list A)) :=
  chunkArray_loop (S (length array)) array chunkSize 0 [].

(** ** Task execution *)

(** A value that is thrown, or that a promise is rejected with, as far as
    the engine reads it: [null] or [undefined], or a value whose [message]
    property reads [message] ([None]: it has none, as a thrown string). *)
Inductive Thrown :=
  | nullish
  | thrown (message : option string).

(** How a call or a promise ends. *)
Inductive Settled (A : Type) :=
  | fulfilled (value : A)
  | rejected (reason : Thrown).
Arguments fulfilled {A} value.
Arguments rejected {A} reason.

(** What [discoverAccount] resolves with: an object, or [null] or
    [undefined].  Reading [exists] of the latter raises a [TypeError];
    [typeError] is its message, which depends on the JavaScript engine. *)
Inductive Resolved :=
  | an_object (result : ProbeResult)
  | no_object (typeError : string).

(** What one call of an adapter's [discoverAccount] does before the
    [discoveryTimeout] timer fires: it resolves, it throws or rejects, or
    it does neither. *)
Inductive Outcome :=
  | resolves (value : Resolved)
  | throws (reason : Thrown)
  | hangs.

(** An adapter instance, as far as the engine uses it: the outcome of the
    call [adapter.discoverAccount(identifier.value, {method, ...options})]
    made for a task at a given attempt.  The arguments of the call are
    determined by the task: [identifier] and [options] are parts of it,
    and [method] is what [getOptimalDiscoveryMethod] reads for its
    platform and identifier type out of an object literal (inherited
    properties included), which the engine only passes on.  So the
    outcome is given for the task. *)
Definition Adapter : Type := Task → nat → Outcome.

(** The platform registry.  [getAdapter w call platform] is what
    [registry.getAdapter(platform)] does when it is called for the task
    with the number [call]: it returns a new adapter instance or it
    throws. *)
Record World := mkWorld {
  getAdapter : nat → string → Settled Adapter
}.

Record Config := mkConfig {
  maxConcurrentDiscoveries : Z;
  discoveryTimeout : Z;
  minConfidenceThreshold : Z;
  maxRetryAttempts : Z;
  delayBetweenRequests : Z
}.


(** [new Error('Discovery timeout')] *)
Definition timeout_error : Thrown := thrown (Some "Discovery timeout").

(** [Promise.race] of the adapter call against the timeout promise. *)
Definition race (o : Outcome) : Settled Resolved :=
  match o with
  | resolves value => fulfilled value
  | throws reason => rejected reason
  | hangs => rejected timeout_error
  end.

(** The [for] loop of [retry] (utils/helpers), from the value [attempt] of
    its counter on; [fn attempt] is how the call of [fn] made in that
    iteration ends, and [lastError] is the variable of that name.  The
    loop ends by itself: [fuel] only bounds the recursion, and
    [Z.to_nat (maxRetries + 1) + 1] is enough for the condition
    [attempt <= maxRetries] to be found false.  The sleeps between the
    attempts take time only. *)
Fixpoint retry_loop {A} (fn : nat → Settled A) (maxRetries : Z)
    (fuel attempt : nat) (lastError : Thrown) : Settled A :=
  match fuel with
  | O => rejected lastError
  | S fuel' =>
      if Z.of_nat attempt <=? maxRetries then
        match fn attempt with
        | fulfilled value => fulfilled value
        | rejected error =>
            if Z.of_nat attempt =? maxRetries then rejected error
            else retry_loop fn maxRetries fuel' (S attempt) error
        end
      else rejected lastError
  end.

(** [retry(fn, maxRetries, baseDelay)]: [lastError] starts out
    [undefined]. *)
Definition retry {A} (fn : nat → Settled A) (maxRetries baseDelay : Z)
    : Settled A :=
  retry_loop fn maxRetries (S (Z.to_nat (maxRetries + 1))) 0 nullish.

(** How the promise of [executeDiscoveryTask] ends: fulfilled with a
    record, or rejected (with a [TypeError], which is only logged). *)
Inductive TaskPromise :=
  | task_fulfilled (value : Discovery)
  | task_rejected.

Definition success_record (task : Task) (result : ProbeResult) : Discovery :=
  {| d_platform := t_platform task;
     d_identifier := t_identifier task;
     d_result := Some result;
     d_error := None;
     d_success := true |}.

Definition failure_record (task : Task) (message : option string)
    : Discovery :=
  {| d_platform := t_platform task;
     d_identifier := t_identifier task;
     d_result := None;
     d_error := message;
     d_success := false |}.

(** The [catch] block of [executeDiscoveryTask].  It reads [error.message]:
    of [null] or [undefined] that raises a [TypeError], which rejects the
    promise of the task. *)
Definition catch_block (task : Task) (error : Thrown) : TaskPromise :=
  match error with
  | nullish => task_rejected
  | thrown message => task_fulfilled (failure_record task message)
  end.

(** [executeDiscoveryTask(task)], called as the call number [call].  The
    [try] block gets the adapter, retries the raced call and reads
    [result.exists]; whatever is thrown there goes to the [catch] block. *)
Definition executeDiscoveryTask (w : World) (cfg : Config) (call : nat)
    (task : Task) : TaskPromise :=
  match getAdapter w call (t_platform task) with
  | rejected error => catch_block task error
  | fulfilled adapter =>
      match retry (λ attempt, race (adapter task attempt))
              (maxRetryAttempts cfg) 1000 with
      | fulfilled (an_object result) =>
          task_fulfilled (success_record task result)
      | fulfilled (no_object typeError) =>
          catch_block task (thrown (Some typeError))
      | rejected error => catch_block task error
      end
  end.

(** ** Chunked execution *)

(** What can be observed of a run: [executeDiscoveryTask] is called for a
    task (the calls are numbered from 0), the promise of a call settles,
    the engine sleeps between two chunks. *)
Inductive Event :=
  | EvStart (call : nat) (task : Task)
  | EvSettle (call : nat) (task : Task) (promise : TaskPromise)
  | EvDelay (ms : Z).

(** A promise handed to [Promise.allSettled]: the call it belongs to, and
    how it has settled, if it has. *)
Record Slot := mkSlot {
  s_call : nat;
  s_task : Task;
  s_promise : option TaskPromise
}.

(** [chunk.map(task => this.executeDiscoveryTask(task))]: one call per task
    of the chunk, in order, [calls] being the number of calls made before;
    no promise has settled when [map] returns. *)
Fixpoint new_slots (calls : nat) (chunk : list Task) : list Slot :=
  match chunk with
  | [] => []
  | task :: chunk' => mkSlot calls task None :: new_slots (S calls) chunk'
  end.

Definition start_event (s : Slot) : Event := EvStart (s_call s) (s_task s).

(** [chunkResults.forEach]: a fulfilled promise pushes its value, a rejected
    one is only logged. *)
Definition collect (results : list Discovery) (r : TaskPromise)
    : list Discovery :=
  match r with
  | task_fulfilled value => (results ++ [value])%list
  | task_rejected => results
  end.

(** Where the loop [for (const chunk of taskChunks)] stands: at its head,
    with the chunks still to run; suspended on [Promise.allSettled] for the
    promises of a chunk; suspended on [sleep]; or left, the function having
    returned.  [results] is the array of that name and [calls] the number
    of calls of [executeDiscoveryTask] made so far. *)
Inductive Loop :=
  | AtChunk (results : list Discovery) (calls : nat)
      (taskChunks : list (list Task))
  | Awaiting (results : list Discovery) (slots : list Slot) (calls : nat)
      (rest : list (list Task))
  | Sleeping (results : list Discovery) (calls : nat)
      (rest : list (list Task))
  | Returned (results : list Discovery).

(** One step of the loop, with the events it gives rise to.
    - [loop_start]: the tasks of the next chunk are all started by
      [chunk.map], in order.
    - [loop_settle]: the promise of one of the calls that have not settled
      settles, whichever it is, as [executeDiscoveryTask] has it.
    - [loop_collect]: once every promise of the chunk has settled,
      [Promise.allSettled] resolves with their outcomes in the order of the
      chunk, and [forEach] collects them; the engine then sleeps, unless the
      chunk is the last one ([taskChunks.indexOf(chunk)] is
      [taskChunks.length - 1]).
    - [loop_sleep]: the sleep is over.
    - [loop_return]: no chunk is left; the final
      [filter(result => result !== null)] keeps every record, none being
      [null]. *)
Inductive loop_step (w : World) (cfg : Config)
    : Loop → list Event → Loop → Prop :=
  | loop_start results calls chunk rest :
      loop_step w cfg
        (AtChunk results calls (chunk :: rest))
        (start_event <$> new_slots calls chunk)
        (Awaiting results (new_slots calls chunk) (calls + length chunk) rest)
  | loop_settle results before call task after calls rest :
      loop_step w cfg
        (Awaiting results (before ++ mkSlot call task None :: after)%list
           calls rest)
        [EvSettle call task (executeDiscoveryTask w cfg call task)]
        (Awaiting results
           (before
            ++ mkSlot call task (Some (executeDiscoveryTask w cfg call task))
            :: after)%list
           calls rest)
  | loop_collect results slots chunkResults calls rest :
      s_promise <$> slots = Some <$> chunkResults →
      loop_step w cfg
        (Awaiting results slots calls rest)
        []
        (match rest with
         | [] => AtChunk (foldl collect results chunkResults) calls []
         | _ :: _ => Sleeping (foldl collect results chunkResults) calls rest
         end)
  | loop_sleep results calls rest :
      loop_step w cfg
        (Sleeping results calls rest)
        [EvDelay (delayBetweenRequests cfg)]
        (AtChunk results calls rest)
  | loop_return results calls :
      loop_step w cfg (AtChunk results calls []) [] (Returned results).

(** A run of the loop: steps one after the other, with the events they
    give rise to in order. *)
Inductive loop_run (w : World) (cfg : Config)
    : Loop → list Event → Loop → Prop :=
  | loop_run_done s : loop_run w cfg s [] s
  | loop_run_step s events s' trace s'' :
      loop_step w cfg s events s' →
      loop_run w cfg s' trace s'' →
      loop_run w cfg s (events ++ trace)%list s''.

(** [executeDiscoveryAcrossPlatforms] up to its loop: the tasks are created
    and chunked, and the loop is entered with no result and no call made.
    [None]: the chunking does not end, so the loop is never entered. *)
Definition executeDiscoveryAcrossPlatforms (cfg : Config)
    (identifiers : list Identifier) (platforms : list Platform)
    (options : Options) : option Loop :=
  let concurrencyLimit := maxConcurrentDiscoveries cfg in
  let tasks := create_tasks identifiers platforms options in
  match chunkArray tasks concurrencyLimit with
  | None => None
  | Some taskChunks => Some (AtChunk [] 0 taskChunks)
  end.

(** ** The discovery service: job registry *)

(** Insertion-ordered [Map]: [set] keeps the position of a key that is
    already present and appends a new one, [delete] removes the entry. *)
Fixpoint map_get {V} (k : string) (m : list (string * V)) : option V :=
  match m with
  | [] => None
  | (k', v) :: m' => if String.eqb k' k then Some v else map_get k m'
  end.

Definition map_has {V} (k : string) (m : list (string * V)) : bool :=
  match map_get k m with Some _ => true | None => false end.

Fixpoint map_set {V} (k : string) (v : V) (m : list (string * V))
    : list (string * V) :=
  match m with
  | [] => [(k, v)]
  | (k', v') :: m' =>
      if String.eqb k' k then (k', v) :: m' else (k', v') :: map_set k v m'
  end.

Fixpoint map_delete {V} (k : string) (m : list (string * V))
    : list (string * V) :=
  match m with
  | [] => []
  | (k', v') :: m' =>
      if String.eqb k' k then m' else (k', v') :: map_delete k m'
  end.

Inductive JobStatus :=
  | starting | in_progress | completed | failed | cancelled | timeout.

Definition terminal (st : JobStatus) : bool :=
  match st with
  | completed | failed | cancelled | timeout => true
  | starting | in_progress => false
  end.

(** [job.progress] (the message text is left out). *)
Record Progress := mkProgress {
  step : string;
  percentage : Z
}.

(** What [engine.discoverUserAccounts] resolves to, as far as the service
    reads it. *)
Record DiscoveryResults := mkDiscoveryResults {
  accountsFound : nat
}.

(** A job object.  The fields [completedAt], [results], [error] and
    [cancelled] are absent until assigned. *)
Record Job := mkJob {
  job_id : string;
  job_userId : string;
  job_status : JobStatus;
  job_startedAt : Z;
  job_options : Options;
  job_progress : Progress;
  job_completedAt : option Z;
  job_results : option DiscoveryResults;
  job_error : option string;
  job_cancelled : bool
}.

(** An entry of [jobHistory]: the copy [{...job, movedToHistoryAt}]. *)
Record HistoryEntry := mkHistoryEntry {
  h_job : Job;
  movedToHistoryAt : Z
}.

(** The service.  Job objects live in [heap] under their identity; the
    registry [activeJobs] and the suspended [executeDiscovery] calls
    ([running]) hold references to them, [jobHistory] holds copies. *)
Record Service := mkService {
  heap : gmap nat Job;
  next_ref : nat;
  activeJobs : list (string * nat);
  jobHistory : list (string * HistoryEntry);
  running : list nat
}.

Record ServiceConfig := mkServiceConfig {
  maxActiveJobs : Z;
  jobTimeoutMs : Z;
  autoCleanupIntervalMs : Z
}.

Definition default_service_config : ServiceConfig :=
  {| maxActiveJobs := 10; jobTimeoutMs := 300000;
     autoCleanupIntervalMs := 60000 |}.

(** The state the constructor leaves. *)
Definition new_service : Service :=
  {| heap := ∅; next_ref := 0; activeJobs := []; jobHistory := [];
     running := [] |}.

(** A thrown [Error] with its message. *)
Inductive Error := Err (message : string).

Definition UserNotFound : Error := Err "User not found".
Definition CapacityExceeded : Error :=
  Err "Maximum number of concurrent discovery jobs reached".

(** The object [startDiscovery] resolves to. *)
Record Descriptor := mkDescriptor {
  jobId : string;
  d_status : string;
  d_message : string;
  d_startedAt : Z
}.

(** The job object the registry holds for a requester, if any. *)
Definition active_job (s : Service) (userId : string) : option Job :=
  ref ← map_get userId (activeJobs s); heap s !! ref.

(** Assignment to fields of the job object [ref]. *)
Definition update_job (ref : nat) (f : Job → Job) (s : Service) : Service :=
  {| heap := alter f ref (heap s); next_ref := next_ref s;
     activeJobs := activeJobs s; jobHistory := jobHistory s;
     running := running s |}.

(** [moveJobToHistory(job)]: store a copy under the job id and evict the
    oldest entry once more than 100 are kept. *)
Definition moveJobToHistory (now : Z) (job : Job) (s : Service) : Service :=
  let history :=
    map_set (job_id job) {| h_job := job; movedToHistoryAt := now |}
      (jobHistory s) in
  let history :=
    if (100 <? length history)%nat
    then match history with
         | (oldestKey, _) :: _ => map_delete oldestKey history
         | [] => history
         end
    else history in
  {| heap := heap s; next_ref := next_ref s; activeJobs := activeJobs s;
     jobHistory := history; running := running s |}.

(** [this.activeJobs.delete(userId)] *)
Definition delete_active (userId : string) (s : Service) : Service :=
  {| heap := heap s; next_ref := next_ref s;
     activeJobs := map_delete userId (activeJobs s);
     jobHistory := jobHistory s; running := running s |}.

(** [executeDiscovery(job)] up to its [await]: the job is marked
    [in_progress] and the call is suspended on the engine. *)
Definition executeDiscovery_begin (ref : nat) (s : Service) : Service :=
  let s := update_job ref (λ job,
    {| job_id := job_id job; job_userId := job_userId job;
       job_status := in_progress; job_startedAt := job_startedAt job;
       job_options := job_options job;
       job_progress := {| step := "discovering"; percentage := 10 |};
       job_completedAt := job_completedAt job;
       job_results := job_results job; job_error := job_error job;
       job_cancelled := job_cancelled job |}) s in
  {| heap := heap s; next_ref := next_ref s; activeJobs := activeJobs s;
     jobHistory := jobHistory s; running := (running s ++ [ref])%list |}.

(** The [finally] block of [executeDiscovery]. *)
Definition executeDiscovery_finally (now : Z) (ref : nat) (s : Service)
    : Service :=
  let s := {| heap := heap s; next_ref := next_ref s;
              activeJobs := activeJobs s; jobHistory := jobHistory s;
              running := filter (λ r, r ≠ ref) (running s) |} in
  match heap s !! ref with
  | Some job => delete_active (job_userId job) (moveJobToHistory now job s)
  | None => s
  end.

(** [executeDiscovery(job)] resumed after the engine resolved with
    [results]: the rest of the [try] block, then [finally]. *)
Definition executeDiscovery_resolved (now : Z) (ref : nat)
    (results : DiscoveryResults) (s : Service) : Service :=
  if bool_decide (ref ∈ running s) then
    let s := update_job ref (λ job,
      {| job_id := job_id job; job_userId := job_userId job;
         job_status := completed; job_startedAt := job_startedAt job;
         job_options := job_options job;
         job_progress := {| step := "completed"; percentage := 100 |};
         job_completedAt := Some now;
         job_results := Some results; job_error := job_error job;
         job_cancelled := job_cancelled job |}) s in
    executeDiscovery_finally now ref s
  else s.

(** [executeDiscovery(job)] resumed after the engine rejected: the [catch]
    block, then [finally]. *)
Definition executeDiscovery_rejected (now : Z) (ref : nat)
    (message : string) (s : Service) : Service :=
  if bool_decide (ref ∈ running s) then
    let s := update_job ref (λ job,
      {| job_id := job_id job; job_userId := job_userId job;
         job_status := failed; job_startedAt := job_startedAt job;
         job_options := job_options job;
         job_progress := {| step := "failed"; percentage := 0 |};
         job_completedAt := Some now;
         job_results := job_results job; job_error := Some message;
         job_cancelled := job_cancelled job |}) s in
    executeDiscovery_finally now ref s
  else s.

(** [startDiscovery(userId, options)].  [users] is the user collection
    [User.findById] reads, [now] the clock and [newJobId] the value
    [generateJobId()] would return. *)
Definition startDiscovery (users : gset string) (cfg : ServiceConfig)
    (now : Z) (newJobId : string) (userId : string) (options : Options)
    (s : Service) : Service * (Error + Descriptor) :=
  if negb (bool_decide (userId ∈ users)) then (s, inl UserNotFound)
  else if map_has userId (activeJobs s) then
    match active_job s userId with
    | Some existingJob =>
        (s, inr {| jobId := job_id existingJob;
                   d_status := "in_progress";
                   d_message := "Discovery already in progress";
                   d_startedAt := job_startedAt existingJob |})
    | None => (s, inl (Err "TypeError"))
    end
  else if maxActiveJobs cfg <=? Z.of_nat (length (activeJobs s)) then
    (s, inl CapacityExceeded)
  else
    let job :=
      {| job_id := newJobId; job_userId := userId; job_status := starting;
         job_startedAt := now; job_options := options;
         job_progress := {| step := "initializing"; percentage := 0 |};
         job_completedAt := None; job_results := None; job_error := None;
         job_cancelled := false |} in
    let ref := next_ref s in
    let s := {| heap := <[ref := job]> (heap s); next_ref := S ref;
                activeJobs := map_set userId ref (activeJobs s);
                jobHistory := jobHistory s; running := running s |} in
    let s := executeDiscovery_begin ref s in
    (s, inr {| jobId := newJobId; d_status := "in_progress";
               d_message := "Discovery started successfully";
               d_startedAt := now |}).

(** The first entry of [activeJobs] whose job has the given id. *)
Fixpoint find_active (h : gmap nat Job) (id : string)
    (m : list (string * nat)) : option (string * nat) :=
  match m with
  | [] => None
  | (userId, ref) :: m' =>
      match h !! ref with
      | Some job =>
          if String.eqb (job_id job) id then Some (userId, ref)
          else find_active h id m'
      | None => find_active h id m'
      end
  end.

(** [cancelJob(jobId)] *)
Definition cancelJob (now : Z) (id : string) (s : Service)
    : Service * bool :=
  match find_active (heap s) id (activeJobs s) with
  | Some (userId, ref) =>
      let s := update_job ref (λ job,
        {| job_id := job_id job; job_userId := job_userId job;
           job_status := cancelled; job_startedAt := job_startedAt job;
           job_options := job_options job;
           job_progress := job_progress job;
           job_completedAt := job_completedAt job;
           job_results := job_results job; job_error := job_error job;
           job_cancelled := true |}) s in
      match heap s !! ref with
      | Some job => (delete_active userId (moveJobToHistory now job s), true)
      | None => (s, false)
      end
  | None => (s, false)
  end.

(** One iteration of the loop of [cleanupStaleJobs] over an entry of
    [activeJobs]. *)
Definition cleanup_entry (cfg : ServiceConfig) (now : Z) (s : Service)
    (entry : string * nat) : Service :=
  let '(userId, ref) := entry in
  match heap s !! ref with
  | Some job =>
      let elapsed := now - job_startedAt job in
      if jobTimeoutMs cfg <? elapsed then
        let s := update_job ref (λ job,
          {| job_id := job_id job; job_userId := job_userId job;
             job_status := timeout; job_startedAt := job_startedAt job;
             job_options := job_options job;
             job_progress := job_progress job;
             job_completedAt := Some now;
             job_results := job_results job;
             job_error := Some "Job timed out";
             job_cancelled := job_cancelled job |}) s in
        match heap s !! ref with
        | Some job => delete_active userId (moveJobToHistory now job s)
        | None => s
        end
      else s
  | None => s
  end.

(** [cleanupStaleJobs()]: the entries are visited in insertion order, and
    deleting the visited entry does not disturb the iteration. *)
Definition cleanupStaleJobs (cfg : ServiceConfig) (now : Z) (s : Service)
    : Service :=
  foldl (cleanup_entry cfg now) s (activeJobs s).

(** [getJobStatus(jobId)], reduced to the [status] it reports: the active
    jobs are searched first, then the history. *)
Definition getJobStatus (id : string) (s : Service) : option JobStatus :=
  match find_active (heap s) id (activeJobs s) with
  | Some (_, ref) => job_status <$> heap s !! ref
  | None => (job_status ∘ h_job) <$> map_get id (jobHistory s)
  end.

(** What can happen to the service: its methods are called, the reaper
    ticks, and the engine call a job is suspended on resolves or rejects. *)
Inductive Step :=
  | DoStart (newJobId userId : string) (options : Options)
  | DoCancel (id : string)
  | DoCleanup
  | EngineResolved (ref : nat) (results : DiscoveryResults)
  | EngineRejected (ref : nat) (message : string).

Definition service_step (users : gset string) (cfg : ServiceConfig)
    (s : Service) (ev : Z * Step) : Service :=
  let '(now, st) := ev in
  match st with
  | DoStart newJobId userId options =>
      (startDiscovery users cfg now newJobId userId options s).1
  | DoCancel id => (cancelJob now id s).1
  | DoCleanup => cleanupStaleJobs cfg now s
  | EngineResolved ref results => executeDiscovery_resolved now ref results s
  | EngineRejected ref message => executeDiscovery_rejected now ref message s
  end.

Definition run (users : gset string) (cfg : ServiceConfig)
    (s : Service) (evs : list (Z * Step)) : Service :=
  foldl (service_step users cfg) s evs.

(** ** The identifier preparer *)

(** [s.split(sep)] for a one-character separator. *)
Fixpoint split_on (sep : ascii) (s : string) : list string :=
  match s with
  | EmptyString => [""]
  | String c s' =>
      if Ascii.eqb c sep then "" :: split_on sep s'
      else match split_on sep s' with
           | t :: ts => String c t :: ts
           | [] => [String c ""]
           end
  end.

(** [s.replace(/[class]/g, '')]: the characters of the class are removed;
    [keep] tells the characters outside the class. *)
Fixpoint string_filter (keep : ascii → bool) (s : string) : string :=
  match s with
  | EmptyString => ""
  | String c s' =>
      if keep c then String c (string_filter keep s')
      else string_filter keep s'
  end.

(** The class [\d]. *)
Definition is_digit (c : ascii) : bool :=
  (48 <=? nat_of_ascii c)%nat && (nat_of_ascii c <=? 57)%nat.

(** The class [[._]]. *)
Definition is_separator (c : ascii) : bool :=
  Ascii.eqb c "."%char || Ascii.eqb c "_"%char.

(** [toLowerCase] on one code unit below 256: the letters A-Z and the
    capital letters of Latin-1 move up by 32. *)
Definition lower_char (c : ascii) : ascii :=
  let n := nat_of_ascii c in
  if ((65 <=? n)%nat && (n <=? 90)%nat)
     || ((192 <=? n)%nat && (n <=? 222)%nat && negb (n =? 215)%nat)
  then ascii_of_nat (n + 32) else c.

Fixpoint toLowerCase (s : string) : string :=
  match s with
  | EmptyString => ""
  | String c s' => String (lower_char c) (toLowerCase s')
  end.

(** [`${s[0]}`]: the first character, or the text of [undefined]. *)
Definition first_char (s : string) : string :=
  match s with
  | String c _ => String c ""
  | EmptyString => "undefined"
  end.

(** [[...new Set(l)]]: the distinct elements in the order of their first
    occurrence. *)
Fixpoint dedupe (l : list string) : list string :=
  match l with
  | [] => []
  | x :: l' => x :: filter (λ y, y ≠ x) (dedupe l')
  end.

Definition generateEmailVariations (email : string) : list string :=
  let localPart := hd "" (split_on "@"%char email) in
  let variations := [localPart] in
  let withoutNumbers := string_filter (λ c, negb (is_digit c)) localPart in
  let variations :=
    if negb (String.eqb withoutNumbers localPart)
       && (3 <? String.length withoutNumbers)%nat
    then (variations ++ [withoutNumbers])%list else variations in
  let normalized := string_filter (λ c, negb (is_separator c)) localPart in
  let variations :=
    if negb (String.eqb normalized localPart)
       && (3 <? String.length normalized)%nat
    then (variations ++ [normalized])%list else variations in
  let variations :=
    (variations ++ [localPart +:+ "01"; localPart +:+ "1";
                    localPart +:+ "_"; "_" +:+ localPart;
                    localPart +:+ ".official"])%list in
  filter (λ v, (3 ≤ String.length v)%nat) (dedupe variations).

Definition generateNameVariations (fullName : string) : list string :=
  let names :=
    filter (λ n, (1 < String.length n)%nat)
      (split_on " "%char (toLowerCase fullName)) in
  match names with
  | [] => []
  | _ =>
      let variations :=
        match names with
        | first :: last :: _ =>
            [first +:+ last; first +:+ "_" +:+ last;
             first +:+ "." +:+ last; first +:+ first_char last;
             first_char first +:+ last; last +:+ first;
             last +:+ "_" +:+ first; last +:+ "." +:+ first]
        | _ => []
        end in
      let variations :=
        foldl (λ variations name,
                 if (4 <=? String.length name)%nat
                 then (variations ++ [name])%list else variations)
              variations names in
      dedupe variations
  end.

(** The user document, as far as the preparer reads it.  A field of
    [profile] is [None] when it or the profile itself is missing. *)
Record User := mkUser {
  u_email : option string;
  alternativeEmails : option (list string);
  phoneNumbers : option (list string);
  commonUsernames : option (list string);
  fullName : option string
}.

(** A string that is present and not empty. *)
Definition truthy (s : option string) : option string :=
  match s with
  | Some v => if String.eqb v "" then None else Some v
  | None => None
  end.

(** [list.forEach(value => identifiers.push({type, value, confidence,
    source}))] for a list that may be missing. *)
Definition push_all (type : string) (weight : Z) (source : string)
    (values : option (list string)) (identifiers : list Identifier)
    : list Identifier :=
  (identifiers
   ++ map (λ value, mkIdentifier type value weight source)
        (default [] values))%list.

Definition prepareDiscoveryIdentifiers (user : User) : list Identifier :=
  let identifiers := [] in
  let identifiers :=
    push_all "email" 100 "primary_email"
      (option_map (λ e, [e]) (truthy (u_email user))) identifiers in
  let identifiers :=
    push_all "email" 90 "alternative_email" (alternativeEmails user)
      identifiers in
  let identifiers :=
    push_all "phone" 85 "phone_number" (phoneNumbers user) identifiers in
  let identifiers :=
    push_all "username" 75 "common_username" (commonUsernames user)
      identifiers in
  let identifiers :=
    push_all "username" 60 "email_variation"
      (option_map generateEmailVariations (truthy (u_email user)))
      identifiers in
  let identifiers :=
    push_all "username" 50 "name_variation"
      (option_map generateNameVariations (truthy (fullName user)))
      identifiers in
  identifiers.

(** ** The platform selector *)

(** A platform configuration of the registry with the fields the registry
    filters and sorts on. *)
Record PlatformConfig := mkPlatformConfig {
  pc_key : string;
  pc_category : string;
  pc_priority : Z;
  pc_popular : bool
}.

(** The part of a configuration the engine reads. *)
Definition platform_of (c : PlatformConfig) : Platform :=
  mkPlatform (pc_key c).

(** [platforms.sort((a, b) => b.priority - a.priority)]: the sort is
    stable, so an element is placed before the first one whose priority is
    not higher than its own. *)
Fixpoint insert_by_priority (p : PlatformConfig) (l : list PlatformConfig)
    : list PlatformConfig :=
  match l with
  | [] => [p]
  | q :: l' =>
      if pc_priority q <=? pc_priority p then p :: q :: l'
      else q :: insert_by_priority p l'
  end.

Definition sort_by_priority (l : list PlatformConfig)
    : list PlatformConfig :=
  foldr insert_by_priority [] l.

(** [registry.getSupportedPlatforms({category, popular, limit})] over the
    values of [platformConfigs]. *)
Definition getSupportedPlatforms (platformConfigs : list PlatformConfig)
    (category : option string) (popular : option bool) (limit : option Z)
    : list PlatformConfig :=
  let platforms := platformConfigs in
  let platforms :=
    match truthy category with
    | Some c => filter (λ p, pc_category p = c) platforms
    | None => platforms
    end in
  let platforms :=
    match popular with
    | Some b => filter (λ p, pc_popular p = b) platforms
    | None => platforms
    end in
  let platforms := sort_by_priority platforms in
  match limit with
  | Some n => if n =? 0 then platforms else slice platforms 0 n
  | None => platforms
  end.

(** The options [selectPlatformsForDiscovery] reads. *)
Record SelectOptions := mkSelectOptions {
  includePlatforms : option (list string);
  excludePlatforms : option (list string);
  popularOnly : option bool;
  category : option string
}.

(** [list && list.length > 0] *)
Definition nonempty_list (l : option (list string)) : option (list string) :=
  match l with
  | Some (x :: l') => Some (x :: l')
  | _ => None
  end.

Definition selectPlatformsForDiscovery (platformConfigs : list PlatformConfig)
    (options : SelectOptions) : list PlatformConfig :=
  let platforms :=
    getSupportedPlatforms platformConfigs (category options)
      (popularOnly options) None in
  let platforms :=
    match nonempty_list (includePlatforms options) with
    | Some included => filter (λ p, pc_key p ∈ included) platforms
    | None => platforms
    end in
  let platforms :=
    match nonempty_list (excludePlatforms options) with
    | Some excluded => filter (λ p, pc_key p ∉ excluded) platforms
    | None => platforms
    end in
  platforms.

(** The two platforms [registerBuiltInAdapters] registers. *)
Definition builtin_platforms : list PlatformConfig :=
  [mkPlatformConfig "twitter" "social_media" 100 true;
   mkPlatformConfig "facebook" "social_media" 95 true].

(** ** Shutting the service down *)

(** The loop of [shutdown()] over the entries of [activeJobs]: the job of
    each entry is cancelled by its id.  [clock i] is the time at the i-th
    iteration. *)
Fixpoint shutdown_loop (clock : nat → Z) (i : nat)
    (entries : list (string * nat)) (s : Service) : Service :=
  match entries with
  | [] => s
  | (userId, ref) :: rest =>
      let s :=
        match heap s !! ref with
        | Some job => (cancelJob (clock i) (job_id job) s).1
        | None => s
        end in
      shutdown_loop clock (S i) rest s
  end.

Definition shutdown (clock : nat → Z) (s : Service) : Service :=
  shutdown_loop clock 0 (activeJobs s) s.

(** ** Specification-side definitions *)

(** The confidence as the specification words it: the probe's own
    confidence, 50 when it is absent, plus the two bonuses, capped at 100. *)
Definition stated_confidence (result : ProbeResult)
    (identifier : Identifier) : Z :=
  Z.min (default 50 (res_confidence result)
         + source_bonus (id_source identifier)
         + method_bonus (res_method result)) 100.

(** The base score the code starts from, as a relation. *)
Inductive OwnConfidence : option Z → Z → Prop :=
  | own_given n : n ≠ 0 → OwnConfidence (Some n) n
  | own_zero : OwnConfidence (Some 0) 50
  | own_absent : OwnConfidence None 50.

(** The table of identifier-source bonuses. *)
Inductive SourceBonus : string → Z → Prop :=
  | sb_primary : SourceBonus "primary_email" 20
  | sb_alternative : SourceBonus "alternative_email" 15
  | sb_phone : SourceBonus "phone_number" 10
  | sb_username : SourceBonus "common_username" 5
  | sb_other s :
      s ∉ ["primary_email"; "alternative_email"; "phone_number";
           "common_username"] →
      SourceBonus s 0.

(** The table of detection-method bonuses. *)
Inductive MethodBonus : option string → Z → Prop :=
  | mb_password_reset : MethodBonus (Some "password_reset") 15
  | mb_api_verification : MethodBonus (Some "api_verification") 20
  | mb_public_profile : MethodBonus (Some "public_profile") 10
  | mb_email_enumeration : MethodBonus (Some "email_enumeration") 12
  | mb_other m :
      m ∉ ["password_reset"; "api_verification"; "public_profile";
           "email_enumeration"] →
      MethodBonus (Some m) 0
  | mb_absent : MethodBonus None 0.

(** Union of two metadata objects, field by field: a field is present in
    the union when either side has it. *)
Definition metadata_union (m1 m2 : Metadata) : Metadata :=
  {| profileUrl := profileUrl m1 ∪ profileUrl m2;
     isVerified := isVerified m1 || isVerified m2;
     lastActivity := lastActivity m1 ∪ lastActivity m2;
     accountAge := accountAge m1 ∪ accountAge m2;
     followers := followers m1 ∪ followers m2;
     following := following m1 ∪ following m2 |}.

Definition empty_metadata : Metadata :=
  {| profileUrl := None; isVerified := false; lastActivity := None;
     accountAge := None; followers := None; following := None |}.

(** The accounts of a list that stand for the same
    (platform, canonical identifier) pair as [a]. *)
Definition duplicates_of (a : Account) (l : list Account) : list Account :=
  filter (λ b, platform b = platform a
               ∧ canonicalIdentifier b = canonicalIdentifier a) l.

Definition union_of_metadata (l : list Account) : Metadata :=
  foldr (λ a m, metadata_union (metadata a) m) empty_metadata l.

(** The deduplication as the specification words it: one account per pair,
    the best of its duplicates, carrying the union of their metadata. *)
Definition stated_dedup (input : list Account) : Prop :=
  let out := deduplicateAccounts input in
  (∀ i j a b, out !! i = Some a → out !! j = Some b →
     platform a = platform b →
     canonicalIdentifier a = canonicalIdentifier b → i = j)
  ∧ (∀ a, a ∈ out →
       (∀ b, b ∈ duplicates_of a input → confidence b ≤ confidence a)
       ∧ metadata a = union_of_metadata (duplicates_of a input)).

(** The loop invariant of [deduplicateAccounts], [done] being the accounts
    visited so far. *)
Definition dedup_inv (done : list Account)
    (st : gset string * list Account) : Prop :=
  (∀ k, k ∈ st.1 ↔ k ∈ account_key <$> st.2)
  ∧ NoDup (account_key <$> st.2)
  ∧ (∀ a, a ∈ st.2 →
       a ∈ done
       ∧ ∀ b, b ∈ done → account_key b = account_key a →
              confidence b ≤ confidence a)
  ∧ (∀ b, b ∈ done → account_key b ∈ account_key <$> st.2).

(** The promise of a call, as [executeDiscoveryTask] has it. *)
Definition promise_of (w : World) (cfg : Config) (s : Slot) : TaskPromise :=
  executeDiscoveryTask w cfg (s_call s) (s_task s).

(** The event of a call's promise settling. *)
Definition settle_event (w : World) (cfg : Config) (s : Slot) : Event :=
  EvSettle (s_call s) (s_task s) (promise_of w cfg s).

(** The record a promise contributes to [results], if it is fulfilled. *)
Definition record_of (p : TaskPromise) : option Discovery :=
  match p with
  | task_fulfilled d => Some d
  | task_rejected => None
  end.

(** The promises of the tasks of a run, in task order. *)
Definition promises (w : World) (cfg : Config) (tasks : list Task)
    : list TaskPromise :=
  promise_of w cfg <$> new_slots 0 tasks.

Definition is_pending (s : Slot) : bool :=
  match s_promise s with None => true | Some _ => false end.

(** How a slot has settled or, if it has not, will settle. *)
Definition slot_promise (w : World) (cfg : Config) (s : Slot) : TaskPromise :=
  default (promise_of w cfg s) (s_promise s).

(** The events of one chunk, [calls] calls having been made before: every
    task of the chunk is started, in order, and then the promise of every
    one of these calls settles, in some order. *)
Definition chunk_segment (w : World) (cfg : Config) (calls : nat)
    (chunk : list Task) (segment : list Event) : Prop :=
  ∃ settles,
    segment = ((start_event <$> new_slots calls chunk) ++ settles)%list
    ∧ settles ≡ₚ settle_event w cfg <$> new_slots calls chunk.

(** What follows the events of a chunk: the delay, unless no chunk is
    left. *)
Definition after_chunk (cfg : Config) (rest : list (list Task))
    : list Event :=
  match rest with
  | [] => []
  | _ :: _ => [EvDelay (delayBetweenRequests cfg)]
  end.

(** A trace made of the events of the chunks, one chunk after the other,
    with one delay between the events of two consecutive chunks and
    nothing else. *)
Fixpoint chunked_trace (w : World) (cfg : Config) (calls : nat)
    (taskChunks : list (list Task)) (trace : list Event) : Prop :=
  match taskChunks with
  | [] => trace = []
  | chunk :: rest =>
      ∃ segment trace',
        trace = (segment ++ after_chunk cfg rest ++ trace')%list
        ∧ chunk_segment w cfg calls chunk segment
        ∧ chunked_trace w cfg (calls + length chunk) rest trace'
  end.

(** The records the tasks of the chunks still to run will add. *)
Definition records_from (w : World) (cfg : Config) (calls : nat)
    (taskChunks : list (list Task)) : list Discovery :=
  omap record_of (promise_of w cfg <$> new_slots calls (concat taskChunks)).

(** What is left of a run that returns [results], seen from where the loop
    stands. *)
Definition completes (w : World) (cfg : Config) (s : Loop)
    (trace : list Event) (results : list Discovery) : Prop :=
  match s with
  | AtChunk r calls taskChunks =>
      chunked_trace w cfg calls taskChunks trace
      ∧ results = (r ++ records_from w cfg calls taskChunks)%list
  | Awaiting r slots calls rest =>
      ∃ settles trace',
        trace = (settles ++ after_chunk cfg rest ++ trace')%list
        ∧ settles
          ≡ₚ settle_event w cfg <$> filter (λ s, is_pending s = true) slots
        ∧ chunked_trace w cfg calls rest trace'
        ∧ results
          = (r ++ omap record_of (slot_promise w cfg <$> slots)
               ++ records_from w cfg calls rest)%list
  | Sleeping r calls rest =>
      ∃ trace',
        trace = EvDelay (delayBetweenRequests cfg) :: trace'
        ∧ chunked_trace w cfg calls rest trace'
        ∧ results = (r ++ records_from w cfg calls rest)%list
  | Returned r => trace = [] ∧ results = r
  end.


(** A counter of [platformStats], 0 for a platform without an entry. *)
Definition tally (field : PlatformStat → nat)
    (m : gmap string PlatformStat) (p : string) : nat :=
  from_option field 0%nat (m !! p).

(** The counters of a platform after a record has been visited. *)
Definition bumped (d : Discovery) (s : PlatformStat) : PlatformStat :=
  let s := bump_searched s in
  if negb (d_success d) then bump_errors s
  else if result_exists (d_result d) then bump_found s
  else s.

(** The account a record gives rise to in [analyze_step], if any. *)
Definition account_of (d : Discovery) : option Account :=
  if d_success d then
    match d_result d with
    | Some r =>
        if result_exists (Some r)
        then Some (make_account (d_platform d) (d_identifier d) r)
        else None
    | None => None
    end
  else None.

(** ** Sample data *)

Definition primary_email_of (value : string) : Identifier :=
  {| id_type := "email"; id_value := value; id_confidence := 100;
     id_source := "primary_email" |}.

Definition name_variation_of (value : string) : Identifier :=
  {| id_type := "username"; id_value := value; id_confidence := 50;
     id_source := "name_variation" |}.

(** A positive probe result with the given confidence and method, every
    other field missing. *)
Definition positive (c : option Z) (m : option string) : ProbeResult :=
  {| res_exists := Some true; res_confidence := c; res_method := m;
     res_platformId := None; res_profileUrl := None;
     res_isVerified := None; res_lastActivity := None;
     res_accountAge := None; res_followers := None;
     res_following := None |}.

Definition succeeded (p : string) (i : Identifier) (r : ProbeResult)
    : Discovery :=
  {| d_platform := p; d_identifier := i; d_result := Some r;
     d_error := None; d_success := true |}.

(** Two records for the same e-mail address on one platform: the first less
    confident but with a profile URL, the second more confident without. *)
Definition account_with_url : Account :=
  {| platform := "twitter"; email := Some "ann@example.org";
     username := None; platformId := None;
     detectionMethod := "public_profile"; confidence := 60;
     metadata := {| profileUrl := Some "https://twitter.com/ann";
                    isVerified := false; lastActivity := None;
                    accountAge := None; followers := None;
                    following := None |};
     status := "active" |}.

Definition account_without_url : Account :=
  {| platform := "twitter"; email := Some "ann@example.org";
     username := None; platformId := None;
     detectionMethod := "password_reset"; confidence := 80;
     metadata := empty_metadata;
     status := "active" |}.

(** A record for another address of the same person on that platform. *)
Definition account_other_address : Account :=
  {| platform := "twitter"; email := Some "ann.lee@example.net";
     username := None; platformId := None;
     detectionMethod := "password_reset"; confidence := 55;
     metadata := empty_metadata;
     status := "active" |}.

Definition phone_of (value : string) : Identifier :=
  {| id_type := "phone"; id_value := value; id_confidence := 85;
     id_source := "phone_number" |}.

(** One e-mail address and two phone numbers. *)
Definition three_identifiers : list Identifier :=
  [primary_email_of "ann@example.org"; phone_of "+15550100";
   phone_of "+15550101"].

(** A world with one adapter for every platform: it finds the account of
    ["ann@example.org"], throws on phone numbers and never answers for
    anything else, at every attempt. *)
Definition sample_world : World :=
  {| getAdapter := λ _ _,
       fulfilled (λ task _,
         let value := id_value (t_identifier task) in
         if String.eqb value "ann@example.org"
         then resolves (an_object (positive (Some 70) (Some "password_reset")))
         else if String.prefix "+" value
              then throws (thrown (Some "ECONNRESET"))
              else hangs) |}.



(** The defaults, but two tasks per chunk. *)
Definition two_per_chunk : Config :=
  {| maxConcurrentDiscoveries := 2;
     discoveryTimeout := 30000;
     minConfidenceThreshold := 60;
     maxRetryAttempts := 3;
     delayBetweenRequests := 2000 |}.

(** The defaults, but [maxConcurrentDiscoveries: 0]. *)
Definition none_per_chunk : Config :=
  {| maxConcurrentDiscoveries := 0;
     discoveryTimeout := 30000;
     minConfidenceThreshold := 60;
     maxRetryAttempts := 3;
     delayBetweenRequests := 2000 |}.


(** The task of looking for ["ann@example.org"] on twitter. *)
Definition ann_on_twitter : Task :=
  mkTask "twitter" (primary_email_of "ann@example.org") ∅.

(** Eleven registered users. *)
Definition sample_users : gset string :=
  list_to_set ["u0"; "u1"; "u2"; "u3"; "u4"; "u5"; "u6"; "u7"; "u8"; "u9";
               "u10"].

(** Ten of them start a discovery, one after the other. *)
Definition ten_starts : list (Z * Step) :=
  [(1000, DoStart "job_0" "u0" ∅); (1001, DoStart "job_1" "u1" ∅);
   (1002, DoStart "job_2" "u2" ∅); (1003, DoStart "job_3" "u3" ∅);
   (1004, DoStart "job_4" "u4" ∅); (1005, DoStart "job_5" "u5" ∅);
   (1006, DoStart "job_6" "u6" ∅); (1007, DoStart "job_7" "u7" ∅);
   (1008, DoStart "job_8" "u8" ∅); (1009, DoStart "job_9" "u9" ∅)].

(** The service with the default configuration once these ten jobs run:
    the registry is full. *)
Definition full_service : Service :=
  run sample_users default_service_config new_service ten_starts.

(** One user starts a discovery. *)
Definition one_job : Service :=
  run sample_users default_service_config new_service
    [(1000, DoStart "job_0" "u0" ∅)].

(** ** Definitions for the further properties *)

(** The call a start event stands for. *)
Definition started_call (e : Event) : option (nat * Task) :=
  match e with
  | EvStart call task => Some (call, task)
  | _ => None
  end.

Definition is_delay (e : Event) : bool :=
  match e with
  | EvDelay _ => true
  | _ => false
  end.

(** A record that [analyze_step] turns into an account. *)
Definition is_hit (d : Discovery) : bool :=
  d_success d && result_exists (d_result d).

(** The key of [identifierStats] a record is counted under. *)
Definition identifierKey (d : Discovery) : string :=
  id_type (d_identifier d) +:+ ":" +:+ id_source (d_identifier d).

(** A counter of [identifierStats], 0 for a key without an entry. *)
Definition i_tally (field : IdentifierStat → nat)
    (m : gmap string IdentifierStat) (k : string) : nat :=
  from_option field 0%nat (m !! k).

(** A list of configurations in descending order of priority. *)
Definition by_descending_priority (l : list PlatformConfig) : Prop :=
  StronglySorted (λ p q, pc_priority q ≤ pc_priority p) l.

(** A list of identifiers in descending order of weight. *)
Definition by_descending_weight (l : list Identifier) : Prop :=
  StronglySorted (λ a b, id_confidence b ≤ id_confidence a) l.

(** The kinds of identifier the preparer makes: type, weight, source. *)
Definition identifier_kinds : list (string * Z * string) :=
  [("email", 100, "primary_email"); ("email", 90, "alternative_email");
   ("phone", 85, "phone_number"); ("username", 75, "common_username");
   ("username", 60, "email_variation"); ("username", 50, "name_variation")].

(** What the selector's options demand of a platform. *)
Definition selected_by (o : SelectOptions) (p : PlatformConfig) : Prop :=
  (∀ c, truthy (category o) = Some c → pc_category p = c)
  ∧ (∀ b, popularOnly o = Some b → pc_popular p = b)
  ∧ (∀ l, nonempty_list (includePlatforms o) = Some l → pc_key p ∈ l)
  ∧ (∀ l, nonempty_list (excludePlatforms o) = Some l → pc_key p ∉ l).

(** The service states that can arise: those the fresh service reaches by
    some sequence of steps. *)
Definition reachable (users : gset string) (cfg : ServiceConfig)
    (s : Service) : Prop :=
  ∃ evs, s = run users cfg new_service evs.

(** The invariant of the service. *)
Record wf (cfg : ServiceConfig) (s : Service) : Prop := mk_wf {
  wf_users : NoDup (activeJobs s).*1;
  wf_refs : NoDup (activeJobs s).*2;
  wf_active : ∀ u ref, (u, ref) ∈ activeJobs s →
    ∃ job, heap s !! ref = Some job ∧ job_userId job = u
           ∧ job_status job = in_progress ∧ ref ∈ running s;
  wf_heap : ∀ ref, is_Some (heap s !! ref) → (ref < next_ref s)%nat;
  wf_capacity :
    Z.of_nat (length (activeJobs s)) ≤ Z.max 0 (maxActiveJobs cfg);
  wf_history_size : (length (jobHistory s) ≤ 100)%nat;
  wf_history : ∀ k e, (k, e) ∈ jobHistory s →
    job_id (h_job e) = k ∧ terminal (job_status (h_job e)) = true;
  wf_history_keys : NoDup (jobHistory s).*1
}.

(** An entry of the registry whose job has run for longer than
    [jobTimeoutMs] at time [now]. *)
Definition stale (cfg : ServiceConfig) (now : Z) (h : gmap nat Job)
    (entry : string * nat) : bool :=
  match h !! entry.2 with
  | Some job => jobTimeoutMs cfg <? now - job_startedAt job
  | None => false
  end.

(** The job object as [cancelJob] leaves it. *)
Definition cancelled_copy (job : Job) : Job :=
  {| job_id := job_id job; job_userId := job_userId job;
     job_status := cancelled; job_startedAt := job_startedAt job;
     job_options := job_options job; job_progress := job_progress job;
     job_completedAt := job_completedAt job; job_results := job_results job;
     job_error := job_error job; job_cancelled := true |}.

(** The job object as the [try] block of [executeDiscovery] leaves it. *)
Definition completed_copy (now : Z) (results : DiscoveryResults) (job : Job)
    : Job :=
  {| job_id := job_id job; job_userId := job_userId job;
     job_status := completed; job_startedAt := job_startedAt job;
     job_options := job_options job;
     job_progress := {| step := "completed"; percentage := 100 |};
     job_completedAt := Some now;
     job_results := Some results; job_error := job_error job;
     job_cancelled := job_cancelled job |}.

(** The job object as the [catch] block of [executeDiscovery] leaves it. *)
Definition failed_copy (now : Z) (message : string) (job : Job) : Job :=
  {| job_id := job_id job; job_userId := job_userId job;
     job_status := failed; job_startedAt := job_startedAt job;
     job_options := job_options job;
     job_progress := {| step := "failed"; percentage := 0 |};
     job_completedAt := Some now;
     job_results := job_results job; job_error := Some message;
     job_cancelled := job_cancelled job |}.

(** The job object as [cleanupStaleJobs] leaves a stale job. *)
Definition timeout_copy (now : Z) (job : Job) : Job :=
  {| job_id := job_id job; job_userId := job_userId job;
     job_status := timeout; job_startedAt := job_startedAt job;
     job_options := job_options job; job_progress := job_progress job;
     job_completedAt := Some now; job_results := job_results job;
     job_error := Some "Job timed out";
     job_cancelled := job_cancelled job |}.

(** ** More sample data *)

Definition sample_user : User :=
  {| u_email := Some "john.doe99@example.org";
     alternativeEmails := Some ["jd@example.net"];
     phoneNumbers := Some ["+15550100"];
     commonUsernames := Some ["jdoe"];
     fullName := Some "John Doe" |}.

(** A finished job. *)
Definition finished_job (id : string) : Job :=
  {| job_id := id; job_userId := "u0"; job_status := completed;
     job_startedAt := 0; job_options := ∅;
     job_progress := {| step := "completed"; percentage := 100 |};
     job_completedAt := Some 1; job_results := None; job_error := None;
     job_cancelled := false |}.

(** One hundred jobs with distinct ids are started and cancelled, one
    after the other: the history is full. *)
Definition numbered_id (i : nat) : string :=
  String (ascii_of_nat (48 + i)) "".

Definition hundred_retired : list (Z * Step) :=
  flat_map (λ i, [(Z.of_nat i, DoStart (numbered_id i) "u0" ∅);
                  (Z.of_nat i, DoCancel (numbered_id i))])
    (seq 0 100).

Definition service_with_full_history : Service :=
  run sample_users default_service_config new_service hundred_retired.

(** A requester cancels a job and starts another one while the engine call
    of the first is still pending. *)
Definition superseded : Service :=
  run sample_users default_service_config new_service
    [(1000, DoStart "job_0" "u0" ∅); (2000, DoCancel "job_0");
     (2500, DoStart "job_1" "u0" ∅)].

(** The one job of [one_job] is cancelled. *)
Definition cancelled_once : Service :=
  run sample_users default_service_config one_job
    [(2000, DoCancel "job_0")].

(** ** Tactics *)

(** Membership in a list extended by one element. *)
Ltac in_snoc :=
  apply elem_of_app;
  first [ left; done | right; apply list_elem_of_singleton; done ].

(* ================================================================== *)
(** * Properties *)
(* ================================================================== *)

(** ** JavaScript idioms *)

Lemma findIndex_Some {A} (p : A → bool) l i :
  findIndex p l = Some i → ∃ x, l !! i = Some x ∧ p x = true.
Proof.
  revert i. induction l as [|y l IH]; intros i H; simpl in H; [done|].
  destruct (p y) eqn:Hp.
  - injection H as <-. by exists y.
  - destruct (findIndex p l) as [j|]; [|done].
    injection H as <-. simpl. by apply IH.
Qed.

Lemma findIndex_None {A} (p : A → bool) l x :
  findIndex p l = None → x ∈ l → p x = false.
Proof.
  induction l as [|y l IH]; intros H Hx; [by apply elem_of_nil in Hx|].
  simpl in H. destruct (p y) eqn:Hp; [done|].
  destruct (findIndex p l) eqn:Hf; [done|].
  apply elem_of_cons in Hx as [->|Hx]; [done|]. by apply IH.
Qed.

(** ** Confidence *)

Lemma source_bonus_table s b : SourceBonus s b → source_bonus s = b.
Proof.
  destruct 1 as [| | | |s Hs]; try reflexivity.
  unfold source_bonus.
  repeat match goal with
         | |- context [String.eqb ?a ?b] =>
             destruct (String.eqb_spec a b) as [->|_];
             [exfalso; apply Hs; set_solver|]
         end.
  reflexivity.
Qed.

Lemma method_bonus_table m b : MethodBonus m b → method_bonus m = b.
Proof.
  destruct 1 as [| | | |m Hm|]; try reflexivity.
  unfold method_bonus.
  repeat match goal with
         | |- context [String.eqb ?a ?b] =>
             destruct (String.eqb_spec a b) as [->|_];
             [exfalso; apply Hm; set_solver|]
         end.
  reflexivity.
Qed.

Lemma num_or_own x c : OwnConfidence x c → num_or x 50 = c.
Proof.
  destruct 1 as [n Hn| |]; try reflexivity.
  simpl. destruct (Z.eqb_spec n 0); [done|reflexivity].
Qed.

Lemma source_bonus_range s : 0 ≤ source_bonus s ≤ 20.
Proof. unfold source_bonus. repeat case_match; lia. Qed.

Lemma method_bonus_range m : 0 ≤ method_bonus m ≤ 20.
Proof. unfold method_bonus. repeat case_match; lia. Qed.

(** The cap: whatever the adapter reports, the score never exceeds 100. *)
Lemma confidence_le_100 result identifier :
  calculateAccountConfidence result identifier ≤ 100.
Proof. unfold calculateAccountConfidence. lia. Qed.

(** The score is not negative as long as the adapter's own confidence is
    not. *)
Lemma confidence_nonneg result identifier :
  (∀ c, res_confidence result = Some c → 0 ≤ c) →
  0 ≤ calculateAccountConfidence result identifier.
Proof.
  intros Hc. unfold calculateAccountConfidence.
  pose proof (source_bonus_range (id_source identifier)).
  pose proof (method_bonus_range (res_method result)).
  assert (0 ≤ num_or (res_confidence result) 50).
  { unfold num_or. destruct (res_confidence result) as [c|]; [|lia].
    specialize (Hc c eq_refl). case_match; lia. }
  lia.
Qed.

(** C2 as stated fails: a positive probe that reports the confidence 0 is
    scored from 50, not from 0. *)
Lemma confidence_zero_counterexample :
  let result := positive (Some 0) (Some "password_reset") in
  let identifier := primary_email_of "ann@example.org" in
  res_exists result = Some true
  ∧ calculateAccountConfidence result identifier = 85
  ∧ stated_confidence result identifier = 35
  ∧ calculateAccountConfidence result identifier
    ≠ stated_confidence result identifier.
Proof. vm_compute. repeat split; congruence. Qed.

(** C2, amended.  For a successful probe with [exists = true] the
    aggregator appends one account whose confidence is the probe's own
    confidence (50 when it is absent or 0) plus the identifier-source bonus
    plus the detection-method bonus, capped at 100. *)
Theorem aggregator_confidence st discovery result c sb mb :
  d_success discovery = true →
  d_result discovery = Some result →
  res_exists result = Some true →
  OwnConfidence (res_confidence result) c →
  SourceBonus (id_source (d_identifier discovery)) sb →
  MethodBonus (res_method result) mb →
  ∃ account,
    accounts (analyze_step st discovery) = (accounts st ++ [account])%list
    ∧ confidence account = Z.min (c + sb + mb) 100.
Proof.
  intros Hs Hr He Hc Hsb Hmb.
  unfold analyze_step. rewrite Hs, Hr. simpl. rewrite He.
  eexists. split; [reflexivity|]. simpl.
  unfold calculateAccountConfidence.
  by rewrite (num_or_own _ _ Hc), (source_bonus_table _ _ Hsb),
    (method_bonus_table _ _ Hmb).
Qed.

(** The scenario of C2: a primary e-mail probed with
    [{exists: true, method: "password_reset", confidence: 70}] scores
    min(100, 70 + 20 + 15) = 100. *)
Lemma aggregator_confidence_scenario :
  ∃ account,
    accounts
      (analyze_step (mkAnalysis [] ∅ ∅)
         (succeeded "twitter" (primary_email_of "ann@example.org")
            (positive (Some 70) (Some "password_reset"))))
    = [account]
    ∧ confidence account = 100.
Proof.
  apply (aggregator_confidence (mkAnalysis [] ∅ ∅)
           (succeeded "twitter" (primary_email_of "ann@example.org")
              (positive (Some 70) (Some "password_reset")))
           (positive (Some 70) (Some "password_reset")) 70 20 15);
    try reflexivity.
  - by apply own_given.
  - apply sb_primary.
  - apply mb_password_reset.
Defined.

(** ** Deduplication *)

Lemma same_pair_same_key a b :
  platform a = platform b →
  canonicalIdentifier a = canonicalIdentifier b →
  account_key a = account_key b.
Proof. unfold account_key. by intros -> ->. Qed.

Lemma key_lookup_inj (l : list Account) i j a b :
  NoDup (account_key <$> l) →
  l !! i = Some a → l !! j = Some b →
  account_key a = account_key b → i = j.
Proof.
  intros Hnd Ha Hb Hk.
  apply (NoDup_lookup _ i j (account_key a) Hnd).
  - by rewrite list_lookup_fmap, Ha.
  - by rewrite list_lookup_fmap, Hb, Hk.
Qed.

Lemma dedup_inv_init : dedup_inv [] (∅, []).
Proof.
  repeat split; simpl; try set_solver.
  constructor.
Qed.

Lemma dedup_inv_step done st a :
  dedup_inv done st → dedup_inv (done ++ [a]) (dedup_step st a).
Proof.
  destruct st as [seen ded]. intros (Hseen & Hnd & Hbest & Hcov).
  simpl in *. unfold dedup_step.
  destruct (decide (account_key a ∈ seen)) as [Hin|Hnin].
  - (* the key was seen: look the kept account up *)
    assert (Hk : account_key a ∈ account_key <$> ded) by by apply Hseen.
    destruct (findIndex _ ded) as [i|] eqn:Hfi.
    2:{ apply list_elem_of_fmap in Hk as (e & He & Hin').
        apply (findIndex_None _ _ e) in Hfi; [|done].
        rewrite He in Hfi. by rewrite String.eqb_refl in Hfi. }
    apply findIndex_Some in Hfi as (e & Hi & He).
    apply String.eqb_eq in He. rewrite Hi.
    destruct (Hbest e (list_elem_of_lookup_2 _ _ _ Hi)) as [_ Hle].
    destruct (Z.ltb_spec (confidence e) (confidence a)) as [Hlt|Hge].
    + (* the newcomer replaces the kept account in place *)
      assert (Hkeys : account_key <$> <[i:=a]> ded = account_key <$> ded).
      { rewrite list_fmap_insert. apply list_insert_id.
        rewrite list_lookup_fmap, Hi. simpl. by rewrite He. }
      split; [|split; [|split]]; simpl; rewrite ?Hkeys; try done.
      * intros r Hr. apply list_elem_of_lookup in Hr as [j Hj].
        apply list_lookup_insert_Some in Hj as [(-> & <- & _)|(Hne & Hj)].
        -- split; [in_snoc|].
           intros b Hb Hkb. apply elem_of_app in Hb as [Hb|Hb].
           ++ specialize (Hle b Hb). rewrite Hkb, He in Hle.
              specialize (Hle eq_refl). lia.
           ++ apply list_elem_of_singleton in Hb as ->. lia.
        -- pose proof (list_elem_of_lookup_2 _ _ _ Hj) as Hr.
           destruct (Hbest r Hr) as [Hrd Hrb].
           split; [in_snoc|].
           intros b Hb Hkb. apply elem_of_app in Hb as [Hb|Hb].
           ++ by apply Hrb.
           ++ apply list_elem_of_singleton in Hb as ->.
              exfalso. apply Hne. eapply key_lookup_inj; eauto. congruence.
      * intros b Hb. apply elem_of_app in Hb as [Hb|Hb]; [by apply Hcov|].
        by apply list_elem_of_singleton in Hb as ->.
    + (* the kept account stays *)
      split; [|split; [|split]]; simpl; try done.
      * intros r Hr. destruct (Hbest r Hr) as [Hrd Hrb].
        split; [in_snoc|].
        intros b Hb Hkb. apply elem_of_app in Hb as [Hb|Hb].
        -- by apply Hrb.
        -- apply list_elem_of_singleton in Hb as ->.
           apply list_elem_of_lookup in Hr as [j Hj].
           assert (i = j) as <- by (eapply key_lookup_inj; eauto; congruence).
           assert (r = e) as -> by congruence. lia.
      * intros b Hb. apply elem_of_app in Hb as [Hb|Hb]; [by apply Hcov|].
        by apply list_elem_of_singleton in Hb as ->.
  - (* a new key: the account is appended *)
    assert (Hfresh : account_key a ∉ account_key <$> ded)
      by (intros ?; by apply Hnin, Hseen).
    split; [|split; [|split]]; simpl; rewrite ?fmap_app; simpl.
    + intros k. rewrite elem_of_union, elem_of_app, elem_of_singleton,
        list_elem_of_singleton, Hseen. tauto.
    + apply NoDup_app. split; [done|]. split; [|apply NoDup_singleton].
      intros k Hk Hk'. by apply list_elem_of_singleton in Hk' as ->.
    + intros r Hr. apply elem_of_app in Hr as [Hr|Hr].
      * destruct (Hbest r Hr) as [Hrd Hrb]. split; [in_snoc|].
        intros b Hb Hkb. apply elem_of_app in Hb as [Hb|Hb]; [by apply Hrb|].
        apply list_elem_of_singleton in Hb as ->.
        exfalso. apply Hfresh. rewrite Hkb. by apply list_elem_of_fmap_2.
      * apply list_elem_of_singleton in Hr as ->. split; [in_snoc|].
        intros b Hb Hkb. apply elem_of_app in Hb as [Hb|Hb].
        -- exfalso. apply Hfresh. rewrite <- Hkb. by apply Hcov.
        -- apply list_elem_of_singleton in Hb as ->. lia.
    + intros b Hb. apply elem_of_app.
      apply elem_of_app in Hb as [Hb|Hb]; [left; by apply Hcov|].
      right. apply list_elem_of_singleton in Hb as ->.
      by apply list_elem_of_singleton.
Qed.

Lemma dedup_inv_fold l :
  dedup_inv l (foldl dedup_step (∅, []) l).
Proof.
  induction l as [|a l IH] using rev_ind; [apply dedup_inv_init|].
  rewrite foldl_snoc. by apply dedup_inv_step.
Qed.

(** C3 as stated fails: of two records for the same address on the same
    platform the more confident one is kept as it is, so the profile URL
    that only the other record carried is lost, while the union of the two
    metadata objects has it. *)
Lemma dedup_metadata_counterexample :
  deduplicateAccounts [account_with_url; account_without_url]
    = [account_without_url]
  ∧ profileUrl (metadata account_without_url) = None
  ∧ profileUrl
      (union_of_metadata
         (duplicates_of account_without_url
            [account_with_url; account_without_url]))
    = Some "https://twitter.com/ann"
  ∧ ¬ stated_dedup [account_with_url; account_without_url].
Proof.
  assert (Hout : deduplicateAccounts [account_with_url; account_without_url]
                 = [account_without_url]) by (vm_compute; reflexivity).
  assert (Hunion : profileUrl
            (union_of_metadata
               (duplicates_of account_without_url
                  [account_with_url; account_without_url]))
            = Some "https://twitter.com/ann") by (vm_compute; reflexivity).
  split; [done|]. split; [done|]. split; [done|].
  intros [_ H]. cbv zeta in H. rewrite Hout in H.
  destruct (H account_without_url) as [_ Hm].
  { by apply list_elem_of_singleton. }
  rewrite <- Hm in Hunion. discriminate Hunion.
Qed.

(** C3, amended.  After one pass of [deduplicateAccounts] no two retained
    accounts share a key, hence none share a (platform, canonical
    identifier) pair; every retained account is one of the input accounts,
    unchanged (so it carries its own metadata), and no input account with
    the same key has a higher confidence; and every input account is
    represented by a retained account with its key. *)
Theorem dedup_keeps_best (input : list Account) :
  let out := deduplicateAccounts input in
  NoDup (account_key <$> out)
  ∧ (∀ i j a b, out !! i = Some a → out !! j = Some b →
       platform a = platform b →
       canonicalIdentifier a = canonicalIdentifier b → i = j)
  ∧ (∀ a, a ∈ out →
       a ∈ input
       ∧ ∀ b, b ∈ input → account_key b = account_key a →
              confidence b ≤ confidence a)
  ∧ (∀ b, b ∈ input → ∃ a, a ∈ out ∧ account_key a = account_key b).
Proof.
  intros out. subst out. unfold deduplicateAccounts.
  destruct (dedup_inv_fold input) as (_ & Hnd & Hbest & Hcov).
  split; [done|]. split; [|split; [done|]].
  - intros i j a b Ha Hb Hp Hc.
    eapply key_lookup_inj; eauto using same_pair_same_key.
  - intros b Hb. apply Hcov, list_elem_of_fmap in Hb as (a & Hk & Ha).
    by exists a.
Qed.

(** [dedup_keeps_best] on the two sample records: the one kept is the more
    confident one, with its own (empty) metadata. *)
Lemma dedup_keeps_best_sample :
  NoDup (account_key
           <$> deduplicateAccounts [account_with_url; account_without_url])
  ∧ ∀ a, a ∈ deduplicateAccounts [account_with_url; account_without_url] →
         a ∈ [account_with_url; account_without_url]
         ∧ ∀ b, b ∈ [account_with_url; account_without_url] →
                account_key b = account_key a →
                confidence b ≤ confidence a.
Proof.
  pose proof (dedup_keeps_best [account_with_url; account_without_url])
    as (Hnd & _ & Hbest & _).
  exact (conj Hnd Hbest).
Defined.

(** Records found through two different addresses have different keys, so
    both are retained even though they are on the same platform. *)
Example distinct_addresses_both_kept :
  deduplicateAccounts [account_with_url; account_other_address]
  = [account_with_url; account_other_address].
Proof. vm_compute. reflexivity. Qed.

(** ** Task creation *)

Lemma push_tasks_for_spec options platform tasks identifiers :
  push_tasks_for options platform tasks identifiers
  = (tasks ++
     (identifier ← filter (λ i, platformSupportsIdentifierType platform
                                  (id_type i) = true) identifiers;
      [mkTask (p_key platform) identifier options]))%list.
Proof.
  unfold push_tasks_for. revert tasks.
  induction identifiers as [|i l IH]; intros tasks; simpl.
  - by rewrite app_nil_r.
  - rewrite IH, filter_cons.
    destruct (platformSupportsIdentifierType platform (id_type i)); simpl.
    + by rewrite <- app_assoc.
    + done.
Qed.

Lemma create_tasks_spec identifiers platforms options :
  create_tasks identifiers platforms options
  = cross_join_supported identifiers platforms options.
Proof.
  unfold create_tasks, cross_join_supported.
  enough (H : ∀ acc,
    foldl (λ tasks platform,
             push_tasks_for options platform tasks identifiers)
          acc platforms
    = (acc ++
       (platform ← platforms;
        identifier ← filter (λ i, platformSupportsIdentifierType platform
                                    (id_type i) = true) identifiers;
        [mkTask (p_key platform) identifier options]))%list)
    by apply (H []).
  induction platforms as [|p l IH]; intros acc; cbn [foldl].
  - by rewrite app_nil_r.
  - by rewrite IH, push_tasks_for_spec, bind_cons, <- app_assoc.
Qed.

Lemma length_tasks_of_platform options p (identifiers : list Identifier) :
  length (identifier ← filter (λ i, platformSupportsIdentifierType p
                                      (id_type i) = true) identifiers;
          [mkTask (p_key p) identifier options])
  = length (filter (λ i, platformSupportsIdentifierType p
                           (id_type i) = true) identifiers).
Proof.
  induction (filter _ identifiers) as [|i l IH]; [done|].
  rewrite bind_cons. simpl. by rewrite IH.
Qed.

Lemma length_filter_agree {A} (P Q : A → Prop)
    `{∀ x, Decision (P x)} `{∀ x, Decision (Q x)} (l : list A) :
  (∀ x, x ∈ l → P x ↔ Q x) →
  length (filter P l) = length (filter Q l).
Proof.
  induction l as [|x l IH]; intros Hpq; [done|].
  rewrite !filter_cons.
  assert (Hx : P x ↔ Q x) by (apply Hpq; left).
  assert (Hl : length (filter P l) = length (filter Q l))
    by (apply IH; intros y Hy; apply Hpq; by right).
  destruct (decide (P x)), (decide (Q x)); simpl; try tauto; by rewrite Hl.
Qed.

(** C4.  The tasks the scheduler creates are exactly the cross-join of the
    platforms with the identifiers, platform by platform and in order,
    without the pairs whose identifier type the platform does not support;
    a type is unsupported only when it is the phone type and the platform is
    not on the allow-list.  Three identifiers of which one is an e-mail,
    probed on a platform supporting all their types and on a platform
    supporting only the e-mail among them, give exactly four tasks. *)
Theorem tasks_are_supported_cross_join
    (identifiers : list Identifier) (platforms : list Platform)
    (options : Options) :
  create_tasks identifiers platforms options
    = cross_join_supported identifiers platforms options
  ∧ (∀ t, t ∈ create_tasks identifiers platforms options ↔
       ∃ p i, p ∈ platforms ∧ i ∈ identifiers
              ∧ platformSupportsIdentifierType p (id_type i) = true
              ∧ t = mkTask (p_key p) i options)
  ∧ (∀ p ty, platformSupportsIdentifierType p ty = false ↔
       ty = "phone" ∧ p_key p ∉ phone_platforms)
  ∧ (∀ A B : Platform,
       length identifiers = 3%nat →
       length (filter (λ i, id_type i = "email") identifiers) = 1%nat →
       (∀ i, i ∈ identifiers →
          platformSupportsIdentifierType A (id_type i) = true) →
       (∀ i, i ∈ identifiers →
          platformSupportsIdentifierType B (id_type i) = true
          ↔ id_type i = "email") →
       length (create_tasks identifiers [A; B] options) = 4%nat).
Proof.
  split; [apply create_tasks_spec|]. split; [|split].
  - intros t. rewrite create_tasks_spec. unfold cross_join_supported.
    rewrite list_elem_of_bind. split.
    + intros (p & Ht & Hp). apply list_elem_of_bind in Ht as (i & Ht & Hi).
      apply list_elem_of_filter in Hi as [Hs Hi].
      apply list_elem_of_singleton in Ht. by exists p, i.
    + intros (p & i & Hp & Hi & Hs & ->). exists p. split; [|done].
      apply list_elem_of_bind. exists i. split.
      * by apply list_elem_of_singleton.
      * by apply list_elem_of_filter.
  - intros p ty. unfold platformSupportsIdentifierType.
    destruct (String.eqb_spec ty "phone") as [->|Hne].
    + rewrite bool_decide_eq_false. tauto.
    + split; [done|]. by intros [? _].
  - intros A B Hlen Hmail HA HB.
    rewrite create_tasks_spec. unfold cross_join_supported.
    rewrite bind_cons, bind_singleton, length_app,
      !length_tasks_of_platform.
    rewrite (length_filter_agree
               (λ i, platformSupportsIdentifierType B (id_type i) = true)
               (λ i, id_type i = "email") identifiers) by apply HB.
    rewrite (length_filter_agree
               (λ i, platformSupportsIdentifierType A (id_type i) = true)
               (λ _, True) identifiers)
      by (intros i Hi; split; [done|intros _; by apply HA]).
    rewrite Hmail.
    assert (Hall : filter (λ _ : Identifier, True) identifiers = identifiers).
    { clear. induction identifiers as [|i l IH]; [done|].
      rewrite filter_cons. simpl. by rewrite IH. }
    rewrite Hall, Hlen. reflexivity.
Qed.

(** [tasks_are_supported_cross_join] on one e-mail address and two phone
    numbers, probed on twitter (on the phone allow-list) and on linkedin
    (not on it): four tasks. *)
Lemma four_tasks :
  length (create_tasks three_identifiers
            [mkPlatform "twitter"; mkPlatform "linkedin"] ∅) = 4%nat.
Proof.
  apply (proj2 (proj2 (proj2
           (tasks_are_supported_cross_join three_identifiers [] ∅)))).
  - reflexivity.
  - vm_compute. reflexivity.
  - intros i Hi. unfold three_identifiers in Hi.
    repeat (apply elem_of_cons in Hi as [->|Hi]); try reflexivity.
    by apply elem_of_nil in Hi.
  - intros i Hi. unfold three_identifiers in Hi.
    repeat (apply elem_of_cons in Hi as [->|Hi]);
      try (by apply elem_of_nil in Hi);
      vm_compute; split; congruence.
Defined.

(** ** Chunking *)

Lemma slice_chunk {A} (array : list A) (m : nat) (chunkSize : Z) :
  1 ≤ chunkSize → (m < length array)%nat →
  slice array (Z.of_nat m) (Z.of_nat m + chunkSize)
  = take (Z.to_nat chunkSize) (drop m array).
Proof.
  intros Hsize Hm. unfold slice, rel_index.
  destruct (Z.ltb_spec (Z.of_nat m) 0) as [?|_]; [lia|].
  destruct (Z.ltb_spec (Z.of_nat m + chunkSize) 0) as [?|_]; [lia|].
  rewrite (Z.min_l (Z.of_nat m)) by lia. rewrite Nat2Z.id.
  destruct (Z.le_gt_cases (Z.of_nat m + chunkSize) (Z.of_nat (length array)))
    as [Hle|Hgt].
  - rewrite Z.min_l by lia. f_equal. lia.
  - rewrite Z.min_r by lia.
    rewrite !take_ge; [done| |]; rewrite length_drop; lia.
Qed.

(** The loop of [chunkArray] from position [m] on: with enough fuel it
    ends, having appended consecutive non-empty chunks of at most
    [chunkSize] elements that make up the rest of the array. *)
Lemma chunkArray_loop_spec {A} (array : list A) (chunkSize : Z) :
  1 ≤ chunkSize →
  ∀ fuel m chunks,
    (length array - m < fuel)%nat →
    ∃ new,
      chunkArray_loop fuel array chunkSize (Z.of_nat m) chunks
        = Some (chunks ++ new)%list
      ∧ concat new = drop m array
      ∧ Forall (λ c, (0 < length c ≤ Z.to_nat chunkSize)%nat) new.
Proof.
  intros Hsize. induction fuel as [|fuel IH]; intros m chunks Hfuel; [lia|].
  simpl. destruct (Z.ltb_spec (Z.of_nat m) (Z.of_nat (length array)))
    as [Hlt|Hge].
  - rewrite slice_chunk by lia.
    replace (Z.of_nat m + chunkSize)
      with (Z.of_nat (m + Z.to_nat chunkSize)) by lia.
    destruct (IH (m + Z.to_nat chunkSize)%nat
                (chunks ++ [take (Z.to_nat chunkSize) (drop m array)])%list)
      as (new & Hrun & Hcat & Hall); [lia|].
    exists (take (Z.to_nat chunkSize) (drop m array) :: new).
    split; [by rewrite Hrun, <- app_assoc|]. split.
    + simpl. rewrite Hcat, <- drop_drop. apply take_drop.
    + constructor; [|done]. rewrite length_take, length_drop. lia.
  - exists []. rewrite app_nil_r. split; [done|]. split; [|constructor].
    simpl. symmetry. apply drop_ge. lia.
Qed.

(** With a positive chunk size [chunkArray] returns. *)
Lemma chunkArray_spec {A} (array : list A) (chunkSize : Z) :
  1 ≤ chunkSize →
  ∃ chunks,
    chunkArray array chunkSize = Some chunks
    ∧ concat chunks = array
    ∧ Forall (λ c, (0 < length c ≤ Z.to_nat chunkSize)%nat) chunks.
Proof.
  intros Hsize.
  destruct (chunkArray_loop_spec array chunkSize Hsize
              (S (length array)) 0%nat []) as (new & Hrun & Hcat & Hall);
    [lia|].
  exists new. by rewrite drop_0 in Hcat.
Qed.

(** With a chunk size that is not positive the loop over a non-empty array
    never ends, whatever the fuel: the counter never reaches the length. *)
Lemma chunkArray_diverges {A} (array : list A) (chunkSize : Z) :
  chunkSize ≤ 0 → array ≠ [] →
  ∀ fuel i chunks,
    i ≤ 0 → chunkArray_loop fuel array chunkSize i chunks = None.
Proof.
  intros Hsize Hne. induction fuel as [|fuel IH]; intros i chunks Hi; [done|].
  simpl. destruct (Z.ltb_spec i (Z.of_nat (length array))) as [_|Hge].
  - apply IH. lia.
  - destruct array; [done|]. simpl in Hge. lia.
Qed.

(** ** Retrying *)








(** ** Chunked execution *)

Lemma collect_fold (chunkResults : list TaskPromise) :
  ∀ results,
    foldl collect results chunkResults
    = (results ++ omap record_of chunkResults)%list.
Proof.
  induction chunkResults as [|p ps IH]; intros results; simpl.
  - by rewrite app_nil_r.
  - rewrite IH. destruct p; simpl; [|done]. by rewrite <- app_assoc.
Qed.

Lemma new_slots_app (l1 l2 : list Task) :
  ∀ calls,
    new_slots calls (l1 ++ l2)
    = (new_slots calls l1 ++ new_slots (calls + length l1) l2)%list.
Proof.
  induction l1 as [|t l1 IH]; intros calls; simpl.
  - by rewrite Nat.add_0_r.
  - rewrite IH. do 3 f_equal. lia.
Qed.

Lemma new_slots_pending (chunk : list Task) :
  ∀ calls,
    filter (λ s, is_pending s = true) (new_slots calls chunk)
    = new_slots calls chunk.
Proof.
  induction chunk as [|t chunk IH]; intros calls; [done|].
  simpl. rewrite filter_cons. simpl. by rewrite IH.
Qed.

Lemma new_slots_promise w cfg (chunk : list Task) :
  ∀ calls,
    slot_promise w cfg <$> new_slots calls chunk
    = promise_of w cfg <$> new_slots calls chunk.
Proof.
  induction chunk as [|t chunk IH]; intros calls; [done|].
  cbn [new_slots]. rewrite !fmap_cons. by rewrite IH.
Qed.

Lemma new_slots_calls (chunk : list Task) :
  ∀ calls s,
    s ∈ new_slots calls chunk →
    (calls ≤ s_call s < calls + length chunk)%nat.
Proof.
  induction chunk as [|t chunk IH]; intros calls s Hin;
    [by apply elem_of_nil in Hin|].
  simpl in Hin. apply elem_of_cons in Hin as [->|Hin]; simpl; [lia|].
  apply IH in Hin. lia.
Qed.


(** Once every promise of a chunk has settled, none is pending and the
    outcomes are the recorded ones. *)
Lemma all_settled w cfg (slots : list Slot) :
  ∀ chunkResults,
    s_promise <$> slots = Some <$> chunkResults →
    filter (λ s, is_pending s = true) slots = []
    ∧ slot_promise w cfg <$> slots = chunkResults.
Proof.
  induction slots as [|s slots IH]; intros [|p ps] Heq; try done.
  rewrite !fmap_cons in Heq. injection Heq as Hs Heq.
  destruct (IH ps Heq) as [Hnone Hall].
  split.
  - rewrite filter_cons, decide_False; [done|].
    unfold is_pending. by rewrite Hs.
  - rewrite fmap_cons, Hall. unfold slot_promise. by rewrite Hs.
Qed.

(** One step back: what is left of a run before a step, from what is left
    after it. *)
Lemma completes_step w cfg s events s' trace results :
  loop_step w cfg s events s' →
  completes w cfg s' trace results →
  completes w cfg s (events ++ trace)%list results.
Proof.
  intros Hstep. destruct Hstep
    as [r calls chunk rest|r before call task after calls rest
       |r slots chunkResults calls rest Hall|r calls rest|r calls]; simpl.
  - intros (settles & trace' & -> & Hperm & Htail & ->). split.
    + exists ((start_event <$> new_slots calls chunk) ++ settles)%list, trace'.
      split; [by rewrite <- !app_assoc|]. split; [|done].
      exists settles. split; [done|]. by rewrite new_slots_pending in Hperm.
    + unfold records_from. simpl.
      by rewrite new_slots_app, fmap_app, omap_app, new_slots_promise.
  - intros (settles & trace' & -> & Hperm & Htail & ->).
    exists (EvSettle call task (executeDiscoveryTask w cfg call task)
            :: settles), trace'.
    split; [done|]. split; [|split; [done|]].
    + rewrite filter_app, filter_cons, fmap_app in *. simpl in *.
      rewrite <- Permutation_middle. by constructor.
    + rewrite !fmap_app, !fmap_cons. done.
  - destruct (all_settled w cfg slots chunkResults Hall) as [Hnone Hrec].
    rewrite collect_fold. destruct rest as [|chunk rest]; simpl.
    + intros [-> ->]. exists [], []. rewrite Hnone, Hrec. simpl.
      split; [done|]. split; [done|]. split; [done|].
      unfold records_from. simpl. by rewrite !app_nil_r.
    + intros (trace' & -> & Htail & ->). exists [], trace'.
      rewrite Hnone, Hrec. simpl. split; [done|]. split; [done|].
      split; [done|]. by rewrite <- app_assoc.
  - intros [Htail ->]. by exists trace.
  - intros [-> ->]. split; [done|].
    unfold records_from. simpl. by rewrite app_nil_r.
Qed.

(** A run that returns is made of the events of its chunks, and returns
    the records of the fulfilled promises. *)
Lemma run_completes w cfg s trace final :
  loop_run w cfg s trace final →
  ∀ results, final = Returned results → completes w cfg s trace results.
Proof.
  induction 1 as [s|s events s' trace s'' Hstep _ IH]; intros results ->.
  - done.
  - eapply completes_step; [done|]. by apply IH.
Qed.

Lemma loop_run_app w cfg s trace1 s' trace2 s'' :
  loop_run w cfg s trace1 s' →
  loop_run w cfg s' trace2 s'' →
  loop_run w cfg s (trace1 ++ trace2)%list s''.
Proof.
  induction 1 as [s|s events s1 trace s2 Hstep _ IH]; intros Hrest; [done|].
  rewrite <- app_assoc. eapply loop_run_step; [done|]. by apply IH.
Qed.

(** The promises that are pending can all settle. *)
Lemma settle_all w cfg results calls rest (todo : list Slot) :
  ∀ settled chunkResults,
    s_promise <$> settled = Some <$> chunkResults →
    ∃ trace slots chunkResults',
      loop_run w cfg (Awaiting results (settled ++ todo)%list calls rest)
        trace (Awaiting results slots calls rest)
      ∧ s_promise <$> slots = Some <$> chunkResults'.
Proof.
  induction todo as [|[call task [p|]] todo IH]; intros settled cr Hcr.
  - exists [], settled, cr. rewrite app_nil_r. split; [constructor|done].
  - destruct (IH (settled ++ [mkSlot call task (Some p)])%list
                (cr ++ [p])%list) as (trace & slots & cr' & Hrun & Hcr').
    { by rewrite !fmap_app, Hcr. }
    exists trace, slots, cr'. split; [|done].
    by rewrite <- app_assoc in Hrun.
  - destruct (IH (settled
                  ++ [mkSlot call task
                        (Some (executeDiscoveryTask w cfg call task))])%list
                (cr ++ [executeDiscoveryTask w cfg call task])%list)
      as (trace & slots & cr' & Hrun & Hcr').
    { by rewrite !fmap_app, Hcr. }
    rewrite <- app_assoc in Hrun.
    exists ([EvSettle call task (executeDiscoveryTask w cfg call task)]
            ++ trace)%list, slots, cr'.
    split; [|done]. eapply loop_run_step; [apply loop_settle|done].
Qed.

(** From the head of the loop the run goes on to return. *)
Lemma finish_from_head w cfg (taskChunks : list (list Task)) :
  ∀ results calls,
    ∃ trace final,
      loop_run w cfg (AtChunk results calls taskChunks) trace
        (Returned final).
Proof.
  induction taskChunks as [|chunk rest IH]; intros results calls.
  - exists [], results.
    apply (loop_run_step w cfg _ [] (Returned results) []);
      [apply loop_return|constructor].
  - destruct (settle_all w cfg results (calls + length chunk) rest
                (new_slots calls chunk) [] []) as (t1 & slots & cr & H1 & Hcr);
      [done|].
    destruct (IH (foldl collect results cr) (calls + length chunk)%nat)
      as (t2 & final & H2).
    exists ((start_event <$> new_slots calls chunk)
            ++ t1 ++ [] ++ after_chunk cfg rest ++ t2)%list, final.
    eapply loop_run_step; [apply loop_start|].
    eapply loop_run_app; [exact H1|].
    eapply loop_run_step; [by apply loop_collect|].
    destruct rest as [|next rest]; [exact H2|].
    simpl. eapply (loop_run_step w cfg _ [_]); [apply loop_sleep|exact H2].
Qed.

(** Wherever the loop stands, the run can go on to return: nothing that a
    task does stops it. *)
Lemma can_finish w cfg (s : Loop) :
  ∃ trace final, loop_run w cfg s trace (Returned final).
Proof.
  destruct s as [results calls taskChunks|results slots calls rest
                |results calls rest|results].
  - apply finish_from_head.
  - destruct (settle_all w cfg results calls rest slots [] [])
      as (t1 & slots' & cr & H1 & Hcr); [done|].
    destruct (finish_from_head w cfg rest (foldl collect results cr) calls)
      as (t2 & final & H2).
    exists (t1 ++ [] ++ after_chunk cfg rest ++ t2)%list, final.
    eapply loop_run_app; [exact H1|].
    eapply loop_run_step; [by apply loop_collect|].
    destruct rest as [|next rest]; [exact H2|].
    simpl. eapply (loop_run_step w cfg _ [_]); [apply loop_sleep|exact H2].
  - destruct (finish_from_head w cfg rest results calls)
      as (t2 & final & H2).
    exists ([EvDelay (delayBetweenRequests cfg)] ++ t2)%list, final.
    eapply loop_run_step; [apply loop_sleep|exact H2].
  - exists [], results. constructor.
Qed.

(** The events of a chunk. *)
Lemma segment_events w cfg calls chunk segment :
  chunk_segment w cfg calls chunk segment →
  (∀ s, s ∈ new_slots calls chunk →
        start_event s ∈ segment ∧ settle_event w cfg s ∈ segment)
  ∧ (∀ call task, EvStart call task ∈ segment →
                  (calls ≤ call < calls + length chunk)%nat)
  ∧ omap started_call segment
    = (λ s, (s_call s, s_task s)) <$> new_slots calls chunk
  ∧ filter (λ e, is_delay e = true) segment = [].
Proof.
  intros (settles & -> & Hperm).
  assert (Hsettles : ∀ e, e ∈ settles →
            started_call e = None ∧ is_delay e = false).
  { intros e He. rewrite Hperm in He.
    by apply list_elem_of_fmap in He as (s & -> & _). }
  split; [|split; [|split]].
  - intros s Hs. split; apply elem_of_app.
    + left. by apply list_elem_of_fmap_2.
    + right. rewrite Hperm. by apply list_elem_of_fmap_2.
  - intros call task Hin. apply elem_of_app in Hin as [Hin|Hin].
    + apply list_elem_of_fmap in Hin as (s & Heq & Hs).
      injection Heq as -> ->. by apply new_slots_calls in Hs.
    + by apply Hsettles in Hin as [? _].
  - rewrite omap_app.
    assert (omap started_call settles = []) as ->.
    { clear Hperm. induction settles as [|e l IH]; [done|].
      simpl. destruct (Hsettles e) as [-> _]; [left|].
      apply IH. intros e' He'. apply Hsettles. by right. }
    rewrite app_nil_r. clear. generalize calls.
    induction chunk as [|t chunk IH]; intros n; [done|].
    simpl. f_equal. apply IH.
  - rewrite filter_app.
    assert (filter (λ e, is_delay e = true) settles = []) as ->.
    { clear Hperm. induction settles as [|e l IH]; [done|].
      rewrite filter_cons. destruct (Hsettles e) as [_ ->]; [left|].
      simpl. apply IH. intros e' He'. apply Hsettles. by right. }
    rewrite app_nil_r. clear. generalize calls.
    induction chunk as [|t chunk IH]; intros n; [done|].
    simpl. rewrite filter_cons. simpl. apply IH.
Qed.

(** Between two consecutive chunks of a chunked trace: every promise of
    the first has settled before the delay, no later call has started
    before it, and the second chunk starts after it. *)
Lemma chunked_trace_boundary w cfg (before : list (list Task)) :
  ∀ calls chunk next after trace,
    chunked_trace w cfg calls (before ++ chunk :: next :: after) trace →
    ∃ pre post,
      trace = (pre ++ EvDelay (delayBetweenRequests cfg) :: post)%list
      ∧ (∀ s, s ∈ new_slots (calls + length (concat before)) chunk →
              settle_event w cfg s ∈ pre)
      ∧ (∀ call task, EvStart call task ∈ pre →
           (call < calls + length (concat before) + length chunk)%nat)
      ∧ (∀ s, s ∈ new_slots (calls + length (concat before) + length chunk)
                    next →
              start_event s ∈ post).
Proof.
  induction before as [|b before IH]; intros calls chunk next after trace.
  - simpl. intros (seg & trace' & -> & Hseg & seg' & trace'' & -> & Hseg' & _).
    rewrite Nat.add_0_r.
    destruct (segment_events _ _ _ _ _ Hseg) as (Hin & Hstarts & _).
    destruct (segment_events _ _ _ _ _ Hseg') as (Hin' & _).
    exists seg, (seg' ++ after_chunk cfg after ++ trace'')%list.
    split; [done|]. split; [|split].
    + intros s Hs. by apply Hin.
    + intros call task Hc. apply Hstarts in Hc. lia.
    + intros s Hs. apply elem_of_app. left. by apply Hin'.
  - cbn [app chunked_trace].
    intros (seg & trace' & -> & Hseg & Htail).
    destruct (IH _ _ _ _ _ Htail) as (pre & post & -> & Hsettle & Hstart & Hnext).
    destruct (segment_events _ _ _ _ _ Hseg) as (_ & Hstarts & _).
    assert (Hafter : after_chunk cfg (before ++ chunk :: next :: after)%list
                     = [EvDelay (delayBetweenRequests cfg)]).
    { by destruct before. }
    rewrite Hafter. simpl concat. rewrite length_app.
    exists (seg ++ EvDelay (delayBetweenRequests cfg) :: pre)%list, post.
    split; [by rewrite <- !app_assoc|]. split; [|split].
    + intros s Hs. rewrite Nat.add_assoc in Hs.
      apply elem_of_app. right. right. by apply Hsettle.
    + intros call task Hc. apply elem_of_app in Hc as [Hc|Hc].
      * apply Hstarts in Hc. lia.
      * apply elem_of_cons in Hc as [?|Hc]; [done|].
        apply Hstart in Hc. lia.
    + intros s Hs. rewrite Nat.add_assoc in Hs. by apply Hnext.
Qed.

(** The starts and the delays of a chunked trace. *)
Lemma chunked_trace_starts w cfg (taskChunks : list (list Task)) :
  ∀ calls trace,
    chunked_trace w cfg calls taskChunks trace →
    (∀ s, s ∈ new_slots calls (concat taskChunks) →
          start_event s ∈ trace ∧ settle_event w cfg s ∈ trace)
    ∧ omap started_call trace
      = (λ s, (s_call s, s_task s)) <$> new_slots calls (concat taskChunks)
    ∧ filter (λ e, is_delay e = true) trace
      = replicate (length taskChunks - 1) (EvDelay (delayBetweenRequests cfg)).
Proof.
  induction taskChunks as [|chunk rest IH]; intros calls trace; simpl.
  - intros ->. split; [|done]. intros s Hs. by apply elem_of_nil in Hs.
  - intros (seg & trace' & -> & Hseg & Htail).
    destruct (segment_events _ _ _ _ _ Hseg) as (Hin & _ & Hstarts & Hdelay).
    destruct (IH _ _ Htail) as (Hin' & Hstarts' & Hdelay').
    split; [|split].
    + intros s Hs. rewrite new_slots_app in Hs.
      rewrite !elem_of_app. apply elem_of_app in Hs as [Hs|Hs].
      * destruct (Hin s Hs). by split; left.
      * destruct (Hin' s Hs). by split; right; right.
    + rewrite !omap_app, Hstarts, Hstarts', new_slots_app, fmap_app.
      by destruct rest.
    + rewrite !filter_app, Hdelay, Hdelay', Nat.sub_0_r.
      destruct rest as [|next rest]; [done|].
      simpl. by rewrite Nat.sub_0_r.
Qed.

(** The chunking of a task list, whatever the chunk size: when the loop
    of [chunkArray] ends with a chunk size that is not positive, the array
    is empty. *)
Lemma chunkArray_loop_not_positive {A} (array : list A) (chunkSize : Z) :
  chunkSize ≤ 0 →
  ∀ fuel i chunks result,
    i ≤ 0 →
    chunkArray_loop fuel array chunkSize i chunks = Some result →
    array = [].
Proof.
  intros Hsize. induction fuel as [|fuel IH]; intros i chunks result Hi Hrun;
    [done|].
  simpl in Hrun.
  destruct (Z.ltb_spec i (Z.of_nat (length array))) as [Hlt|Hge].
  - apply IH in Hrun; [done|lia].
  - destruct array; [done|]. simpl in Hge. lia.
Qed.

Lemma chunkArray_concat {A} (array : list A) (chunkSize : Z) chunks :
  chunkArray array chunkSize = Some chunks → concat chunks = array.
Proof.
  intros Hrun. destruct (Z.le_gt_cases 1 chunkSize) as [Hpos|Hneg].
  - destruct (chunkArray_spec array chunkSize Hpos) as (c & Hc & Hcat & _).
    congruence.
  - pose proof Hrun as Hnil.
    apply (chunkArray_loop_not_positive array chunkSize) in Hnil; [|lia|lia].
    subst array. by injection Hrun as <-.
Qed.

(** What a run that returns has done, seen from the entry of the loop. *)
Lemma run_returned w cfg (taskChunks : list (list Task)) trace results :
  loop_run w cfg (AtChunk [] 0 taskChunks) trace (Returned results) →
  chunked_trace w cfg 0 taskChunks trace
  ∧ results = omap record_of (promises w cfg (concat taskChunks)).
Proof.
  intros Hrun. by apply (run_completes _ _ _ _ _ Hrun results eq_refl).
Qed.

(** With a positive chunk size the loop is entered, with chunks that make
    up the task list. *)
Lemma loop_entered cfg identifiers platforms options :
  1 ≤ maxConcurrentDiscoveries cfg →
  ∃ taskChunks,
    executeDiscoveryAcrossPlatforms cfg identifiers platforms options
    = Some (AtChunk [] 0 taskChunks)
    ∧ concat taskChunks = create_tasks identifiers platforms options
    ∧ Forall (λ chunk, 1 ≤ Z.of_nat (length chunk)
                       ≤ maxConcurrentDiscoveries cfg) taskChunks.
Proof.
  intros Hsize.
  destruct (chunkArray_spec (create_tasks identifiers platforms options)
              _ Hsize) as (taskChunks & Hchunks & Hcat & Hall).
  exists taskChunks. unfold executeDiscoveryAcrossPlatforms.
  rewrite Hchunks. split; [done|]. split; [done|].
  eapply Forall_impl; [exact Hall|]. intros c Hc. simpl in Hc. lia.
Qed.

(** C5 as stated fails when [maxConcurrentDiscoveries] is not positive:
    for a single task and the limit 0 the loop of [chunkArray] never ends,
    whatever the fuel, so there is no partition of the task list and the
    loop over the chunks is never entered. *)
Theorem chunking_never_ends_counterexample :
  create_tasks [primary_email_of "ann@example.org"] [mkPlatform "twitter"] ∅
  = [ann_on_twitter]
  ∧ (∀ fuel,
       chunkArray_loop fuel [ann_on_twitter]
         (maxConcurrentDiscoveries none_per_chunk) 0 [] = None)
  ∧ ¬ (∃ fuel taskChunks,
         chunkArray_loop fuel [ann_on_twitter]
           (maxConcurrentDiscoveries none_per_chunk) 0 [] = Some taskChunks
         ∧ concat taskChunks = [ann_on_twitter])
  ∧ executeDiscoveryAcrossPlatforms none_per_chunk
      [primary_email_of "ann@example.org"] [mkPlatform "twitter"] ∅
    = None.
Proof.
  assert (Hnone : ∀ fuel,
            chunkArray_loop fuel [ann_on_twitter]
              (maxConcurrentDiscoveries none_per_chunk) 0 [] = None).
  { intros fuel.
    destruct (chunkArray_loop fuel [ann_on_twitter]
                (maxConcurrentDiscoveries none_per_chunk) 0 [])
      as [r|] eqn:Hrun; [|reflexivity].
    apply chunkArray_loop_not_positive in Hrun;
      [discriminate Hrun|simpl; lia|lia]. }
  split; [vm_compute; reflexivity|]. split; [exact Hnone|]. split.
  - intros (fuel & taskChunks & Hrun & _). rewrite Hnone in Hrun.
    discriminate Hrun.
  - vm_compute. reflexivity.
Qed.

(** C5, amended.  With a positive [maxConcurrentDiscoveries] the task list
    is cut into consecutive chunks of at least one and at most that many
    tasks, and the loop over the chunks is entered.  Whatever the tasks do
    and in whatever order their promises settle, a run can always go on
    until the function returns.  The trace of a run that returns is made
    of the events of the chunks, one chunk after the other: the tasks of
    the chunk are started in order, then the promise of each of them
    settles, as [executeDiscoveryTask] has it, and one delay of
    [delayBetweenRequests] follows unless the chunk is the last; the run
    returns the records of the tasks whose promise is fulfilled.  So
    between two consecutive chunks the trace splits at a delay: every
    promise of the first chunk has settled before it, no call of a later
    task has started before it, and every task of the second chunk starts
    after it. *)
Theorem chunked_execution (w : World) (cfg : Config)
    (identifiers : list Identifier) (platforms : list Platform)
    (options : Options) :
  1 ≤ maxConcurrentDiscoveries cfg →
  ∃ taskChunks,
    executeDiscoveryAcrossPlatforms cfg identifiers platforms options
    = Some (AtChunk [] 0 taskChunks)
    ∧ concat taskChunks = create_tasks identifiers platforms options
    ∧ Forall (λ chunk, 1 ≤ Z.of_nat (length chunk)
                       ≤ maxConcurrentDiscoveries cfg) taskChunks
    ∧ (∀ trace s,
         loop_run w cfg (AtChunk [] 0 taskChunks) trace s →
         ∃ trace' results, loop_run w cfg s trace' (Returned results))
    ∧ ∀ trace results,
        loop_run w cfg (AtChunk [] 0 taskChunks) trace (Returned results) →
        chunked_trace w cfg 0 taskChunks trace
        ∧ results
          = omap record_of
              (promises w cfg (create_tasks identifiers platforms options))
        ∧ ∀ before chunk next after,
            taskChunks = (before ++ chunk :: next :: after)%list →
            ∃ pre post,
              trace = (pre ++ EvDelay (delayBetweenRequests cfg) :: post)%list
              ∧ (∀ s, s ∈ new_slots (length (concat before)) chunk →
                      settle_event w cfg s ∈ pre)
              ∧ (∀ call task, EvStart call task ∈ pre →
                   (call < length (concat before) + length chunk)%nat)
              ∧ (∀ s, s ∈ new_slots (length (concat before) + length chunk)
                            next →
                      start_event s ∈ post).
Proof.
  intros Hsize.
  destruct (loop_entered cfg identifiers platforms options Hsize)
    as (taskChunks & Hinit & Hcat & Hall).
  exists taskChunks. split; [done|]. split; [done|]. split; [done|]. split.
  - intros trace s _. apply can_finish.
  - intros trace results Hrun.
    destruct (run_returned _ _ _ _ _ Hrun) as [Hshape Hres].
    split; [done|]. split; [by rewrite <- Hcat|].
    intros before chunk next after ->.
    by apply (chunked_trace_boundary w cfg before 0 chunk next after).
Qed.

(** [chunked_execution] in the sample world with two tasks per chunk: the
    four tasks make two chunks, a run returns, and its trace is chunked. *)
Lemma chunked_execution_sample :
  ∃ taskChunks trace results,
    executeDiscoveryAcrossPlatforms two_per_chunk three_identifiers
      [mkPlatform "twitter"; mkPlatform "linkedin"] ∅
    = Some (AtChunk [] 0 taskChunks)
    ∧ length <$> taskChunks = [2; 2]%nat
    ∧ loop_run sample_world two_per_chunk (AtChunk [] 0 taskChunks) trace
        (Returned results)
    ∧ chunked_trace sample_world two_per_chunk 0 taskChunks trace.
Proof.
  destruct (chunked_execution sample_world two_per_chunk three_identifiers
              [mkPlatform "twitter"; mkPlatform "linkedin"] ∅)
    as (taskChunks & Hinit & _ & _ & Hgo & Hshape); [simpl; lia|].
  destruct (Hgo [] _ (loop_run_done _ _ _)) as (trace & results & Hrun).
  exists taskChunks, trace, results. split; [exact Hinit|]. split.
  - clear -Hinit. vm_compute in Hinit. injection Hinit as <-. reflexivity.
  - split; [exact Hrun|]. exact (proj1 (Hshape trace results Hrun)).
Defined.

(** ** Failure containment *)

Lemma analyze_step_accounts st d :
  accounts (analyze_step st d)
  = (accounts st ++ from_option (λ a, [a]) [] (account_of d))%list.
Proof.
  unfold analyze_step, account_of.
  destruct (d_success d); simpl; [|by rewrite app_nil_r].
  destruct (d_result d) as [r|]; simpl; [|by rewrite app_nil_r].
  destruct (res_exists r) as [[]|]; simpl; by rewrite ?app_nil_r.
Qed.

Lemma analyze_fold_accounts l :
  ∀ st, accounts (foldl analyze_step st l)
        = (accounts st ++ omap account_of l)%list.
Proof.
  induction l as [|d l IH]; intros st; simpl; [by rewrite app_nil_r|].
  rewrite IH, analyze_step_accounts.
  destruct (account_of d); simpl; by rewrite <- ?app_assoc, ?app_nil_r.
Qed.

Lemma ensure_platform_lookup p m q :
  ensure_platform p m !! q
  = if decide (p = q) then Some (default (mkPlatformStat 0 0 0) (m !! p))
    else m !! q.
Proof.
  unfold ensure_platform. destruct (m !! p) as [s|] eqn:Hp.
  - case_decide; [by subst|done].
  - rewrite lookup_insert. by case_decide.
Qed.

Lemma analyze_step_platformStats st d q :
  platformStats (analyze_step st d) !! q
  = if decide (d_platform d = q)
    then Some (bumped d (default (mkPlatformStat 0 0 0)
                           (platformStats st !! d_platform d)))
    else platformStats st !! q.
Proof.
  unfold analyze_step, bumped.
  destruct (d_success d); simpl;
    [destruct (d_result d) as [r|]; simpl;
       [destruct (res_exists r) as [[]|]; simpl|]|];
    rewrite !lookup_alter, ?ensure_platform_lookup;
    repeat case_decide; simplify_eq; done.
Qed.

Lemma tally_default field m p :
  field (mkPlatformStat 0 0 0) = 0%nat →
  field (default (mkPlatformStat 0 0 0) (m !! p)) = tally field m p.
Proof. intros H0. unfold tally. by destruct (m !! p). Qed.

(** The error and search counters of a platform count the failed records
    and all records of that platform. *)
Lemma analyze_fold_tally l p :
  ∀ st,
    tally errors (platformStats (foldl analyze_step st l)) p
    = (tally errors (platformStats st) p
       + length (filter (λ d, d_platform d = p ∧ d_success d = false) l))%nat
    ∧ tally searched (platformStats (foldl analyze_step st l)) p
      = (tally searched (platformStats st) p
         + length (filter (λ d, d_platform d = p) l))%nat.
Proof.
  induction l as [|d l IH]; intros st; simpl; [by rewrite !Nat.add_0_r|].
  destruct (IH (analyze_step st d)) as [He Hs]. rewrite He, Hs.
  rewrite !filter_cons. unfold tally at 1 3.
  rewrite analyze_step_platformStats.
  destruct (decide (d_platform d = p)) as [Hp|Hp]; simpl.
  - rewrite <- Hp.
    unfold bumped. destruct (d_success d); simpl.
    + rewrite decide_False by (intros [_ ?]; done).
      destruct (result_exists (d_result d)); simpl;
        rewrite (tally_default errors), (tally_default searched) by done;
        split; lia.
    + rewrite decide_True by done. simpl.
      rewrite (tally_default errors), (tally_default searched) by done.
      split; lia.
  - rewrite decide_False by (intros [? _]; done). done.
Qed.

(** Every account of the deduplicated list has a confidence of at most
    100, and of at least 0 when no adapter reported a negative confidence. *)
Lemma analysis_confidence_range (results : list Discovery) a :
  a ∈ ar_accounts (analyzeDiscoveryResults results) →
  confidence a ≤ 100
  ∧ ((∀ d r c, d ∈ results → d_result d = Some r →
        res_confidence r = Some c → 0 ≤ c) →
     0 ≤ confidence a).
Proof.
  intros Ha. unfold analyzeDiscoveryResults in Ha. simpl in Ha.
  unfold deduplicateAccounts in Ha.
  destruct (dedup_inv_fold
              (accounts (foldl analyze_step (mkAnalysis [] ∅ ∅) results)))
    as (_ & _ & Hbest & _).
  apply Hbest in Ha as [Ha _].
  rewrite analyze_fold_accounts in Ha. simpl in Ha.
  apply list_elem_of_omap in Ha as (d & Hd & Hacc).
  unfold account_of in Hacc.
  destruct (d_success d); [|done].
  destruct (d_result d) as [r|] eqn:Hr; [|done].
  destruct (result_exists (Some r)); [|done].
  injection Hacc as <-. simpl. split; [apply confidence_le_100|].
  intros Hpos. apply confidence_nonneg. intros c Hc. by eapply Hpos.
Qed.

(** C1.  A positive probe whose adapter reports the confidence -30, found
    through a name variation and with an unlisted method, ends up in the
    deduplicated account list of [analyzeDiscoveryResults] with the
    confidence -30: the score is capped at 100 but not bounded below, so
    the documented range 0-100 is left. *)
Theorem confidence_below_zero :
  ∃ account,
    ar_accounts
      (analyzeDiscoveryResults
         [succeeded "twitter" (name_variation_of "annlee")
            (positive (Some (-30)) (Some "unknown"))]) = [account]
    ∧ confidence account = -30
    ∧ ¬ (0 ≤ confidence account ≤ 100).
Proof.
  eexists. split; [vm_compute; reflexivity|]. simpl. split; [reflexivity|lia].
Qed.






(** ** The job registry *)

Lemma map_get_set_eq {V} k (v : V) m : map_get k (map_set k v m) = Some v.
Proof.
  induction m as [|[k' v'] m IH]; simpl.
  - by rewrite String.eqb_refl.
  - destruct (String.eqb k' k) eqn:Hk; simpl; by rewrite Hk.
Qed.

Lemma map_has_get {V} k (m : list (string * V)) :
  map_has k m = true ↔ is_Some (map_get k m).
Proof.
  unfold map_has. destruct (map_get k m); split; done.
Qed.

(** A requester with a job object in the registry gets that job's
    descriptor back, and the service is left as it is. *)
Lemma startDiscovery_existing users cfg now newJobId userId options s job :
  userId ∈ users →
  active_job s userId = Some job →
  startDiscovery users cfg now newJobId userId options s
  = (s, inr {| jobId := job_id job; d_status := "in_progress";
               d_message := "Discovery already in progress";
               d_startedAt := job_startedAt job |}).
Proof.
  intros Hu Hjob. unfold startDiscovery.
  rewrite bool_decide_eq_true_2 by done. simpl.
  assert (Hhas : map_has userId (activeJobs s) = true).
  { apply map_has_get. unfold active_job in Hjob.
    destruct (map_get userId (activeJobs s)); [by eexists|done]. }
  by rewrite Hhas, Hjob.
Qed.

(** A successful [startDiscovery] leaves the requester with an active job
    that has the returned id and start time. *)
Lemma startDiscovery_active users cfg now newJobId userId options s s' d :
  startDiscovery users cfg now newJobId userId options s = (s', inr d) →
  userId ∈ users
  ∧ ∃ job, active_job s' userId = Some job
           ∧ job_id job = jobId d ∧ job_startedAt job = d_startedAt d.
Proof.
  unfold startDiscovery. intros H.
  destruct (bool_decide (userId ∈ users)) eqn:Hu; simpl in H; [|done].
  apply bool_decide_eq_true in Hu. split; [done|].
  destruct (map_has userId (activeJobs s)) eqn:Hhas.
  - destruct (active_job s userId) as [job|] eqn:Hjob; [|done].
    injection H as <- <-. by exists job.
  - destruct (maxActiveJobs cfg <=? Z.of_nat (length (activeJobs s)));
      [done|].
    injection H as <- <-. eexists. split.
    + unfold active_job, executeDiscovery_begin, update_job. simpl.
      rewrite map_get_set_eq. simpl.
      by rewrite lookup_alter_eq, lookup_insert_eq.
    + split; reflexivity.
Qed.

(** When a [startDiscovery] call for a requester has returned a
    descriptor, a further call for the same requester, made in the state
    the first one left, returns a descriptor with the same job id and
    leaves the service as it is: no second job is created.  The same holds
    in any later state in which the job with that id is still the job
    registered for the requester. *)
Theorem startDiscovery_idempotent (users : gset string)
    (cfg : ServiceConfig) (userId : string) (s s1 : Service)
    (now1 : Z) (id1 : string) (options1 : Options) (d1 : Descriptor) :
  startDiscovery users cfg now1 id1 userId options1 s = (s1, inr d1) →
  (∀ now2 id2 options2,
     ∃ d2,
       startDiscovery users cfg now2 id2 userId options2 s1 = (s1, inr d2)
       ∧ jobId d2 = jobId d1
       ∧ d_startedAt d2 = d_startedAt d1)
  ∧ (∀ s2 job2 now2 id2 options2,
       active_job s2 userId = Some job2 →
       job_id job2 = jobId d1 →
       ∃ d2,
         startDiscovery users cfg now2 id2 userId options2 s2 = (s2, inr d2)
         ∧ jobId d2 = jobId d1).
Proof.
  intros H1.
  apply startDiscovery_active in H1 as (Hu & job & Hjob & Hid & Hat).
  split.
  - intros now2 id2 options2.
    eexists. split; [by apply startDiscovery_existing|]. done.
  - intros s2 job2 now2 id2 options2 Hjob2 Hid2.
    eexists. split; [by apply startDiscovery_existing|]. done.
Qed.

(** [startDiscovery_idempotent] for a first call on the fresh service. *)
Lemma startDiscovery_twice :
  ∃ d2,
    startDiscovery sample_users default_service_config 2000 "job_x" "u0" ∅
      one_job = (one_job, inr d2)
    ∧ jobId d2 = "job_0"
    ∧ d_startedAt d2 = 1000.
Proof.
  apply (startDiscovery_idempotent sample_users default_service_config "u0"
           new_service one_job 1000 "job_0" ∅
           {| jobId := "job_0"; d_status := "in_progress";
              d_message := "Discovery started successfully";
              d_startedAt := 1000 |}).
  vm_compute. reflexivity.
Defined.

(** C7.  A requester with a job that is not in a terminal state is not
    always served that job.  The requester [u0] starts [job_0], cancels it
    and starts [job_1]; a further start is then served [job_1], as the
    claim has it.  But once the engine call of the cancelled [job_0]
    resolves, the [finally] block of its [executeDiscovery] deletes the
    registry entry of [u0], which by then holds [job_1]: [job_1] is still
    [in_progress], with its engine call pending, and yet the next
    [startDiscovery] of [u0] creates [job_2] and returns its id, so that
    two discoveries of the same requester run side by side. *)
Theorem superseded_start_spawns_duplicate :
  let users := sample_users in
  let cfg := default_service_config in
  let settled :=
    executeDiscovery_resolved 3000 0 (mkDiscoveryResults 2) superseded in
  let restarted := startDiscovery users cfg 4000 "job_2" "u0" ∅ settled in
  (∃ d, startDiscovery users cfg 2600 "job_x" "u0" ∅ superseded
        = (superseded, inr d)
        ∧ jobId d = "job_1")
  ∧ job_id <$> heap settled !! 1%nat = Some "job_1"
  ∧ job_userId <$> heap settled !! 1%nat = Some "u0"
  ∧ job_status <$> heap settled !! 1%nat = Some in_progress
  ∧ terminal in_progress = false
  ∧ running settled = [1%nat]
  ∧ (∃ d, restarted.2 = inr d
          ∧ jobId d = "job_2"
          ∧ d_message d = "Discovery started successfully")
  ∧ job_userId <$> heap restarted.1 !! 2%nat = Some "u0"
  ∧ job_status <$> heap restarted.1 !! 1%nat = Some in_progress
  ∧ job_status <$> heap restarted.1 !! 2%nat = Some in_progress
  ∧ running restarted.1 = [1%nat; 2%nat].
Proof.
  vm_compute. split; [eexists; split; reflexivity|].
  do 5 (split; [reflexivity|]).
  split; [eexists; repeat split; reflexivity|].
  repeat split; reflexivity.
Qed.

(** C8.  When the registry holds [maxActiveJobs] jobs or more, a
    [startDiscovery] call for a known requester without an entry in the
    registry throws the capacity error and leaves the service as it is. *)
Theorem startDiscovery_at_capacity (users : gset string)
    (cfg : ServiceConfig) (now : Z) (newJobId userId : string)
    (options : Options) (s : Service) :
  userId ∈ users →
  map_has userId (activeJobs s) = false →
  maxActiveJobs cfg ≤ Z.of_nat (length (activeJobs s)) →
  startDiscovery users cfg now newJobId userId options s
  = (s, inl CapacityExceeded).
Proof.
  intros Hu Hnone Hfull. unfold startDiscovery.
  rewrite bool_decide_eq_true_2 by done. simpl. rewrite Hnone.
  destruct (Z.leb_spec (maxActiveJobs cfg) (Z.of_nat (length (activeJobs s))));
    [done|lia].
Qed.

(** [startDiscovery_at_capacity] on the full registry: the eleventh
    requester is turned away. *)
Lemma eleventh_start_rejected :
  startDiscovery sample_users default_service_config 1010 "job_10" "u10" ∅
    full_service
  = (full_service, inl CapacityExceeded).
Proof.
  apply startDiscovery_at_capacity.
  - vm_compute. reflexivity.
  - vm_compute. reflexivity.
  - vm_compute. discriminate.
Defined.

(** C10.  A requester with an active job gets the descriptor of that job
    back even when the registry is full: the lookup of the existing job
    comes before the capacity check, which only guards new jobs. *)
Theorem existing_job_served_at_capacity (users : gset string)
    (cfg : ServiceConfig) (now : Z) (newJobId userId : string)
    (options : Options) (s : Service) (job : Job) :
  userId ∈ users →
  active_job s userId = Some job →
  maxActiveJobs cfg ≤ Z.of_nat (length (activeJobs s)) →
  ∃ d,
    startDiscovery users cfg now newJobId userId options s = (s, inr d)
    ∧ jobId d = job_id job
    ∧ startDiscovery users cfg now newJobId userId options s
      ≠ (s, inl CapacityExceeded).
Proof.
  intros Hu Hjob _.
  rewrite (startDiscovery_existing _ _ _ _ _ _ _ job Hu Hjob).
  eexists. split; [reflexivity|]. split; [reflexivity|]. discriminate.
Qed.

(** [existing_job_served_at_capacity] on the full registry: the first
    requester asks again and is given its job. *)
Lemma first_requester_served_when_full :
  ∃ d,
    startDiscovery sample_users default_service_config 1010 "job_10" "u0" ∅
      full_service = (full_service, inr d)
    ∧ jobId d = "job_0".
Proof.
  destruct (existing_job_served_at_capacity sample_users
              default_service_config 1010 "job_10" "u0" ∅ full_service
              {| job_id := "job_0"; job_userId := "u0";
                 job_status := in_progress; job_startedAt := 1000;
                 job_options := ∅;
                 job_progress := {| step := "discovering";
                                    percentage := 10 |};
                 job_completedAt := None; job_results := None;
                 job_error := None; job_cancelled := false |})
    as (d & Hd & Hid & _).
  - vm_compute. reflexivity.
  - vm_compute. reflexivity.
  - vm_compute. discriminate.
  - exists d. split; [exact Hd|exact Hid].
Defined.

(** C9.  A job is started, then cancelled, then the engine call its
    [executeDiscovery] is suspended on resolves.  After the cancellation
    the job object and the status [getJobStatus] reports are [cancelled];
    after the engine resolved both are [completed].  Likewise a job the
    reaper has put in the [timeout] state becomes [failed] when the engine
    call rejects afterwards.  So a terminal state is not final: nothing in
    [executeDiscovery] looks at the job's state or at its [cancelled]
    flag before overwriting it. *)
Theorem cancelled_job_becomes_completed :
  let users := sample_users in
  let cfg := default_service_config in
  let cancelled_service := run users cfg one_job [(2000, DoCancel "job_0")] in
  let resolved_service :=
    run users cfg cancelled_service
      [(3000, EngineResolved 0 (mkDiscoveryResults 2))] in
  let reaped_service := run users cfg one_job [(400000, DoCleanup)] in
  let rejected_service :=
    run users cfg reaped_service
      [(500000, EngineRejected 0 "User not found")] in
  getJobStatus "job_0" one_job = Some in_progress
  ∧ getJobStatus "job_0" cancelled_service = Some cancelled
  ∧ job_status <$> heap cancelled_service !! 0%nat = Some cancelled
  ∧ terminal cancelled = true
  ∧ getJobStatus "job_0" resolved_service = Some completed
  ∧ job_status <$> heap resolved_service !! 0%nat = Some completed
  ∧ getJobStatus "job_0" reaped_service = Some timeout
  ∧ terminal timeout = true
  ∧ getJobStatus "job_0" rejected_service = Some failed.
Proof. vm_compute. repeat split; reflexivity. Qed.

(* ================================================================== *)
(** * Further properties *)
(* ================================================================== *)

(** ** The shape of the chunks *)

Lemma ceil_div_step (x size : Z) :
  1 ≤ size → 1 ≤ x →
  (x + size - 1) / size = 1 + (Z.max (x - size) 0 + size - 1) / size.
Proof.
  intros Hs Hx. destruct (Z.le_gt_cases x size) as [Hle|Hgt].
  - rewrite Z.max_r by lia.
    rewrite (Z.div_small (0 + size - 1)) by lia.
    symmetry. apply (Z.div_unique_pos _ _ 1 (x - 1)); lia.
  - rewrite Z.max_l by lia.
    replace (x + size - 1) with ((x - size + size - 1) + 1 * size) by lia.
    rewrite Z.div_add by lia. lia.
Qed.

Lemma chunkArray_loop_shape {A} (array : list A) (chunkSize : Z) :
  1 ≤ chunkSize →
  ∀ fuel m chunks result,
    chunkArray_loop fuel array chunkSize (Z.of_nat m) chunks = Some result →
    ∃ new,
      result = (chunks ++ new)%list
      ∧ Z.of_nat (length new)
        = (Z.of_nat (length array - m) + chunkSize - 1) / chunkSize
      ∧ ∀ i c, new !! i = Some c → (S i < length new)%nat →
               Z.of_nat (length c) = chunkSize.
Proof.
  intros Hsize. induction fuel as [|fuel IH]; intros m chunks result Hrun;
    [done|].
  simpl in Hrun.
  destruct (Z.ltb_spec (Z.of_nat m) (Z.of_nat (length array))) as [Hlt|Hge].
  - rewrite slice_chunk in Hrun by lia.
    replace (Z.of_nat m + chunkSize)
      with (Z.of_nat (m + Z.to_nat chunkSize)) in Hrun by lia.
    apply IH in Hrun as (new & -> & Hcount & Hfull).
    exists (take (Z.to_nat chunkSize) (drop m array) :: new).
    split; [by rewrite <- app_assoc|]. split.
    + cbn [length]. rewrite Nat2Z.inj_succ, Hcount.
      rewrite (ceil_div_step (Z.of_nat (length array - m))) by lia.
      replace (Z.of_nat (length array - (m + Z.to_nat chunkSize)))
        with (Z.max (Z.of_nat (length array - m) - chunkSize) 0) by lia.
      lia.
    + intros [|i] c Hc Hi; simpl in Hc, Hi.
      * injection Hc as <-. rewrite length_take, length_drop.
        assert (1 ≤ Z.of_nat (length new)) as Hnew by lia.
        rewrite Hcount in Hnew.
        destruct (Z.le_gt_cases
                    (Z.of_nat (length array - (m + Z.to_nat chunkSize))) 0)
          as [Hzero|Hpos]; [|lia].
        rewrite Z.div_small in Hnew by lia. lia.
      * apply (Hfull i c Hc). lia.
  - injection Hrun as <-. exists []. rewrite app_nil_r. split; [done|].
    split; [|done]. simpl.
    replace (length array - m)%nat with 0%nat by lia.
    symmetry. apply Z.div_small. lia.
Qed.

(** With a positive chunk size, [chunkArray] returns: it cuts an array of
    n elements into ceil(n / chunkSize) consecutive chunks, every chunk
    before the last has exactly [chunkSize] elements, and there is no chunk
    at all exactly when the array is empty. *)
Theorem chunkArray_shape {A} (array : list A) (chunkSize : Z) :
  1 ≤ chunkSize →
  ∃ chunks,
    chunkArray array chunkSize = Some chunks
    ∧ concat chunks = array
    ∧ Z.of_nat (length chunks)
      = (Z.of_nat (length array) + chunkSize - 1) / chunkSize
    ∧ (∀ i c, chunks !! i = Some c → (S i < length chunks)%nat →
              Z.of_nat (length c) = chunkSize)
    ∧ (chunks = [] ↔ array = []).
Proof.
  intros Hsize.
  destruct (chunkArray_spec array chunkSize Hsize)
    as (chunks & Hrun & Hcat & _).
  exists chunks. split; [done|]. split; [done|]. clear Hcat.
  unfold chunkArray in Hrun.
  apply (chunkArray_loop_shape array chunkSize Hsize _ 0%nat) in Hrun
    as (new & -> & Hcount & Hfull).
  rewrite Nat.sub_0_r in Hcount. simpl.
  split; [done|]. split; [done|].
  split.
  - intros ->. simpl in Hcount. destruct array as [|x array]; [done|].
    exfalso. simpl length in Hcount.
    assert (1 ≤ (Z.of_nat (S (length array)) + chunkSize - 1) / chunkSize).
    { apply Z.div_le_lower_bound; lia. }
    lia.
  - intros ->. simpl in Hcount. rewrite Z.div_small in Hcount by lia.
    by destruct new.
Qed.

(** [chunkArray_shape] on seven elements in chunks of three: three chunks,
    the first two full. *)
Lemma chunkArray_shape_sample :
  ∃ chunks,
    chunkArray ["a"; "b"; "c"; "d"; "e"; "f"; "g"] 3 = Some chunks
    ∧ Z.of_nat (length chunks) = 3
    ∧ length <$> chunks = [3; 3; 1]%nat.
Proof.
  destruct (chunkArray_shape ["a"; "b"; "c"; "d"; "e"; "f"; "g"] 3)
    as (chunks & Hrun & _ & Hcount & _); [lia|].
  exists chunks. split; [exact Hrun|]. split; [exact Hcount|].
  vm_compute in Hrun. injection Hrun as <-. reflexivity.
Defined.

(** [chunkArray_diverges] on a single task and the chunk size 0. *)
Lemma chunkArray_diverges_sample :
  chunkArray_loop 1000 ["a"] 0 0 [] = None.
Proof.
  apply (chunkArray_diverges ["a"] 0); [lia|done|lia].
Defined.

(** ** More on deduplication *)

Lemma elem_of_dedupe (l : list string) x : x ∈ dedupe l ↔ x ∈ l.
Proof.
  induction l as [|y l IH]; simpl; [done|].
  rewrite !elem_of_cons, list_elem_of_filter, IH.
  destruct (decide (x = y)); tauto.
Qed.

Lemma NoDup_dedupe (l : list string) : NoDup (dedupe l).
Proof.
  induction l as [|y l IH]; simpl; [constructor|].
  constructor.
  - rewrite list_elem_of_filter. tauto.
  - by apply NoDup_filter.
Qed.

Lemma dedupe_snoc (l : list string) x :
  dedupe (l ++ [x])
  = if decide (x ∈ l) then dedupe l else (dedupe l ++ [x])%list.
Proof.
  induction l as [|y l IH].
  - rewrite decide_False by (apply not_elem_of_nil). done.
  - cbn [app dedupe]. rewrite IH. destruct (decide (x = y)) as [->|Hne].
    + rewrite (decide_True (P := y ∈ y :: l)) by left.
      destruct (decide (y ∈ l)); [done|].
      rewrite filter_app, filter_cons, decide_False by tauto.
      by rewrite filter_nil, app_nil_r.
    + destruct (decide (x ∈ l)) as [Hin|Hnin].
      * rewrite (decide_True (P := x ∈ y :: l)) by (by right). done.
      * rewrite (decide_False (P := x ∈ y :: l))
          by (rewrite elem_of_cons; tauto).
        rewrite filter_app, filter_cons, decide_True by done.
        by rewrite filter_nil.
Qed.

(** The three cases of one iteration of [deduplicateAccounts], told from
    the accounts kept so far. *)
Lemma dedup_step_cases done st a :
  dedup_inv done st →
  (account_key a ∉ account_key <$> st.2 →
     (dedup_step st a).2 = (st.2 ++ [a])%list)
  ∧ (∀ i e, st.2 !! i = Some e → account_key e = account_key a →
       (dedup_step st a).2
       = if confidence e <? confidence a then <[i:=a]> st.2 else st.2).
Proof.
  destruct st as [seen ded]. intros (Hseen & Hnd & _ & _). simpl in *.
  unfold dedup_step. split.
  - intros Hnew. rewrite decide_False by (by rewrite Hseen). done.
  - intros i e Hi He.
    rewrite decide_True
      by (apply Hseen; rewrite <- He; apply list_elem_of_fmap_2;
          by apply list_elem_of_lookup_2 with i).
    destruct (findIndex _ ded) as [j|] eqn:Hfi.
    + apply findIndex_Some in Hfi as (e' & Hj & He').
      apply String.eqb_eq in He'.
      assert (j = i) as -> by (eapply key_lookup_inj; eauto; congruence).
      rewrite Hi. by destruct (confidence e <? confidence a).
    + apply (findIndex_None _ _ e) in Hfi;
        [|by apply list_elem_of_lookup_2 with i].
      simpl in Hfi. rewrite He, String.eqb_refl in Hfi. done.
Qed.

Lemma deduplicateAccounts_snoc l a :
  deduplicateAccounts (l ++ [a])
  = (dedup_step (foldl dedup_step (∅, []) l) a).2.
Proof. unfold deduplicateAccounts. by rewrite foldl_snoc. Qed.

(** The pass, one account at a time.  An account with a new key is
    appended.  An account whose key is already kept replaces the kept
    account, at its position, when it is strictly more confident; otherwise
    it is dropped, so of equally confident duplicates the earliest stays. *)
Theorem dedup_incremental (l : list Account) (a : Account) :
  (account_key a ∉ account_key <$> l →
     deduplicateAccounts (l ++ [a])
     = (deduplicateAccounts l ++ [a])%list)
  ∧ (∀ i e, deduplicateAccounts l !! i = Some e →
       account_key e = account_key a →
       (confidence e < confidence a →
          deduplicateAccounts (l ++ [a]) = <[i:=a]> (deduplicateAccounts l))
       ∧ (confidence a ≤ confidence e →
            deduplicateAccounts (l ++ [a]) = deduplicateAccounts l)).
Proof.
  pose proof (dedup_inv_fold l) as Hinv.
  destruct (dedup_step_cases l _ a Hinv) as [Hnew Hold].
  rewrite deduplicateAccounts_snoc. split.
  - intros Hk. apply Hnew. intros Hin. apply Hk.
    apply list_elem_of_fmap in Hin as (e & He & Hin).
    destruct Hinv as (_ & _ & Hbest & _).
    apply Hbest in Hin as [Hin _]. rewrite He.
    by apply list_elem_of_fmap_2.
  - intros i e Hi He. rewrite (Hold i e Hi He). split; intros Hc.
    + by destruct (Z.ltb_spec (confidence e) (confidence a)); [|lia].
    + by destruct (Z.ltb_spec (confidence e) (confidence a)); [lia|].
Qed.

(** The retained accounts stand in the order in which their keys first
    occur in the input. *)
Theorem dedup_keeps_first_occurrence_order (l : list Account) :
  account_key <$> deduplicateAccounts l = dedupe (account_key <$> l).
Proof.
  induction l as [|a l IH] using rev_ind; [done|].
  pose proof (dedup_inv_fold l) as Hinv.
  destruct (dedup_step_cases l _ a Hinv) as [Hnew Hold].
  destruct Hinv as (_ & _ & Hbest & Hcov).
  rewrite deduplicateAccounts_snoc, fmap_app.
  change (account_key <$> [a]) with [account_key a]. rewrite dedupe_snoc.
  fold (deduplicateAccounts l) in *.
  destruct (decide (account_key a ∈ account_key <$> l)) as [Hin|Hnin].
  - apply list_elem_of_fmap in Hin as (b & Hb & Hin).
    apply Hcov in Hin. rewrite <- Hb in Hin.
    apply list_elem_of_fmap in Hin as (e & He & Hin).
    apply list_elem_of_lookup in Hin as [i Hi].
    rewrite (Hold i e Hi (eq_sym He)).
    destruct (confidence e <? confidence a); [|done].
    rewrite list_fmap_insert, <- IH. apply list_insert_id.
    rewrite list_lookup_fmap, Hi. simpl. by rewrite He.
  - rewrite Hnew, fmap_app, IH; [done|].
    intros Hin. apply Hnin.
    apply list_elem_of_fmap in Hin as (e & He & Hin).
    apply Hbest in Hin as [Hin _]. rewrite He.
    by apply list_elem_of_fmap_2.
Qed.

Lemma dedup_distinct_keys (l : list Account) :
  NoDup (account_key <$> l) → deduplicateAccounts l = l.
Proof.
  induction l as [|a l IH] using rev_ind; intros Hnd; [done|].
  rewrite fmap_app in Hnd. apply NoDup_app in Hnd as (Hl & Hfresh & _).
  destruct (dedup_step_cases l _ a (dedup_inv_fold l)) as [Hnew _].
  rewrite deduplicateAccounts_snoc. fold (deduplicateAccounts l) in *.
  rewrite Hnew, IH; [done|done|].
  rewrite IH by done. intros Hin. apply (Hfresh _ Hin). simpl. left.
Qed.

Lemma dedup_length (l : list Account) :
  (length (deduplicateAccounts l) ≤ length l)%nat.
Proof.
  induction l as [|a l IH] using rev_ind; [done|].
  destruct (dedup_step_cases l _ a (dedup_inv_fold l)) as [Hnew Hold].
  rewrite deduplicateAccounts_snoc, length_app. simpl.
  fold (deduplicateAccounts l) in *.
  destruct (decide (account_key a ∈ account_key <$> deduplicateAccounts l))
    as [Hin|Hnin].
  - apply list_elem_of_fmap in Hin as (e & He & Hin).
    apply list_elem_of_lookup in Hin as [i Hi].
    rewrite (Hold i e Hi (eq_sym He)).
    destruct (confidence e <? confidence a); rewrite ?length_insert; lia.
  - rewrite (Hnew Hnin), length_app. simpl. lia.
Qed.

(** A second pass changes nothing, and a pass never lengthens the list. *)
Theorem dedup_idempotent (l : list Account) :
  deduplicateAccounts (deduplicateAccounts l) = deduplicateAccounts l
  ∧ (length (deduplicateAccounts l) ≤ length l)%nat.
Proof.
  split; [|apply dedup_length].
  apply dedup_distinct_keys.
  by destruct (dedup_inv_fold l) as (_ & Hnd & _).
Qed.

(** ** The counters of the analysis *)

Lemma account_of_hit d : is_Some (account_of d) ↔ is_hit d = true.
Proof.
  unfold account_of, is_hit.
  destruct (d_success d); simpl; [|split; [by intros [? ?]|done]].
  destruct (d_result d) as [r|]; simpl; [|split; [by intros [? ?]|done]].
  destruct (res_exists r) as [[]|]; simpl; split; try done;
    by intros [? ?].
Qed.

Lemma length_omap_account_of (l : list Discovery) :
  length (omap account_of l) = length (filter (λ d, is_hit d = true) l).
Proof.
  induction l as [|d l IH]; [done|].
  rewrite filter_cons. csimpl.
  pose proof (account_of_hit d) as Hd.
  destruct (account_of d) as [a|]; simpl.
  - rewrite decide_True by (apply Hd; by eexists). simpl. by rewrite IH.
  - rewrite decide_False; [done|].
    intros Hhit. apply Hd in Hhit. by destruct Hhit.
Qed.

Lemma analyze_fold_found l p :
  ∀ st,
    tally found (platformStats (foldl analyze_step st l)) p
    = (tally found (platformStats st) p
       + length (filter (λ d, d_platform d = p ∧ is_hit d = true) l))%nat.
Proof.
  induction l as [|d l IH]; intros st; simpl; [by rewrite Nat.add_0_r|].
  rewrite IH, filter_cons. unfold tally at 1.
  rewrite analyze_step_platformStats.
  destruct (decide (d_platform d = p)) as [Hp|Hp]; simpl.
  - rewrite <- Hp. unfold bumped, is_hit.
    destruct (d_success d); simpl.
    + destruct (result_exists (d_result d)); simpl.
      * rewrite decide_True by done. simpl.
        rewrite (tally_default found) by done. lia.
      * rewrite decide_False by (intros [_ ?]; done).
        rewrite (tally_default found) by done. lia.
    + rewrite decide_False by (intros [_ ?]; done).
      rewrite (tally_default found) by done. lia.
  - rewrite decide_False by (intros [? _]; done). done.
Qed.

Lemma hits_and_failures (l : list Discovery) p :
  (length (filter (λ d, d_platform d = p ∧ is_hit d = true) l)
   + length (filter (λ d, d_platform d = p ∧ d_success d = false) l)
   ≤ length (filter (λ d, d_platform d = p) l))%nat.
Proof.
  induction l as [|d l IH]; [done|].
  rewrite !filter_cons.
  repeat case_decide; simpl; try lia; exfalso;
    unfold is_hit in *; destruct (d_success d); simpl in *;
    intuition congruence.
Qed.

(** The account counts and the [found] counters.  The number of accounts
    before deduplication is the number of successful records with a
    positive result, deduplication does not raise it, the [found] counter
    of a platform is the number of such records of the platform, and for
    every platform found + errors is at most searched. *)
Theorem analysis_counters (results : list Discovery) :
  originalAccountCount (analyzeDiscoveryResults results)
    = length (filter (λ d, is_hit d = true) results)
  ∧ (deduplicatedAccountCount (analyzeDiscoveryResults results)
     ≤ originalAccountCount (analyzeDiscoveryResults results))%nat
  ∧ ∀ p,
      tally found (ar_platformStats (analyzeDiscoveryResults results)) p
      = length (filter (λ d, d_platform d = p ∧ is_hit d = true) results)
      ∧ (tally found (ar_platformStats (analyzeDiscoveryResults results)) p
         + tally errors (ar_platformStats (analyzeDiscoveryResults results)) p
         ≤ tally searched
             (ar_platformStats (analyzeDiscoveryResults results)) p)%nat.
Proof.
  unfold analyzeDiscoveryResults. simpl. split; [|split].
  - rewrite analyze_fold_accounts. simpl. apply length_omap_account_of.
  - apply dedup_length.
  - intros p.
    destruct (analyze_fold_tally results p (mkAnalysis [] ∅ ∅)) as [He Hs].
    rewrite analyze_fold_found, He, Hs. unfold tally. simpl.
    rewrite lookup_empty. simpl. split; [done|]. apply hits_and_failures.
Qed.

Lemma ensure_identifier_lookup k m q :
  ensure_identifier k m !! q
  = if decide (k = q) then Some (default (mkIdentifierStat 0 0) (m !! k))
    else m !! q.
Proof.
  unfold ensure_identifier. destruct (m !! k) as [s|] eqn:Hk.
  - case_decide; [by subst|done].
  - rewrite lookup_insert. by case_decide.
Qed.

Lemma analyze_step_identifierStats st d q :
  identifierStats (analyze_step st d) !! q
  = if d_success d && bool_decide (identifierKey d = q)
    then Some
           (let s := default (mkIdentifierStat 0 0)
                       (identifierStats st !! identifierKey d) in
            {| i_searched := S (i_searched s);
               i_found := if result_exists (d_result d)
                          then S (i_found s) else i_found s |})
    else identifierStats st !! q.
Proof.
  unfold analyze_step, identifierKey.
  destruct (d_success d); simpl; [|done].
  destruct (d_result d) as [r|]; simpl;
    [destruct (res_exists r) as [[]|]; simpl|];
    rewrite !lookup_alter, ?ensure_identifier_lookup;
    case_bool_decide; repeat case_decide; simplify_eq; done.
Qed.

Lemma analyze_fold_identifierStats l k :
  ∀ st,
    i_tally i_searched (identifierStats (foldl analyze_step st l)) k
    = (i_tally i_searched (identifierStats st) k
       + length (filter (λ d, d_success d = true ∧ identifierKey d = k) l))%nat
    ∧ i_tally i_found (identifierStats (foldl analyze_step st l)) k
      = (i_tally i_found (identifierStats st) k
         + length (filter (λ d, is_hit d = true ∧ identifierKey d = k) l))%nat.
Proof.
  induction l as [|d l IH]; intros st; simpl; [by rewrite !Nat.add_0_r|].
  destruct (IH (analyze_step st d)) as [Hs Hf]. rewrite Hs, Hf.
  rewrite !filter_cons. unfold i_tally.
  rewrite analyze_step_identifierStats. unfold is_hit.
  destruct (d_success d); simpl;
    [case_bool_decide as Hk; simpl;
       [rewrite <- Hk; destruct (result_exists (d_result d)); simpl|]|];
    destruct (identifierStats st !! _); simpl;
    repeat case_decide; simpl; try (split; lia);
    exfalso; intuition congruence.
Qed.

(** The per-identifier counters leave failed tasks out: under the key
    [type:source], [searched] is the number of successful records with
    that key and [found] the number of those with a positive result. *)
Theorem identifier_stats_count_successes (results : list Discovery)
    (k : string) :
  i_tally i_searched (ar_identifierStats (analyzeDiscoveryResults results)) k
    = length (filter (λ d, d_success d = true ∧ identifierKey d = k) results)
  ∧ i_tally i_found (ar_identifierStats (analyzeDiscoveryResults results)) k
    = length (filter (λ d, is_hit d = true ∧ identifierKey d = k) results).
Proof.
  unfold analyzeDiscoveryResults. simpl.
  destruct (analyze_fold_identifierStats results k (mkAnalysis [] ∅ ∅))
    as [Hs Hf].
  rewrite Hs, Hf. unfold i_tally. simpl. by rewrite lookup_empty.
Qed.

(** ** More on the run *)

(** A run that returns has started every task exactly once, in task order,
    the calls numbered from 0, and returns the records of the tasks whose
    promise is fulfilled, in task order, in whatever order the promises
    settled.  With n tasks and a positive limit m it has slept
    ceil(n / m) - 1 times (not at all when there is no task), each time
    for [delayBetweenRequests]. *)
Theorem run_results_in_task_order (w : World) (cfg : Config)
    (identifiers : list Identifier) (platforms : list Platform)
    (options : Options) (init : Loop) (trace : list Event)
    (results : list Discovery) :
  executeDiscoveryAcrossPlatforms cfg identifiers platforms options
  = Some init →
  loop_run w cfg init trace (Returned results) →
  let tasks := create_tasks identifiers platforms options in
  results = omap record_of (promises w cfg tasks)
  ∧ omap started_call trace
    = (λ s, (s_call s, s_task s)) <$> new_slots 0 tasks
  ∧ (∃ delays,
       filter (λ e, is_delay e = true) trace
       = replicate delays (EvDelay (delayBetweenRequests cfg))
       ∧ (1 ≤ maxConcurrentDiscoveries cfg →
          Z.of_nat delays
          = Z.max 0
              ((Z.of_nat (length tasks) + maxConcurrentDiscoveries cfg - 1)
               / maxConcurrentDiscoveries cfg - 1))).
Proof.
  intros Hinit Hrun. cbv zeta. unfold executeDiscoveryAcrossPlatforms in Hinit.
  destruct (chunkArray (create_tasks identifiers platforms options)
              (maxConcurrentDiscoveries cfg)) as [taskChunks|] eqn:Hchunks;
    [|done].
  injection Hinit as <-.
  pose proof (chunkArray_concat _ _ _ Hchunks) as Hcat.
  destruct (run_returned _ _ _ _ _ Hrun) as [Hshape Hres].
  destruct (chunked_trace_starts _ _ _ _ _ Hshape) as (_ & Hstarts & Hdelays).
  rewrite Hcat in Hres, Hstarts.
  split; [done|]. split; [done|].
  exists (length taskChunks - 1)%nat. split; [done|].
  intros Hsize. unfold chunkArray in Hchunks.
  apply (chunkArray_loop_shape _ _ Hsize _ 0%nat) in Hchunks
    as (new & -> & Hcount & _).
  rewrite Nat.sub_0_r in Hcount. simpl. lia.
Qed.

(** [run_results_in_task_order] in the sample world with two tasks per
    chunk: four calls, four records, one delay. *)
Lemma run_results_sample :
  ∃ init trace results,
    loop_run sample_world two_per_chunk init trace (Returned results)
    ∧ fst <$> omap started_call trace = [0; 1; 2; 3]%nat
    ∧ d_success <$> results = [true; false; false; true]
    ∧ filter (λ e, is_delay e = true) trace = [EvDelay 2000].
Proof.
  destruct (loop_entered two_per_chunk three_identifiers
              [mkPlatform "twitter"; mkPlatform "linkedin"] ∅)
    as (taskChunks & Hinit & _); [simpl; lia|].
  destruct (can_finish sample_world two_per_chunk (AtChunk [] 0 taskChunks))
    as (trace & results & Hrun).
  destruct (run_results_in_task_order sample_world two_per_chunk
              three_identifiers
              [mkPlatform "twitter"; mkPlatform "linkedin"] ∅
              _ trace results Hinit Hrun)
    as (Hres & Hstarts & delays & Hdelays & Hcount).
  exists (AtChunk [] 0 taskChunks), trace, results.
  split; [exact Hrun|]. split; [|split].
  - rewrite Hstarts. vm_compute. reflexivity.
  - rewrite Hres. vm_compute. reflexivity.
  - rewrite Hdelays.
    assert (delays = 1%nat) as ->; [|reflexivity].
    assert (Hz : Z.of_nat delays = 1); [|lia].
    rewrite Hcount by (simpl; lia). vm_compute. reflexivity.
Defined.



(** ** The identifier preparer *)

Lemma string_length_append (a b : string) :
  String.length (a +:+ b) = (String.length a + String.length b)%nat.
Proof. induction a as [|c a IH]; simpl; [done|]. by rewrite IH. Qed.

Lemma first_char_length (s : string) : (1 ≤ String.length (first_char s))%nat.
Proof. destruct s; simpl; lia. Qed.

Lemma email_variations_long (email v : string) :
  v ∈ generateEmailVariations email → (3 ≤ String.length v)%nat.
Proof.
  unfold generateEmailVariations. intros Hv.
  by apply list_elem_of_filter in Hv as [Hv _].
Qed.

(** The variations of an e-mail address are distinct and have at least
    three characters; the variation [localPart.official] is always among
    them, so the list is never empty; and the local part itself comes
    first when it has three characters or more. *)
Theorem email_variations (email : string) :
  NoDup (generateEmailVariations email)
  ∧ (∀ v, v ∈ generateEmailVariations email → (3 ≤ String.length v)%nat)
  ∧ (hd "" (split_on "@"%char email) +:+ ".official")
    ∈ generateEmailVariations email
  ∧ ((3 ≤ String.length (hd "" (split_on "@"%char email)))%nat →
     generateEmailVariations email !! 0%nat
     = Some (hd "" (split_on "@"%char email))).
Proof.
  unfold generateEmailVariations.
  set (localPart := hd "" (split_on "@"%char email)).
  set (variations := (_ ++ [localPart +:+ "01"; _; _; _; _])%list).
  split; [|split; [|split]].
  - apply NoDup_filter, NoDup_dedupe.
  - intros v Hv. by apply list_elem_of_filter in Hv as [Hv _].
  - apply list_elem_of_filter. split.
    + rewrite string_length_append. simpl. lia.
    + apply elem_of_dedupe. subst variations.
      apply elem_of_app. right. set_solver.
  - intros Hlen.
    assert (Hhead : ∃ rest, variations = localPart :: rest).
    { subst variations. repeat case_match; simpl; eauto. }
    destruct Hhead as [rest ->]. cbn [dedupe].
    rewrite filter_cons, decide_True by done. done.
Qed.

Lemma push_long_names (names : list string) :
  ∀ acc v,
    v ∈ foldl (λ variations name,
                 if (4 <=? String.length name)%nat
                 then (variations ++ [name])%list else variations)
              acc names →
    v ∈ acc ∨ (4 ≤ String.length v)%nat.
Proof.
  induction names as [|n names IH]; intros acc v Hv; cbn [foldl] in Hv;
    [by left|].
  apply IH in Hv as [Hv|Hv]; [|by right].
  revert Hv.
  destruct (Nat.leb_spec 4 (String.length n)) as [Hn|Hn]; intros Hv;
    [|by left].
  apply elem_of_app in Hv as [Hv|Hv]; [by left|].
  apply list_elem_of_singleton in Hv as ->. by right.
Qed.

Lemma name_variations_long (fullName v : string) :
  v ∈ generateNameVariations fullName → (3 ≤ String.length v)%nat.
Proof.
  unfold generateNameVariations.
  set (names := filter _ (split_on " "%char (toLowerCase fullName))).
  assert (Hnames : ∀ n, n ∈ names → (1 < String.length n)%nat).
  { intros n Hn. by apply list_elem_of_filter in Hn as [Hn _]. }
  clearbody names. intros Hv.
  destruct names as [|first names]; [by apply elem_of_nil in Hv|].
  apply elem_of_dedupe, push_long_names in Hv as [Hv|Hv]; [|lia].
  destruct names as [|last names]; [by apply elem_of_nil in Hv|].
  assert (1 < String.length first)%nat by (apply Hnames; left).
  assert (1 < String.length last)%nat by (apply Hnames; right; left).
  pose proof (first_char_length first). pose proof (first_char_length last).
  repeat (apply elem_of_cons in Hv as [->|Hv]);
    try (by apply elem_of_nil in Hv);
    rewrite ?string_length_append; simpl; lia.
Qed.

(** The variations of a full name are distinct and have at least three
    characters; there is none when no word of the name has two characters
    or more. *)
Theorem name_variations (fullName : string) :
  NoDup (generateNameVariations fullName)
  ∧ (∀ v, v ∈ generateNameVariations fullName → (3 ≤ String.length v)%nat)
  ∧ (filter (λ n, (1 < String.length n)%nat)
       (split_on " "%char (toLowerCase fullName)) = [] →
     generateNameVariations fullName = []).
Proof.
  split; [|split].
  - unfold generateNameVariations.
    destruct (filter _ _); [constructor|apply NoDup_dedupe].
  - apply name_variations_long.
  - unfold generateNameVariations. by intros ->.
Qed.

Lemma elem_of_push_all type weight source values identifiers i :
  i ∈ push_all type weight source values identifiers ↔
  i ∈ identifiers
  ∨ ∃ value, value ∈ default [] values
             ∧ i = mkIdentifier type value weight source.
Proof.
  unfold push_all. rewrite elem_of_app.
  change (map ?f ?l) with (f <$> l). rewrite list_elem_of_fmap.
  split; (intros [?|(value & ? & ?)]; [by left|right; by exists value]).
Qed.

Lemma push_all_sorted type weight source values identifiers :
  by_descending_weight identifiers →
  (∀ i, i ∈ identifiers → weight ≤ id_confidence i) →
  by_descending_weight (push_all type weight source values identifiers)
  ∧ ∀ i, i ∈ push_all type weight source values identifiers →
         weight ≤ id_confidence i.
Proof.
  intros Hsorted Hlow. split.
  - unfold push_all, by_descending_weight. apply StronglySorted_app.
    split; [|split; [done|]].
    + intros a b Ha Hb. change (map ?f ?l) with (f <$> l) in Hb.
      apply list_elem_of_fmap in Hb as (value & -> & _). simpl.
      by apply Hlow.
    + induction (default [] values) as [|v l IH]; simpl; constructor; [done|].
      apply Forall_forall. intros b Hb.
      change (map ?f ?l) with (f <$> l) in Hb.
      apply list_elem_of_fmap in Hb as (value & -> & _). simpl. lia.
  - intros i Hi. apply elem_of_push_all in Hi as [Hi|(value & _ & ->)].
    + by apply Hlow.
    + simpl. lia.
Qed.

(** Every prepared identifier is of one of the six kinds (type, weight,
    source) of the preparer, its weight lies between 50 and 100, and a
    generated user name (a variation of the e-mail address or of the full
    name) has at least three characters. *)
Theorem prepared_identifier_kinds (user : User) (i : Identifier) :
  i ∈ prepareDiscoveryIdentifiers user →
  (id_type i, id_confidence i, id_source i) ∈ identifier_kinds
  ∧ 50 ≤ id_confidence i ≤ 100
  ∧ (id_source i = "email_variation" ∨ id_source i = "name_variation" →
     (3 ≤ String.length (id_value i))%nat).
Proof.
  unfold prepareDiscoveryIdentifiers. intros Hi.
  repeat (apply elem_of_push_all in Hi as [Hi|(value & Hvalue & ->)]);
    [by apply elem_of_nil in Hi| | | | | |]; simpl;
    (split; [unfold identifier_kinds; set_solver|]); (split; [lia|]);
    intros [?|?]; try done.
  - destruct (truthy (u_email user)) as [e|]; simpl in Hvalue;
      [|by apply elem_of_nil in Hvalue].
    by apply email_variations_long in Hvalue.
  - destruct (truthy (fullName user)) as [n|]; simpl in Hvalue;
      [|by apply elem_of_nil in Hvalue].
    by apply name_variations_long in Hvalue.
Qed.

(** [prepared_identifier_kinds] for a variation of the sample user's
    address. *)
Lemma prepared_identifier_kinds_sample :
  ("username", 60, "email_variation") ∈ identifier_kinds
  ∧ 50 ≤ 60 ≤ 100
  ∧ ("email_variation" = "email_variation"
     ∨ "email_variation" = "name_variation" →
     (3 ≤ String.length "johndoe99")%nat).
Proof.
  apply (prepared_identifier_kinds sample_user
           (mkIdentifier "username" "johndoe99" 60 "email_variation")).
  apply (list_elem_of_lookup_2 _ 6%nat). vm_compute. reflexivity.
Defined.

(** The prepared identifiers stand in descending order of weight.  With an
    e-mail address the list starts with it, as the primary e-mail of weight
    100; without one there is neither a primary e-mail nor an e-mail
    variation. *)
Theorem prepared_identifiers_order (user : User) :
  by_descending_weight (prepareDiscoveryIdentifiers user)
  ∧ (∀ e, truthy (u_email user) = Some e →
       prepareDiscoveryIdentifiers user !! 0%nat
       = Some (mkIdentifier "email" e 100 "primary_email"))
  ∧ (truthy (u_email user) = None →
     ∀ i, i ∈ prepareDiscoveryIdentifiers user →
          id_source i ≠ "primary_email" ∧ id_source i ≠ "email_variation").
Proof.
  split; [|split].
  - unfold prepareDiscoveryIdentifiers.
    assert (H0 : by_descending_weight []
                 ∧ ∀ i : Identifier, i ∈ [] → 100 ≤ id_confidence i).
    { split; [constructor|]. intros i Hi. by apply elem_of_nil in Hi. }
    destruct H0 as [Hs Hl].
    repeat match goal with
    | |- by_descending_weight (push_all ?t ?w ?s ?v ?ids) =>
        let Hs' := fresh "Hs" in
        let Hl' := fresh "Hl" in
        assert (by_descending_weight ids ∧ ∀ i, i ∈ ids → w ≤ id_confidence i)
          as [Hs' Hl'];
        [|exact (proj1 (push_all_sorted t w s v ids Hs' Hl'))]
    | |- by_descending_weight (push_all ?t ?w ?s ?v ?ids)
         ∧ (∀ i, i ∈ push_all ?t ?w ?s ?v ?ids → ?w' ≤ id_confidence i) =>
        let Hs' := fresh "Hs" in
        let Hl' := fresh "Hl" in
        assert (by_descending_weight ids ∧ ∀ i, i ∈ ids → w ≤ id_confidence i)
          as [Hs' Hl'];
        [|destruct (push_all_sorted t w s v ids Hs' Hl') as [? Hlow];
          split; [done|]; intros i Hi; specialize (Hlow i Hi); lia]
    end.
    by split.
  - intros e He. unfold prepareDiscoveryIdentifiers. rewrite He.
    unfold push_all. simpl. done.
  - intros He i Hi. unfold prepareDiscoveryIdentifiers in Hi.
    rewrite He in Hi.
    repeat (apply elem_of_push_all in Hi as [Hi|(value & Hvalue & ->)]);
      try (by apply elem_of_nil in Hi);
      try (by apply elem_of_nil in Hvalue); simpl; done.
Qed.

(** ** The platform selector *)

Lemma insert_by_priority_elem p l q :
  q ∈ insert_by_priority p l ↔ q = p ∨ q ∈ l.
Proof.
  induction l as [|x l IH]; simpl.
  - rewrite list_elem_of_singleton, elem_of_nil. tauto.
  - destruct (pc_priority x <=? pc_priority p).
    + rewrite !elem_of_cons. tauto.
    + rewrite !elem_of_cons, IH. tauto.
Qed.

Lemma sort_by_priority_elem l q : q ∈ sort_by_priority l ↔ q ∈ l.
Proof.
  induction l as [|x l IH]; simpl; [done|].
  rewrite insert_by_priority_elem, elem_of_cons, IH. tauto.
Qed.

Lemma insert_by_priority_sorted p l :
  by_descending_priority l → by_descending_priority (insert_by_priority p l).
Proof.
  unfold by_descending_priority.
  induction l as [|x l IH]; intros Hl; simpl.
  - repeat constructor.
  - apply StronglySorted_cons in Hl as [Hx Hl]. rewrite Forall_forall in Hx.
    destruct (Z.leb_spec (pc_priority x) (pc_priority p)) as [Hle|Hgt].
    + apply StronglySorted_cons. split.
      * apply Forall_forall. intros q Hq.
        apply elem_of_cons in Hq as [->|Hq]; [done|].
        specialize (Hx q Hq). simpl in Hx. lia.
      * apply StronglySorted_cons. by rewrite Forall_forall.
    + apply StronglySorted_cons. split; [|by apply IH].
      apply Forall_forall. intros q Hq.
      apply insert_by_priority_elem in Hq as [->|Hq].
      * lia.
      * by apply Hx.
Qed.

Lemma sort_by_priority_sorted l :
  by_descending_priority (sort_by_priority l).
Proof.
  induction l as [|x l IH]; simpl; [constructor|].
  by apply insert_by_priority_sorted.
Qed.

Lemma insert_by_priority_stable p l k :
  filter (λ q, pc_priority q = k) (insert_by_priority p l)
  = filter (λ q, pc_priority q = k) (p :: l).
Proof.
  induction l as [|x l IH]; simpl; [done|].
  destruct (Z.leb_spec (pc_priority x) (pc_priority p)) as [Hle|Hgt]; [done|].
  rewrite (filter_cons _ x), IH, !filter_cons.
  repeat case_decide; try done; lia.
Qed.

Lemma sort_by_priority_stable l k :
  filter (λ q, pc_priority q = k) (sort_by_priority l)
  = filter (λ q, pc_priority q = k) l.
Proof.
  induction l as [|x l IH]; simpl; [done|].
  by rewrite insert_by_priority_stable, !filter_cons, IH.
Qed.

Lemma filter_sorted (P : PlatformConfig → Prop) `{∀ p, Decision (P p)} l :
  by_descending_priority l → by_descending_priority (filter P l).
Proof.
  unfold by_descending_priority.
  induction l as [|x l IH]; intros Hl; [constructor|].
  apply StronglySorted_cons in Hl as [Hx Hl]. rewrite Forall_forall in Hx.
  rewrite filter_cons.
  destruct (decide (P x)); [|by apply IH].
  apply StronglySorted_cons. split; [|by apply IH].
  apply Forall_forall. intros q Hq.
  apply list_elem_of_filter in Hq as [_ Hq]. by apply Hx.
Qed.

(** What [getSupportedPlatforms] returns without a limit: the registered
    platforms of the category (when one is given and not empty) and of the
    popularity (when one is given, so [popular: false] selects the
    platforms that are not popular), in descending order of priority,
    platforms of one priority in registration order.  A positive limit
    keeps that many platforms from the front, a negative one drops that
    many from the end, and the limit 0 is no limit. *)
Theorem supported_platforms (platformConfigs : list PlatformConfig)
    (category : option string) (popular : option bool) :
  by_descending_priority
    (getSupportedPlatforms platformConfigs category popular None)
  ∧ (∀ p, p ∈ getSupportedPlatforms platformConfigs category popular None ↔
       p ∈ platformConfigs
       ∧ (∀ c, truthy category = Some c → pc_category p = c)
       ∧ (∀ b, popular = Some b → pc_popular p = b))
  ∧ (∀ k, filter (λ q, pc_priority q = k)
            (getSupportedPlatforms platformConfigs category popular None)
          `sublist_of` platformConfigs)
  ∧ (∀ n, getSupportedPlatforms platformConfigs category popular (Some n)
          = if n =? 0
            then getSupportedPlatforms platformConfigs category popular None
            else take (Z.to_nat
                         (if n <? 0
                          then Z.of_nat
                                 (length (getSupportedPlatforms
                                            platformConfigs category
                                            popular None)) + n
                          else n))
                   (getSupportedPlatforms platformConfigs category popular
                      None)).
Proof.
  unfold getSupportedPlatforms. split; [|split; [|split]].
  - apply sort_by_priority_sorted.
  - intros p. rewrite sort_by_priority_elem.
    destruct (truthy category) as [c|], popular as [b|];
      rewrite ?list_elem_of_filter;
      (split; [intros; intuition congruence|]);
      intros (Hp & Hc & Hb); intuition eauto.
  - intros k. rewrite sort_by_priority_stable.
    etrans; [apply sublist_filter|].
    destruct (truthy category) as [c|], popular as [b|];
      repeat (etrans; [apply sublist_filter|]); done.
  - intros n. set (all := sort_by_priority _).
    destruct (Z.eqb_spec n 0) as [->|Hn]; [done|].
    unfold slice, rel_index.
    destruct (Z.ltb_spec 0 0) as [?|_]; [lia|].
    rewrite (Z.min_l 0) by lia. change (Z.to_nat 0) with 0%nat. rewrite drop_0.
    destruct (Z.ltb_spec n 0) as [Hneg|Hpos].
    + f_equal. lia.
    + destruct (Z.le_gt_cases n (Z.of_nat (length all))).
      * rewrite Z.min_l by lia. f_equal. lia.
      * rewrite Z.min_r by lia. rewrite !take_ge; [done|lia|lia].
Qed.

Lemma supported_unlimited platformConfigs category popular :
  by_descending_priority
    (getSupportedPlatforms platformConfigs category popular None)
  ∧ ∀ p, p ∈ getSupportedPlatforms platformConfigs category popular None ↔
         p ∈ platformConfigs
         ∧ (∀ c, truthy category = Some c → pc_category p = c)
         ∧ (∀ b, popular = Some b → pc_popular p = b).
Proof.
  unfold getSupportedPlatforms. split; [apply sort_by_priority_sorted|].
  intros p. rewrite sort_by_priority_elem.
  destruct (truthy category) as [c|], popular as [b|];
    rewrite ?list_elem_of_filter;
    (split; [intros; intuition congruence|]);
    intros (Hp & Hc & Hb); intuition eauto.
Qed.

(** The platforms selected for a discovery are exactly the registered
    platforms that meet every option given: the category, the popularity,
    membership in a non-empty include list and absence from a non-empty
    exclude list (an empty list is no restriction).  They come in
    descending order of priority. *)
Theorem selected_platforms (platformConfigs : list PlatformConfig)
    (options : SelectOptions) :
  by_descending_priority
    (selectPlatformsForDiscovery platformConfigs options)
  ∧ ∀ p, p ∈ selectPlatformsForDiscovery platformConfigs options ↔
         p ∈ platformConfigs ∧ selected_by options p.
Proof.
  unfold selectPlatformsForDiscovery, selected_by.
  destruct (supported_unlimited platformConfigs (category options)
              (popularOnly options)) as [Hsorted Helem].
  split.
  - destruct (nonempty_list (includePlatforms options)),
      (nonempty_list (excludePlatforms options));
      repeat apply filter_sorted; done.
  - intros p.
    destruct (nonempty_list (includePlatforms options)) as [inc|],
      (nonempty_list (excludePlatforms options)) as [exc|];
      rewrite ?list_elem_of_filter, Helem;
      (split; [intros; intuition congruence|]);
      intros (Hp & Hc & Hb & Hi & He); intuition eauto.
Qed.

(** ** Insertion-ordered maps *)

Lemma map_get_Some_elem {V} k (v : V) m : map_get k m = Some v → (k, v) ∈ m.
Proof.
  induction m as [|[k' v'] m IH]; simpl; [done|].
  destruct (String.eqb_spec k' k) as [->|Hne].
  - intros [= ->]. left.
  - intros Hget. right. by apply IH.
Qed.

Lemma map_get_None {V} k (m : list (string * V)) :
  map_get k m = None ↔ k ∉ m.*1.
Proof.
  induction m as [|[k' v'] m IH]; simpl.
  - split; [intros _; apply not_elem_of_nil|done].
  - rewrite not_elem_of_cons. destruct (String.eqb_spec k' k) as [->|Hne].
    + split; [done|]. by intros [? _].
    + rewrite IH. split; [by intros ?; split|by intros [_ ?]].
Qed.

Lemma map_get_elem {V} k (v : V) m :
  NoDup m.*1 → (k, v) ∈ m → map_get k m = Some v.
Proof.
  induction m as [|[k' v'] m IH]; intros Hnd Hin; [by apply elem_of_nil in Hin|].
  simpl in *. apply NoDup_cons in Hnd as [Hk' Hnd].
  apply elem_of_cons in Hin as [[= <- <-]|Hin].
  - by rewrite String.eqb_refl.
  - destruct (String.eqb_spec k' k) as [->|Hne]; [|by apply IH].
    exfalso. apply Hk'. by apply (list_elem_of_fmap_2 fst) in Hin.
Qed.

Lemma map_set_new {V} k (v : V) m :
  map_get k m = None → map_set k v m = (m ++ [(k, v)])%list.
Proof.
  induction m as [|[k' v'] m IH]; simpl; [done|].
  destruct (String.eqb k' k); [done|]. intros Hget. by rewrite IH.
Qed.

Lemma map_set_elem {V} k (v : V) m e :
  e ∈ map_set k v m → e = (k, v) ∨ e ∈ m.
Proof.
  induction m as [|[k' v'] m IH]; simpl.
  - intros He. apply list_elem_of_singleton in He. by left.
  - destruct (String.eqb_spec k' k) as [->|Hne]; intros He;
      apply elem_of_cons in He as [->|He].
    + by left.
    + right. by right.
    + right. left.
    + apply IH in He as [->|He]; [by left|right; by right].
Qed.

Lemma map_set_length {V} k (v : V) m :
  (length (map_set k v m) ≤ S (length m))%nat
  ∧ (is_Some (map_get k m) → length (map_set k v m) = length m).
Proof.
  induction m as [|[k' v'] m [IH1 IH2]]; simpl.
  - split; [lia|]. by intros [? ?].
  - destruct (String.eqb k' k); simpl; [split; [lia|done]|].
    split; [lia|]. intros Hs. by rewrite IH2.
Qed.

Lemma map_delete_sublist {V} k (m : list (string * V)) :
  map_delete k m `sublist_of` m.
Proof.
  induction m as [|[k' v'] m IH]; simpl; [done|].
  destruct (String.eqb k' k).
  - by apply sublist_cons.
  - by apply sublist_skip.
Qed.

Lemma map_delete_filter {V} k (m : list (string * V)) :
  NoDup m.*1 → map_delete k m = filter (λ e, e.1 ≠ k) m.
Proof.
  induction m as [|[k' v'] m IH]; intros Hnd; [done|].
  simpl in *. apply NoDup_cons in Hnd as [Hk' Hnd]. rewrite filter_cons. simpl.
  destruct (String.eqb_spec k' k) as [->|Hne].
  - rewrite decide_False by (intros ?; done).
    clear IH. induction m as [|[k'' v''] m IH]; [done|].
    simpl in *. apply not_elem_of_cons in Hk' as [Hne Hk'].
    apply NoDup_cons in Hnd as [_ Hnd]. rewrite filter_cons. simpl.
    rewrite decide_True by done. f_equal. by apply IH.
  - rewrite decide_True by done. f_equal. by apply IH.
Qed.

Lemma map_delete_length {V} k (m : list (string * V)) :
  (length (map_delete k m) ≤ length m)%nat
  ∧ (is_Some (map_get k m) → S (length (map_delete k m)) = length m).
Proof.
  induction m as [|[k' v'] m [IH1 IH2]]; simpl.
  - split; [lia|]. by intros [? ?].
  - destruct (String.eqb k' k); simpl; [split; [lia|done]|].
    split; [lia|]. intros Hs. by rewrite IH2.
Qed.

Lemma map_get_delete_ne {V} k k' (m : list (string * V)) :
  k ≠ k' → map_get k (map_delete k' m) = map_get k m.
Proof.
  intros Hne. induction m as [|[k'' v''] m IH]; simpl; [done|].
  destruct (String.eqb_spec k'' k') as [->|Hne'].
  - by destruct (String.eqb_spec k' k) as [->|_].
  - simpl. by rewrite IH.
Qed.

Lemma map_get_delete_eq {V} k (m : list (string * V)) :
  NoDup m.*1 → map_get k (map_delete k m) = None.
Proof.
  intros Hnd. apply map_get_None. rewrite map_delete_filter by done.
  intros Hin. apply list_elem_of_fmap in Hin as ([k' v'] & -> & Hin).
  by apply list_elem_of_filter in Hin as [Hne _].
Qed.

Lemma NoDup_snd_inj {V} (m : list (string * V)) k k' v :
  NoDup m.*2 → (k, v) ∈ m → (k', v) ∈ m → k = k'.
Proof.
  intros Hnd Hk Hk'.
  apply list_elem_of_lookup in Hk as [i Hi].
  apply list_elem_of_lookup in Hk' as [j Hj].
  assert (i = j) as ->.
  { apply (NoDup_lookup _ i j v Hnd); by rewrite list_lookup_fmap, ?Hi, ?Hj. }
  congruence.
Qed.

Lemma NoDup_fst_inj {V} (m : list (string * V)) k v v' :
  NoDup m.*1 → (k, v) ∈ m → (k, v') ∈ m → v = v'.
Proof.
  intros Hnd Hv Hv'.
  apply (map_get_elem _ _ _ Hnd) in Hv, Hv'. congruence.
Qed.

Lemma filter_ext_elem {A} (P Q : A → Prop) `{∀ x, Decision (P x)}
    `{∀ x, Decision (Q x)} (l : list A) :
  (∀ x, x ∈ l → P x ↔ Q x) → filter P l = filter Q l.
Proof.
  induction l as [|x l IH]; intros Hpq; [done|].
  rewrite !filter_cons.
  assert (Hx : P x ↔ Q x) by (apply Hpq; left).
  rewrite IH by (intros y Hy; apply Hpq; by right).
  destruct (decide (P x)), (decide (Q x)); tauto.
Qed.

(** ** The invariant of the service *)

Lemma moveJobToHistory_fields now job s :
  heap (moveJobToHistory now job s) = heap s
  ∧ next_ref (moveJobToHistory now job s) = next_ref s
  ∧ activeJobs (moveJobToHistory now job s) = activeJobs s
  ∧ running (moveJobToHistory now job s) = running s.
Proof. done. Qed.

(** The history after [moveJobToHistory]: three cases. *)
Lemma moveJobToHistory_cases now job s :
  let entry := (job_id job, mkHistoryEntry job now) in
  (is_Some (map_get (job_id job) (jobHistory s)) →
   (length (jobHistory s) ≤ 100)%nat →
   jobHistory (moveJobToHistory now job s)
   = map_set (job_id job) (mkHistoryEntry job now) (jobHistory s))
  ∧ (map_get (job_id job) (jobHistory s) = None →
     (length (jobHistory s) < 100)%nat →
     jobHistory (moveJobToHistory now job s)
     = (jobHistory s ++ [entry])%list)
  ∧ (map_get (job_id job) (jobHistory s) = None →
     (100 ≤ length (jobHistory s))%nat →
     jobHistory (moveJobToHistory now job s)
     = (tail (jobHistory s) ++ [entry])%list).
Proof.
  unfold moveJobToHistory. simpl. split; [|split].
  - intros Hsome Hlen.
    rewrite (proj2 (map_set_length _ _ _) Hsome).
    by destruct (Nat.ltb_spec 100 (length (jobHistory s))); [lia|].
  - intros Hnone Hlen. rewrite map_set_new, length_app by done. simpl.
    by destruct (Nat.ltb_spec 100 (length (jobHistory s) + 1)); [lia|].
  - intros Hnone Hlen. rewrite map_set_new, length_app by done. simpl.
    destruct (Nat.ltb_spec 100 (length (jobHistory s) + 1)); [|lia].
    destruct (jobHistory s) as [|[k0 e0] h]; [simpl in Hlen; lia|].
    simpl. by rewrite String.eqb_refl.
Qed.

Lemma moveJobToHistory_history now job s :
  (length (jobHistory s) ≤ 100)%nat →
  (length (jobHistory (moveJobToHistory now job s)) ≤ 100)%nat
  ∧ (∀ e, e ∈ jobHistory (moveJobToHistory now job s) →
       e = (job_id job, mkHistoryEntry job now) ∨ e ∈ jobHistory s)
  ∧ map_get (job_id job) (jobHistory (moveJobToHistory now job s))
    = Some (mkHistoryEntry job now).
Proof.
  intros Hlen.
  destruct (moveJobToHistory_cases now job s) as (Hold & Hnew & Hevict).
  simpl in *.
  destruct (map_get (job_id job) (jobHistory s)) as [e0|] eqn:Hget.
  - rewrite Hold by (done || by eexists). split; [|split].
    + rewrite (proj2 (map_set_length _ _ _)); [done|].
      rewrite Hget. by eexists.
    + apply map_set_elem.
    + apply map_get_set_eq.
  - destruct (decide (length (jobHistory s) < 100)%nat) as [Hlt|Hge].
    + rewrite Hnew by done. split; [|split].
      * rewrite length_app. simpl. lia.
      * intros e He. apply elem_of_app in He as [He|He]; [by right|].
        left. by apply list_elem_of_singleton in He.
      * rewrite <- (map_set_new _ _ _ Hget). apply map_get_set_eq.
    + rewrite Hevict by (done || lia).
      destruct (jobHistory s) as [|[k0 e0] h] eqn:Hh; [simpl in *; lia|].
      simpl in *. split; [|split].
      * rewrite length_app. simpl. lia.
      * intros e He. apply elem_of_app in He as [He|He].
        -- right. by right.
        -- left. by apply list_elem_of_singleton in He.
      * destruct (String.eqb k0 (job_id job)); [done|].
        rewrite <- (map_set_new _ _ _ Hget). apply map_get_set_eq.
Qed.

Lemma map_set_keys {V} k (v : V) m :
  is_Some (map_get k m) → (map_set k v m).*1 = m.*1.
Proof.
  induction m as [|[k' v'] m IH]; cbn [map_set map_get];
    [by intros [? ?]|].
  destruct (String.eqb k' k); [done|]. intros Hs.
  rewrite !fmap_cons. f_equal. by apply IH.
Qed.

(** The history keeps one entry per job id. *)
Lemma moveJobToHistory_keys now job s :
  NoDup (jobHistory s).*1 → (length (jobHistory s) ≤ 100)%nat →
  NoDup (jobHistory (moveJobToHistory now job s)).*1.
Proof.
  intros Hnd Hlen.
  destruct (moveJobToHistory_cases now job s) as (Hold & Hnew & Hevict).
  cbv zeta in Hold, Hnew, Hevict.
  destruct (map_get (job_id job) (jobHistory s)) as [e0|] eqn:Hget.
  - rewrite Hold by (done || by eexists).
    rewrite map_set_keys; [done|]. rewrite Hget. by eexists.
  - pose proof (proj1 (map_get_None _ _) Hget) as Hnk.
    assert (Hsnoc : ∀ h : list (string * HistoryEntry),
              NoDup h.*1 → job_id job ∉ h.*1 →
              NoDup (h ++ [(job_id job, mkHistoryEntry job now)])%list.*1).
    { intros h Hh Hk. rewrite fmap_app. apply NoDup_app. split; [done|].
      split; [|apply NoDup_singleton].
      intros k Hin Hin'. apply list_elem_of_singleton in Hin'. simpl in Hin'.
      by subst. }
    destruct (decide (length (jobHistory s) < 100)%nat) as [Hlt|Hge].
    + rewrite Hnew by done. by apply Hsnoc.
    + rewrite Hevict by (done || lia).
      destruct (jobHistory s) as [|[k0 e0] h]; [by apply Hsnoc|].
      rewrite fmap_cons in Hnd, Hnk. apply NoDup_cons in Hnd as [_ Hnd].
      apply not_elem_of_cons in Hnk as [_ Hnk]. by apply Hsnoc.
Qed.

Lemma find_active_Some h id m u ref :
  find_active h id m = Some (u, ref) →
  (u, ref) ∈ m ∧ ∃ job, h !! ref = Some job ∧ job_id job = id.
Proof.
  induction m as [|[u' ref'] m IH]; simpl; [done|].
  destruct (h !! ref') as [job|] eqn:Hjob.
  - destruct (String.eqb_spec (job_id job) id) as [Hid|Hne].
    + intros [= -> ->]. split; [left|]. by exists job.
    + intros Hf. apply IH in Hf as [Hin Hjob']. split; [by right|done].
  - intros Hf. apply IH in Hf as [Hin Hjob']. split; [by right|done].
Qed.

Lemma find_active_None h id m :
  (∀ u ref job, (u, ref) ∈ m → h !! ref = Some job → job_id job ≠ id) →
  find_active h id m = None.
Proof.
  induction m as [|[u' ref'] m IH]; intros Hno; simpl; [done|].
  rewrite IH by (intros u ref job Hin; apply (Hno u); by right).
  destruct (h !! ref') as [job|] eqn:Hjob; [|done].
  destruct (String.eqb_spec (job_id job) id) as [Hid|Hne]; [|done].
  exfalso. by apply (Hno u' ref' job); [left| |].
Qed.

(** A job object is put in a terminal state, copied to the history, and
    the registry entry of its requester is deleted. *)
Lemma wf_retire cfg s s' ref u job' now :
  wf cfg s →
  (∀ u', (u', ref) ∈ activeJobs s → u' = u) →
  terminal (job_status job') = true →
  is_Some (heap s !! ref) →
  (∀ r, r ≠ ref → heap s' !! r = heap s !! r) →
  (∀ r, is_Some (heap s' !! r) → is_Some (heap s !! r)) →
  next_ref s' = next_ref s →
  activeJobs s' = map_delete u (activeJobs s) →
  jobHistory s' = jobHistory (moveJobToHistory now job' s) →
  (∀ r, r ∈ running s → r ≠ ref → r ∈ running s') →
  wf cfg s'.
Proof.
  intros [Hu Hr Ha Hh Hc Hs Hhist Hkeys] Hown Hterm Href Hother Hdom Hnext Hact
    Hhis Hrun.
  pose proof (map_delete_sublist u (activeJobs s)) as Hsub.
  destruct (moveJobToHistory_history now job' s Hs) as (Hlen & Helem & _).
  split.
  - rewrite Hact. apply (sublist_NoDup _ (activeJobs s).*1); [done|].
    by apply fmap_sublist.
  - rewrite Hact. apply (sublist_NoDup _ (activeJobs s).*2); [done|].
    by apply fmap_sublist.
  - intros u' ref' Hin. rewrite Hact, map_delete_filter in Hin by done.
    apply list_elem_of_filter in Hin as [Hne Hin]. simpl in Hne.
    destruct (Ha u' ref' Hin) as (job & Hjob & Huser & Hst & Hrunning).
    assert (ref' ≠ ref) by (intros ->; by apply Hne, Hown).
    exists job. rewrite Hother by done. repeat split; try done.
    by apply Hrun.
  - intros r Hr'. rewrite Hnext. by apply Hh, Hdom.
  - rewrite Hact. pose proof (proj1 (map_delete_length u (activeJobs s))). lia.
  - by rewrite Hhis.
  - intros k e Hin. rewrite Hhis in Hin.
    apply Helem in Hin as [[= -> ->]|Hin]; [done|by apply Hhist].
  - rewrite Hhis. by apply moveJobToHistory_keys.
Qed.

Lemma wf_new cfg : wf cfg new_service.
Proof.
  split; simpl; try (by constructor); try lia.
  - intros u ref Hin. by apply elem_of_nil in Hin.
  - intros ref [? Hs]. by rewrite lookup_empty in Hs.
  - intros k e Hin. by apply elem_of_nil in Hin.
Qed.

Lemma wf_startDiscovery users cfg now newJobId userId options s :
  wf cfg s → wf cfg (startDiscovery users cfg now newJobId userId options s).1.
Proof.
  intros Hwf. unfold startDiscovery.
  destruct (bool_decide (userId ∈ users)); simpl; [|done].
  destruct (map_has userId (activeJobs s)) eqn:Hhas.
  { by destruct (active_job s userId). }
  destruct (Z.leb_spec (maxActiveJobs cfg) (Z.of_nat (length (activeJobs s))))
    as [|Hroom]; [done|].
  destruct Hwf as [Hu Hr Ha Hh Hc Hs Hhist Hkeys]. simpl.
  assert (Hnone : map_get userId (activeJobs s) = None).
  { unfold map_has in Hhas. by destruct (map_get userId (activeJobs s)). }
  assert (Hfresh : ∀ u ref, (u, ref) ∈ activeJobs s → ref ≠ next_ref s).
  { intros u ref Hin ->. destruct (Ha _ _ Hin) as (job & Hjob & _).
    assert (next_ref s < next_ref s)%nat; [|lia].
    apply Hh. by eexists. }
  split; simpl; rewrite ?map_set_new by done.
  - rewrite fmap_app. apply NoDup_app. split; [done|].
    split; [|apply NoDup_singleton].
    intros k Hk Hk'. apply list_elem_of_singleton in Hk' as ->.
    by apply map_get_None in Hnone.
  - rewrite fmap_app. apply NoDup_app. split; [done|].
    split; [|apply NoDup_singleton].
    intros r Hin Hr'. apply list_elem_of_singleton in Hr'. simpl in Hr'.
    apply list_elem_of_fmap in Hin as ([u r'] & Heq & Hin). simpl in Heq.
    subst. by apply (Hfresh u (next_ref s)).
  - intros u ref Hin. apply elem_of_app in Hin as [Hin|Hin].
    + destruct (Ha _ _ Hin) as (job & Hjob & Huser & Hst & Hrun).
      exists job. rewrite lookup_alter_ne, lookup_insert_ne
        by (apply not_eq_sym; by apply (Hfresh u)).
      repeat split; try done. apply elem_of_app. by left.
    + apply list_elem_of_singleton in Hin as [= -> ->].
      eexists. rewrite lookup_alter_eq, lookup_insert_eq. simpl.
      repeat split. apply elem_of_app. right. by apply list_elem_of_singleton.
  - intros ref Hsome. apply lookup_alter_is_Some in Hsome.
    destruct (decide (ref = next_ref s)) as [->|Hne]; [lia|].
    rewrite lookup_insert_ne in Hsome by done. apply Hh in Hsome. lia.
  - rewrite length_app. simpl. lia.
  - done.
  - done.
  - done.
Qed.

Lemma wf_cancelJob cfg now id s : wf cfg s → wf cfg (cancelJob now id s).1.
Proof.
  intros Hwf. unfold cancelJob.
  destruct (find_active (heap s) id (activeJobs s)) as [[u ref]|] eqn:Hfind;
    [|done].
  apply find_active_Some in Hfind as (Hin & job & Hjob & Hid).
  unfold update_job at 1. simpl. rewrite lookup_alter_eq, Hjob. simpl.
  eapply (wf_retire cfg s _ ref u); eauto.
  - intros u' Hin'. by apply (NoDup_snd_inj (activeJobs s) u' u ref);
      [apply Hwf| |].
  - done.
  - intros r Hne. simpl. by rewrite lookup_alter_ne.
  - intros r Hsome. simpl in Hsome. by apply lookup_alter_is_Some in Hsome.
Qed.

Lemma wf_cleanup_entry cfg now s u ref :
  wf cfg s → (u, ref) ∈ activeJobs s →
  wf cfg (cleanup_entry cfg now s (u, ref)).
Proof.
  intros Hwf Hin. unfold cleanup_entry.
  destruct (heap s !! ref) as [job|] eqn:Hjob; [|done].
  destruct (jobTimeoutMs cfg <? now - job_startedAt job); [|done].
  unfold update_job at 1. simpl. rewrite lookup_alter_eq, Hjob. simpl.
  eapply (wf_retire cfg s _ ref u); eauto.
  - intros u' Hin'. by apply (NoDup_snd_inj (activeJobs s) u' u ref);
      [apply Hwf| |].
  - done.
  - intros r Hne. simpl. by rewrite lookup_alter_ne.
  - intros r Hsome. simpl in Hsome. by apply lookup_alter_is_Some in Hsome.
Qed.

Lemma cleanup_entry_active cfg now s u ref :
  activeJobs (cleanup_entry cfg now s (u, ref)) = activeJobs s
  ∨ activeJobs (cleanup_entry cfg now s (u, ref))
    = map_delete u (activeJobs s).
Proof.
  unfold cleanup_entry.
  destruct (heap s !! ref) as [job|] eqn:Hjob; [|by left].
  destruct (jobTimeoutMs cfg <? now - job_startedAt job); [|by left].
  unfold update_job at 1. simpl. rewrite lookup_alter_eq, Hjob. by right.
Qed.

Lemma wf_cleanup_fold cfg now (l : list (string * nat)) :
  ∀ s, wf cfg s → NoDup l.*1 → (∀ e, e ∈ l → e ∈ activeJobs s) →
       wf cfg (foldl (cleanup_entry cfg now) s l).
Proof.
  induction l as [|[u ref] l IH]; intros s Hwf Hnd Hsub; cbn [foldl];
    [done|].
  simpl in Hnd. apply NoDup_cons in Hnd as [Hu Hnd].
  apply IH; [apply wf_cleanup_entry; [done|apply Hsub; left]|done|].
  intros [u' ref'] Hin.
  assert (u' ≠ u).
  { intros ->. apply Hu. by apply (list_elem_of_fmap_2 fst) in Hin. }
  destruct (cleanup_entry_active cfg now s u ref) as [->| ->].
  - apply Hsub. by right.
  - rewrite map_delete_filter by apply Hwf.
    apply list_elem_of_filter. split; [done|]. apply Hsub. by right.
Qed.

Lemma wf_cleanupStaleJobs cfg now s :
  wf cfg s → wf cfg (cleanupStaleJobs cfg now s).
Proof.
  intros Hwf. apply wf_cleanup_fold; [done|apply Hwf|done].
Qed.

(** The rest of [executeDiscovery] once the engine call has settled: the
    job object gets its final state, is copied to the history, and the
    registry entry of its requester is deleted. *)
Lemma wf_settle cfg now ref (f : Job → Job) s :
  wf cfg s →
  (∀ job, job_userId (f job) = job_userId job
          ∧ terminal (job_status (f job)) = true) →
  wf cfg (executeDiscovery_finally now ref (update_job ref f s)).
Proof.
  intros Hwf Hf. unfold executeDiscovery_finally, update_job. simpl.
  rewrite lookup_alter_eq.
  destruct (heap s !! ref) as [job|] eqn:Hjob; simpl.
  - destruct (Hf job) as [Huser Hterm].
    eapply (wf_retire cfg s _ ref (job_userId (f job))); eauto.
    + intros u' Hin. destruct (wf_active _ _ Hwf _ _ Hin)
        as (job' & Hjob' & Hu' & _).
      rewrite Huser. congruence.
    + intros r Hne. simpl. by rewrite lookup_alter_ne.
    + intros r Hsome. simpl in Hsome. by apply lookup_alter_is_Some in Hsome.
    + intros r Hr Hne. simpl. by apply list_elem_of_filter.
  - destruct Hwf as [Hu Hr Ha Hh Hc Hs Hhist Hkeys]. split; simpl; try done.
    + intros u r Hin. destruct (Ha _ _ Hin) as (job & Hj & Huser & Hst & Hrun).
      assert (r ≠ ref) by congruence.
      exists job. rewrite lookup_alter_ne by done.
      repeat split; try done. by apply list_elem_of_filter.
    + intros r Hsome. apply lookup_alter_is_Some in Hsome. by apply Hh.
Qed.

Lemma wf_step users cfg s ev :
  wf cfg s → wf cfg (service_step users cfg s ev).
Proof.
  intros Hwf. destruct ev as [now [newJobId userId options|id| |ref results
                                   |ref message]]; simpl.
  - by apply wf_startDiscovery.
  - by apply wf_cancelJob.
  - by apply wf_cleanupStaleJobs.
  - unfold executeDiscovery_resolved. case_bool_decide; [|done].
    by apply wf_settle.
  - unfold executeDiscovery_rejected. case_bool_decide; [|done].
    by apply wf_settle.
Qed.

Lemma wf_run users cfg evs : ∀ s, wf cfg s → wf cfg (run users cfg s evs).
Proof.
  induction evs as [|ev evs IH]; intros s Hwf; simpl; [done|].
  by apply IH, wf_step.
Qed.

Lemma reachable_wf users cfg s : reachable users cfg s → wf cfg s.
Proof. intros [evs ->]. apply wf_run, wf_new. Qed.

(** ** What holds in every state of the service *)

Lemma active_job_elem s u job :
  active_job s u = Some job →
  ∃ ref, (u, ref) ∈ activeJobs s ∧ heap s !! ref = Some job.
Proof.
  unfold active_job. intros Hjob.
  destruct (map_get u (activeJobs s)) as [ref|] eqn:Hget; [|done].
  exists ref. split; [by apply map_get_Some_elem|done].
Qed.

(** However the service got into its state, a requester has at most one
    entry in the registry, and the job registered for a requester is a job
    of that requester in the state [in_progress]. *)
Theorem one_active_job_per_requester (users : gset string)
    (cfg : ServiceConfig) (s : Service) :
  reachable users cfg s →
  NoDup (activeJobs s).*1
  ∧ (∀ u, map_has u (activeJobs s) = true → is_Some (active_job s u))
  ∧ (∀ u job, active_job s u = Some job →
       job_userId job = u ∧ job_status job = in_progress).
Proof.
  intros Hwf%reachable_wf. split; [apply Hwf|]. split.
  - intros u Hhas. unfold map_has in Hhas. unfold active_job.
    destruct (map_get u (activeJobs s)) as [ref|] eqn:Hget; [|done].
    apply map_get_Some_elem in Hget.
    destruct (wf_active _ _ Hwf _ _ Hget) as (job & Hjob & _).
    simpl. rewrite Hjob. by eexists.
  - intros u job (ref & Hin & Hjob)%active_job_elem.
    destruct (wf_active _ _ Hwf _ _ Hin) as (job' & Hjob' & Hu & Hst & _).
    by assert (job' = job) as <- by congruence.
Qed.

(** [one_active_job_per_requester] on the full registry. *)
Lemma one_active_job_per_requester_sample :
  NoDup (activeJobs full_service).*1
  ∧ (∀ u, map_has u (activeJobs full_service) = true →
          is_Some (active_job full_service u))
  ∧ (∀ u job, active_job full_service u = Some job →
       job_userId job = u ∧ job_status job = in_progress).
Proof.
  apply (one_active_job_per_requester sample_users default_service_config).
  by exists ten_starts.
Defined.

(** However the service got into its state, the registry never holds more
    than [maxActiveJobs] jobs (none at all when that number is not
    positive). *)
Theorem active_jobs_bounded (users : gset string) (cfg : ServiceConfig)
    (s : Service) :
  reachable users cfg s →
  Z.of_nat (length (activeJobs s)) ≤ Z.max 0 (maxActiveJobs cfg).
Proof. intros Hwf%reachable_wf. apply Hwf. Qed.

(** [active_jobs_bounded] after an eleventh start on the full registry. *)
Lemma active_jobs_bounded_sample :
  Z.of_nat
    (length (activeJobs
               (run sample_users default_service_config full_service
                  [(1010, DoStart "job_10" "u10" ∅)])))
  ≤ Z.max 0 (maxActiveJobs default_service_config).
Proof.
  apply (active_jobs_bounded sample_users).
  by exists (ten_starts ++ [(1010, DoStart "job_10" "u10" ∅)])%list.
Defined.

(** However the service got into its state, the history holds at most 100
    entries, and the entry stored under a job id is a copy of a job with
    that id in a terminal state. *)
Theorem history_bounded_and_terminal (users : gset string)
    (cfg : ServiceConfig) (s : Service) :
  reachable users cfg s →
  (length (jobHistory s) ≤ 100)%nat
  ∧ ∀ id e, map_get id (jobHistory s) = Some e →
            job_id (h_job e) = id ∧ terminal (job_status (h_job e)) = true.
Proof.
  intros Hwf%reachable_wf. split; [apply Hwf|].
  intros id e Hget%map_get_Some_elem. by apply Hwf.
Qed.

(** [history_bounded_and_terminal] after a job was cancelled. *)
Lemma history_bounded_and_terminal_sample :
  (length (jobHistory cancelled_once) ≤ 100)%nat
  ∧ ∀ id e,
      map_get id (jobHistory cancelled_once) = Some e →
      job_id (h_job e) = id ∧ terminal (job_status (h_job e)) = true.
Proof.
  apply (history_bounded_and_terminal sample_users default_service_config).
  by exists [(1000, DoStart "job_0" "u0" ∅); (2000, DoCancel "job_0")].
Defined.

(** However the service got into its state, [getJobStatus] never reports
    the state [starting]: a job it finds is [in_progress] or in a terminal
    state. *)
Theorem status_never_starting (users : gset string) (cfg : ServiceConfig)
    (s : Service) (id : string) (st : JobStatus) :
  reachable users cfg s →
  getJobStatus id s = Some st →
  st = in_progress ∨ terminal st = true.
Proof.
  intros Hwf%reachable_wf. unfold getJobStatus.
  destruct (find_active (heap s) id (activeJobs s)) as [[u ref]|] eqn:Hfind.
  - apply find_active_Some in Hfind as (Hin & _).
    destruct (wf_active _ _ Hwf _ _ Hin) as (job & Hjob & _ & Hst & _).
    rewrite Hjob. simpl. intros [= <-]. by left.
  - destruct (map_get id (jobHistory s)) as [e|] eqn:Hget; [|done].
    simpl. intros [= <-]. right.
    apply map_get_Some_elem in Hget.
    by destruct (wf_history _ _ Hwf _ _ Hget).
Qed.

(** [status_never_starting] right after a start. *)
Lemma status_never_starting_sample :
  in_progress = in_progress ∨ terminal in_progress = true.
Proof.
  apply (status_never_starting sample_users default_service_config one_job
           "job_0").
  - by exists [(1000, DoStart "job_0" "u0" ∅)].
  - vm_compute. reflexivity.
Defined.

(** ** Starting and cancelling *)

Lemma map_get_snoc_ne {V} k k' (v : V) m :
  k ≠ k' → map_get k (m ++ [(k', v)]) = map_get k m.
Proof.
  intros Hne. induction m as [|[k'' v''] m IH]; simpl.
  - by destruct (String.eqb_spec k' k) as [->|_].
  - by rewrite IH.
Qed.

Lemma startDiscovery_fresh cfg users now newJobId userId options s :
  wf cfg s →
  userId ∈ users →
  map_has userId (activeJobs s) = false →
  Z.of_nat (length (activeJobs s)) < maxActiveJobs cfg →
  ∃ s',
    startDiscovery users cfg now newJobId userId options s
    = (s', inr {| jobId := newJobId; d_status := "in_progress";
                  d_message := "Discovery started successfully";
                  d_startedAt := now |})
    ∧ activeJobs s' = (activeJobs s ++ [(userId, next_ref s)])%list
    ∧ jobHistory s' = jobHistory s
    ∧ active_job s' userId
      = Some {| job_id := newJobId; job_userId := userId;
                job_status := in_progress; job_startedAt := now;
                job_options := options;
                job_progress := {| step := "discovering";
                                   percentage := 10 |};
                job_completedAt := None; job_results := None;
                job_error := None; job_cancelled := false |}
    ∧ ∀ u, u ≠ userId → active_job s' u = active_job s u.
Proof.
  intros Hwf Hu Hhas Hroom. unfold startDiscovery.
  rewrite bool_decide_eq_true_2 by done. simpl. rewrite Hhas.
  destruct (Z.leb_spec (maxActiveJobs cfg) (Z.of_nat (length (activeJobs s))))
    as [|_]; [lia|].
  assert (Hnone : map_get userId (activeJobs s) = None).
  { unfold map_has in Hhas. by destruct (map_get userId (activeJobs s)). }
  eexists. split; [reflexivity|]. simpl. rewrite map_set_new by done.
  split; [done|]. split; [done|]. split.
  - unfold active_job. simpl.
    rewrite <- (map_set_new _ _ _ Hnone), map_get_set_eq. simpl.
    by rewrite lookup_alter_eq, lookup_insert_eq.
  - intros u Hne. unfold active_job. simpl.
    rewrite map_get_snoc_ne by done.
    destruct (map_get u (activeJobs s)) as [ref|] eqn:Hget; [|done]. simpl.
    apply map_get_Some_elem in Hget.
    destruct (wf_active _ _ Hwf _ _ Hget) as (job & Hjob & _).
    assert (ref < next_ref s)%nat by (apply Hwf; by eexists).
    rewrite lookup_alter_ne, lookup_insert_ne by lia. done.
Qed.

(** In a state the service can be in, a known requester without a job,
    starting while there is room, gets a descriptor with the newly
    generated id and the current time.  The new job is registered last, is
    [in_progress] at once, carries the options given, and neither the jobs
    of the other requesters nor the history change. *)
Theorem fresh_start (users : gset string) (cfg : ServiceConfig) (now : Z)
    (newJobId userId : string) (options : Options) (s : Service) :
  reachable users cfg s →
  userId ∈ users →
  map_has userId (activeJobs s) = false →
  Z.of_nat (length (activeJobs s)) < maxActiveJobs cfg →
  ∃ s' d job,
    startDiscovery users cfg now newJobId userId options s = (s', inr d)
    ∧ jobId d = newJobId ∧ d_startedAt d = now
    ∧ activeJobs s' = (activeJobs s ++ [(userId, next_ref s)])%list
    ∧ jobHistory s' = jobHistory s
    ∧ active_job s' userId = Some job
    ∧ job_id job = newJobId ∧ job_userId job = userId
    ∧ job_status job = in_progress ∧ job_startedAt job = now
    ∧ job_options job = options
    ∧ ∀ u, u ≠ userId → active_job s' u = active_job s u.
Proof.
  intros Hwf%reachable_wf Hu Hhas Hroom.
  destruct (startDiscovery_fresh cfg users now newJobId userId options s
              Hwf Hu Hhas Hroom) as (s' & Hstart & Hact & Hhist & Hjob & Hrest).
  eexists s', _, _. split; [exact Hstart|]. simpl.
  repeat (split; [done|]). done.
Qed.

(** [fresh_start] for a second requester after a first one started. *)
Lemma fresh_start_sample :
  ∃ s' d job,
    startDiscovery sample_users default_service_config 1001 "job_1" "u1" ∅
      one_job = (s', inr d)
    ∧ jobId d = "job_1"
    ∧ activeJobs s' = [("u0", 0%nat); ("u1", 1%nat)]
    ∧ active_job s' "u1" = Some job
    ∧ job_status job = in_progress.
Proof.
  destruct (fresh_start sample_users default_service_config 1001 "job_1"
              "u1" ∅ one_job)
    as (s' & d & job & Hstart & Hid & _ & Hact & _ & Hjob & _ & _ & Hst & _).
  - by exists [(1000, DoStart "job_0" "u0" ∅)].
  - vm_compute. reflexivity.
  - vm_compute. reflexivity.
  - vm_compute. reflexivity.
  - exists s', d, job. repeat (split; [done|]). done.
Defined.

(** Cancelling a job id that no registered job has (an unknown id, or a
    job that has finished or was cancelled before) returns [false] and
    leaves the service as it is. *)
Theorem cancel_inactive (now : Z) (id : string) (s : Service) :
  (∀ u job, active_job s u = Some job → job_id job ≠ id) →
  NoDup (activeJobs s).*1 →
  cancelJob now id s = (s, false).
Proof.
  intros Hno Hnd. unfold cancelJob. rewrite find_active_None; [done|].
  intros u ref job Hin Hjob. apply (Hno u). unfold active_job.
  rewrite (map_get_elem _ _ _ Hnd Hin). done.
Qed.

(** [cancel_inactive]: cancelling the same job a second time. *)
Lemma cancel_twice :
  cancelJob 2001 "job_0" cancelled_once = (cancelled_once, false).
Proof.
  apply cancel_inactive.
  - intros u job Hjob. vm_compute in Hjob. discriminate Hjob.
  - vm_compute. constructor.
Defined.

Lemma find_active_first h id m u ref job :
  (u, ref) ∈ m → h !! ref = Some job → job_id job = id →
  is_Some (find_active h id m).
Proof.
  induction m as [|[u' ref'] m IH]; intros Hin Hjob Hid;
    [by apply elem_of_nil in Hin|].
  simpl. apply elem_of_cons in Hin as [[= <- <-]|Hin].
  - rewrite Hjob, Hid, String.eqb_refl. by eexists.
  - destruct (h !! ref') as [job'|]; [|by apply IH].
    destruct (String.eqb (job_id job') id); [by eexists|by apply IH].
Qed.

Lemma cancelJob_active cfg now s u job :
  wf cfg s →
  active_job s u = Some job →
  (∀ u' job', active_job s u' = Some job' → job_id job' = job_id job →
              u' = u) →
  ∃ s',
    cancelJob now (job_id job) s = (s', true)
    ∧ wf cfg s'
    ∧ activeJobs s' = map_delete u (activeJobs s)
    ∧ active_job s' u = None
    ∧ S (length (activeJobs s')) = length (activeJobs s)
    ∧ (∀ u', u' ≠ u → active_job s' u' = active_job s u')
    ∧ map_get (job_id job) (jobHistory s')
      = Some (mkHistoryEntry (cancelled_copy job) now)
    ∧ getJobStatus (job_id job) s' = Some cancelled.
Proof.
  intros Hwf Hjob Huniq.
  pose proof (wf_cancelJob cfg now (job_id job) s Hwf) as Hwf'.
  destruct (active_job_elem _ _ _ Hjob) as (ref & Hin & Href).
  assert (Hfind : find_active (heap s) (job_id job) (activeJobs s)
                  = Some (u, ref)).
  { destruct (find_active_first (heap s) (job_id job) (activeJobs s)
                u ref job Hin Href eq_refl) as [[u1 ref1] Hf].
    rewrite Hf. apply find_active_Some in Hf as (Hin1 & job1 & Hjob1 & Hid1).
    assert (u1 = u) as ->.
    { apply (Huniq u1 job1); [|done]. unfold active_job.
      by rewrite (map_get_elem _ _ _ (wf_users _ _ Hwf) Hin1). }
    by rewrite (NoDup_fst_inj _ _ _ _ (wf_users _ _ Hwf) Hin1 Hin). }
  unfold cancelJob in *. rewrite Hfind in *.
  unfold update_job at 1 in Hwf'. unfold update_job at 1.
  simpl in *. rewrite lookup_alter_eq, Href in *. simpl in *.
  fold (cancelled_copy job) in *.
  eexists. split; [reflexivity|]. split; [exact Hwf'|]. simpl.
  assert (Hother : ∀ u' ref', (u', ref') ∈ activeJobs s → u' ≠ u →
                              ref' ≠ ref).
  { intros u' ref' Hin' Hne ->. apply Hne.
    by apply (NoDup_snd_inj _ _ _ ref (wf_refs _ _ Hwf)). }
  split; [done|]. split; [|split; [|split; [|split]]].
  - unfold active_job. simpl.
    by rewrite (map_get_delete_eq _ _ (wf_users _ _ Hwf)).
  - apply (proj2 (map_delete_length u (activeJobs s))).
    rewrite (map_get_elem _ _ _ (wf_users _ _ Hwf) Hin). by eexists.
  - intros u' Hne. unfold active_job. simpl.
    rewrite map_get_delete_ne by done.
    destruct (map_get u' (activeJobs s)) as [ref'|] eqn:Hget; [|done]. simpl.
    apply map_get_Some_elem in Hget.
    by rewrite lookup_alter_ne by (apply not_eq_sym; by apply (Hother u')).
  - apply (moveJobToHistory_history now (cancelled_copy job)
             (update_job ref cancelled_copy s)). apply Hwf.
  - unfold getJobStatus. simpl. rewrite find_active_None.
    + destruct (moveJobToHistory_history now (cancelled_copy job)
                  (update_job ref cancelled_copy s)) as (_ & _ & Hget);
        [apply Hwf|].
      simpl in Hget. unfold update_job in Hget. simpl in Hget.
      unfold moveJobToHistory in *. simpl in *. by rewrite Hget.
    + intros u' ref' job' Hin' Hjob' Hid.
      rewrite map_delete_filter in Hin' by apply Hwf.
      apply list_elem_of_filter in Hin' as [Hne Hin']. simpl in Hne.
      rewrite lookup_alter_ne in Hjob'
        by (apply not_eq_sym; by apply (Hother u')).
      apply Hne, (Huniq u' job'); [|done]. unfold active_job.
      by rewrite (map_get_elem _ _ _ (wf_users _ _ Hwf) Hin').
Qed.

(** In a state the service can be in, cancelling the job of a requester by
    its id (no other registered job having that id) returns [true]; the
    requester has no registered job afterwards, the registry has one entry
    less, the jobs of the other requesters are untouched, the history holds
    a copy of the job in the state [cancelled] with the [cancelled] flag
    set, and [getJobStatus] reports [cancelled]. *)
Theorem cancel_active (users : gset string) (cfg : ServiceConfig) (now : Z)
    (s : Service) (u : string) (job : Job) :
  reachable users cfg s →
  active_job s u = Some job →
  (∀ u' job', active_job s u' = Some job' → job_id job' = job_id job →
              u' = u) →
  ∃ s',
    cancelJob now (job_id job) s = (s', true)
    ∧ active_job s' u = None
    ∧ S (length (activeJobs s')) = length (activeJobs s)
    ∧ (∀ u', u' ≠ u → active_job s' u' = active_job s u')
    ∧ map_get (job_id job) (jobHistory s')
      = Some (mkHistoryEntry (cancelled_copy job) now)
    ∧ getJobStatus (job_id job) s' = Some cancelled.
Proof.
  intros Hwf%reachable_wf Hjob Huniq.
  destruct (cancelJob_active cfg now s u job Hwf Hjob Huniq)
    as (s' & Hc & _ & _ & H1 & H2 & H3 & H4 & H5).
  by exists s'.
Qed.

(** Cancelling frees the requester's slot: in a state the service can be
    in, after a requester's job is cancelled (no other registered job
    having its id), a new start of that requester creates a new job with
    the newly generated id, even if the registry was full before. *)
Theorem cancel_then_start (users : gset string) (cfg : ServiceConfig)
    (now now' : Z) (newJobId : string) (options : Options) (s : Service)
    (u : string) (job : Job) :
  reachable users cfg s →
  u ∈ users →
  active_job s u = Some job →
  (∀ u' job', active_job s u' = Some job' → job_id job' = job_id job →
              u' = u) →
  ∃ s' d job',
    startDiscovery users cfg now' newJobId u options
      (cancelJob now (job_id job) s).1 = (s', inr d)
    ∧ jobId d = newJobId
    ∧ active_job s' u = Some job'
    ∧ job_id job' = newJobId ∧ job_status job' = in_progress
    ∧ length (activeJobs s') = length (activeJobs s).
Proof.
  intros Hwf%reachable_wf Hu Hjob Huniq.
  destruct (cancelJob_active cfg now s u job Hwf Hjob Huniq)
    as (s1 & Hc & Hwf1 & _ & Hnone & Hlen & _).
  rewrite Hc. simpl.
  destruct (startDiscovery_fresh cfg users now' newJobId u options s1)
    as (s' & Hstart & Hact & _ & Hjob' & _); try done.
  - unfold active_job in Hnone. unfold map_has.
    destruct (map_get u (activeJobs s1)) as [ref|] eqn:Hget; [|done].
    apply map_get_Some_elem in Hget.
    destruct (wf_active _ _ Hwf1 _ _ Hget) as (j & Hj & _).
    simpl in Hnone. congruence.
  - pose proof (wf_capacity _ _ Hwf). lia.
  - eexists s', _, _. split; [exact Hstart|]. simpl.
    split; [done|]. split; [exact Hjob'|]. simpl.
    split; [done|]. split; [done|].
    rewrite Hact, length_app. simpl. lia.
Qed.


Lemma full_service_entries :
  activeJobs full_service
  = [("u0", 0%nat); ("u1", 1%nat); ("u2", 2%nat); ("u3", 3%nat);
     ("u4", 4%nat); ("u5", 5%nat); ("u6", 6%nat); ("u7", 7%nat);
     ("u8", 8%nat); ("u9", 9%nat)].
Proof. vm_compute. reflexivity. Qed.

(** On the full registry every job id belongs to one requester. *)
Lemma full_service_ids u u' job job' :
  active_job full_service u = Some job →
  active_job full_service u' = Some job' →
  job_id job' = job_id job → u' = u.
Proof.
  intros (ref & Hin & Href)%active_job_elem
         (ref' & Hin' & Href')%active_job_elem Hid.
  rewrite full_service_entries in Hin, Hin'.
  repeat (apply elem_of_cons in Hin as [Heq|Hin];
          [injection Heq as -> ->; vm_compute in Href;
           injection Href as <-|]);
    try (apply elem_of_nil in Hin; destruct Hin);
    repeat (apply elem_of_cons in Hin' as [Heq|Hin'];
            [injection Heq as -> ->; vm_compute in Href';
             injection Href' as <-|]);
    try (apply elem_of_nil in Hin'; destruct Hin');
    try reflexivity; simpl in Hid; discriminate Hid.
Qed.

(** [cancel_active] on the full registry: the job of the fourth requester
    is cancelled. *)
Lemma cancel_active_sample :
  ∃ s',
    cancelJob 2000 "job_3" full_service = (s', true)
    ∧ active_job s' "u3" = None
    ∧ length (activeJobs s') = 9%nat
    ∧ getJobStatus "job_3" s' = Some cancelled.
Proof.
  assert (Hjob : active_job full_service "u3"
                 = Some {| job_id := "job_3"; job_userId := "u3";
                           job_status := in_progress; job_startedAt := 1003;
                           job_options := ∅;
                           job_progress := {| step := "discovering";
                                              percentage := 10 |};
                           job_completedAt := None; job_results := None;
                           job_error := None; job_cancelled := false |})
    by (vm_compute; reflexivity).
  destruct (cancel_active sample_users default_service_config 2000
              full_service "u3" _ (ex_intro _ ten_starts eq_refl) Hjob)
    as (s' & Hc & Hnone & Hlen & _ & _ & Hst).
  - intros u' job' Hjob'. by apply full_service_ids.
  - exists s'. split; [exact Hc|]. split; [exact Hnone|].
    split; [|exact Hst]. rewrite full_service_entries in Hlen.
    simpl in Hlen. lia.
Defined.

(** [cancel_then_start] on the full registry: the first requester cancels
    and starts again. *)
Lemma cancel_then_start_sample :
  ∃ s' d job',
    startDiscovery sample_users default_service_config 2001 "job_new" "u0" ∅
      (cancelJob 2000 "job_0" full_service).1 = (s', inr d)
    ∧ jobId d = "job_new"
    ∧ active_job s' "u0" = Some job'
    ∧ job_id job' = "job_new".
Proof.
  assert (Hjob : active_job full_service "u0"
                 = Some {| job_id := "job_0"; job_userId := "u0";
                           job_status := in_progress; job_startedAt := 1000;
                           job_options := ∅;
                           job_progress := {| step := "discovering";
                                              percentage := 10 |};
                           job_completedAt := None; job_results := None;
                           job_error := None; job_cancelled := false |})
    by (vm_compute; reflexivity).
  assert (Hu : "u0" ∈ sample_users) by (vm_compute; reflexivity).
  destruct (cancel_then_start sample_users default_service_config 2000 2001
              "job_new" ∅ full_service "u0" _
              (ex_intro _ ten_starts eq_refl) Hu Hjob)
    as (s' & d & job' & Hstart & Hid & Hjob' & Hid' & _).
  - intros u' job' Hjob'. by apply full_service_ids.
  - exists s', d, job'. split; [exact Hstart|]. split; [exact Hid|].
    split; [exact Hjob'|exact Hid'].
Defined.

(** ** The confidence of the accounts of an analysis *)

(** [analysis_confidence_range] on one positive probe of confidence 70. *)
Lemma analysis_confidence_range_sample :
  ∃ a,
    a ∈ ar_accounts
          (analyzeDiscoveryResults
             [succeeded "twitter" (primary_email_of "ann@example.org")
                (positive (Some 70) (Some "password_reset"))])
    ∧ 0 ≤ confidence a ≤ 100.
Proof.
  pose proof (analysis_confidence_range
                [succeeded "twitter" (primary_email_of "ann@example.org")
                   (positive (Some 70) (Some "password_reset"))]) as Hrange.
  destruct (ar_accounts _) as [|a l] eqn:Hacc;
    [vm_compute in Hacc; discriminate Hacc|].
  exists a. destruct (Hrange a) as [Hle Hge]; [left|].
  split; [left|]. split; [|exact Hle]. apply Hge.
  intros d r c Hd Hr Hc. apply list_elem_of_singleton in Hd as ->.
  simpl in Hr. injection Hr as <-. simpl in Hc. injection Hc as <-. lia.
Defined.

(** ** The reaper, shutdown, and the end of a job *)

Lemma stale_update cfg now (h : gmap nat Job) (f : Job → Job) ref e :
  e.2 ≠ ref → stale cfg now (alter f ref h) e = stale cfg now h e.
Proof. intros Hne. unfold stale. by rewrite lookup_alter_ne. Qed.

Lemma cleanup_entry_cases cfg now s u ref job :
  heap s !! ref = Some job →
  cleanup_entry cfg now s (u, ref)
  = if jobTimeoutMs cfg <? now - job_startedAt job
    then delete_active u
           (moveJobToHistory now (timeout_copy now job)
              (update_job ref (timeout_copy now) s))
    else s.
Proof.
  intros Hjob. unfold cleanup_entry. rewrite Hjob.
  destruct (jobTimeoutMs cfg <? now - job_startedAt job); [|done].
  unfold update_job at 1. simpl. by rewrite lookup_alter_eq, Hjob.
Qed.

Lemma map_delete_middle {V} k (v : V) kept l :
  k ∉ kept.*1 → map_delete k (kept ++ (k, v) :: l) = (kept ++ l)%list.
Proof.
  induction kept as [|[k' v'] kept IH]; intros Hk; simpl.
  - by rewrite String.eqb_refl.
  - simpl in Hk. apply not_elem_of_cons in Hk as [Hne Hk].
    destruct (String.eqb_spec k' k) as [->|_]; [done|]. by rewrite IH.
Qed.

Lemma cleanup_fold_registry cfg now (l : list (string * nat)) :
  ∀ kept s,
    wf cfg s →
    activeJobs s = (kept ++ l)%list →
    activeJobs (foldl (cleanup_entry cfg now) s l)
    = (kept ++ filter (λ e, stale cfg now (heap s) e = false) l)%list.
Proof.
  induction l as [|[u ref] l IH]; intros kept s Hwf Hact; cbn [foldl].
  - by rewrite Hact.
  - assert (Hin : (u, ref) ∈ activeJobs s).
    { rewrite Hact. apply elem_of_app. right. left. }
    pose proof (wf_cleanup_entry cfg now s u ref Hwf Hin) as Hwf'.
    pose proof (wf_users _ _ Hwf) as Hnd.
    pose proof (wf_refs _ _ Hwf) as Hndr.
    rewrite Hact in Hnd, Hndr. rewrite fmap_app in Hnd.
    rewrite fmap_app in Hndr.
    apply NoDup_app in Hnd as (_ & Hku & _).
    apply NoDup_app in Hndr as (_ & _ & Hndr).
    rewrite fmap_cons in Hndr. apply NoDup_cons in Hndr as [Hrl _].
    simpl in Hrl.
    assert (Hk : u ∉ kept.*1).
    { intros Hk. apply (Hku _ Hk). rewrite fmap_cons. left. }
    destruct (wf_active _ _ Hwf _ _ Hin) as (job & Hjob & _).
    assert (Hst : stale cfg now (heap s) (u, ref)
                  = (jobTimeoutMs cfg <? now - job_startedAt job)).
    { unfold stale. simpl. by rewrite Hjob. }
    rewrite (cleanup_entry_cases cfg now s u ref job Hjob) in *.
    rewrite filter_cons, Hst.
    destruct (jobTimeoutMs cfg <? now - job_startedAt job) eqn:Hstale.
    + rewrite decide_False by done.
      rewrite (IH kept) by (try done; simpl; rewrite Hact;
                            by apply map_delete_middle).
      f_equal. apply filter_ext_elem. intros [u' ref'] Hin'. simpl.
      rewrite stale_update; [done|]. simpl. intros ->. apply Hrl.
      by apply (list_elem_of_fmap_2 snd) in Hin'.
    + rewrite decide_True by done.
      rewrite (IH (kept ++ [(u, ref)])%list) by
        (try done; by rewrite Hact, <- app_assoc).
      by rewrite <- app_assoc.
Qed.

(** In a state the service can be in, a tick of the reaper at time [now]
    removes from the registry exactly the entries whose job has run for
    longer than [jobTimeoutMs], and keeps the others in their order; so a
    requester still registered afterwards has a job that is within the
    time limit. *)
Theorem reaper_removes_exactly_stale (users : gset string)
    (cfg : ServiceConfig) (now : Z) (s : Service) :
  reachable users cfg s →
  activeJobs (cleanupStaleJobs cfg now s)
  = filter (λ e, stale cfg now (heap s) e = false) (activeJobs s)
  ∧ ∀ u, map_has u (activeJobs (cleanupStaleJobs cfg now s)) = true →
         ∃ job, active_job s u = Some job
                ∧ now - job_startedAt job ≤ jobTimeoutMs cfg.
Proof.
  intros Hwf%reachable_wf.
  assert (Hreg : activeJobs (cleanupStaleJobs cfg now s)
                 = filter (λ e, stale cfg now (heap s) e = false)
                     (activeJobs s)).
  { unfold cleanupStaleJobs.
    by rewrite (cleanup_fold_registry cfg now (activeJobs s) [] s). }
  split; [done|]. intros u Hhas. rewrite Hreg in Hhas.
  unfold map_has in Hhas.
  destruct (map_get u (filter _ (activeJobs s))) as [ref|] eqn:Hget; [|done].
  apply map_get_Some_elem, list_elem_of_filter in Hget as [Hfresh Hin].
  destruct (wf_active _ _ Hwf _ _ Hin) as (job & Hjob & _).
  exists job. split.
  - unfold active_job.
    by rewrite (map_get_elem _ _ _ (wf_users _ _ Hwf) Hin).
  - unfold stale in Hfresh. simpl in Hfresh. rewrite Hjob in Hfresh.
    by destruct (Z.ltb_spec (jobTimeoutMs cfg) (now - job_startedAt job));
      [|lia].
Qed.

(** [reaper_removes_exactly_stale] on the full registry, 300 001 ms after
    the fifth job started and 300 000 ms after the sixth: the first five
    jobs are reaped, the sixth is kept. *)
Lemma reaper_sample :
  activeJobs (cleanupStaleJobs default_service_config 301005 full_service)
  = [("u5", 5%nat); ("u6", 6%nat); ("u7", 7%nat); ("u8", 8%nat);
     ("u9", 9%nat)].
Proof.
  rewrite (proj1 (reaper_removes_exactly_stale sample_users
                    default_service_config 301005 full_service
                    (ex_intro _ ten_starts eq_refl))).
  vm_compute. reflexivity.
Defined.

(** ** Shutting down *)

Lemma cancelJob_head now s u ref l job :
  activeJobs s = (u, ref) :: l → heap s !! ref = Some job →
  cancelJob now (job_id job) s
  = (delete_active u (moveJobToHistory now (cancelled_copy job)
                        (update_job ref cancelled_copy s)), true).
Proof.
  intros Hact Hjob. unfold cancelJob. rewrite Hact. cbn [find_active].
  rewrite Hjob, String.eqb_refl. unfold update_job at 1. simpl.
  by rewrite lookup_alter_eq, Hjob.
Qed.

Lemma shutdown_loop_spec cfg clock (l : list (string * nat)) :
  ∀ i s, wf cfg s → activeJobs s = l →
    activeJobs (shutdown_loop clock i l s) = []
    ∧ running (shutdown_loop clock i l s) = running s
    ∧ ∀ r, heap (shutdown_loop clock i l s) !! r
           = if decide (r ∈ l.*2) then cancelled_copy <$> heap s !! r
             else heap s !! r.
Proof.
  induction l as [|[u ref] l IH]; intros i s Hwf Hact; cbn [shutdown_loop].
  - split; [done|]. split; [done|]. intros r.
    rewrite decide_False; [done|]. apply not_elem_of_nil.
  - assert (Hin : (u, ref) ∈ activeJobs s) by (rewrite Hact; left).
    destruct (wf_active _ _ Hwf _ _ Hin) as (job & Hjob & _).
    pose proof (wf_cancelJob cfg (clock i) (job_id job) s Hwf) as Hwf'.
    pose proof (wf_refs _ _ Hwf) as Hndr. rewrite Hact, fmap_cons in Hndr.
    apply NoDup_cons in Hndr as [Hrl _]. cbn [snd] in Hrl.
    rewrite Hjob.
    rewrite (cancelJob_head (clock i) s u ref l job Hact Hjob) in *.
    cbn [fst] in *.
    destruct (IH (S i) _ Hwf') as (Ha & Hr & Hh).
    { simpl. rewrite Hact. simpl. by rewrite String.eqb_refl. }
    split; [done|]. split; [by rewrite Hr|].
    intros r. rewrite Hh. simpl.
    destruct (decide (r = ref)) as [->|Hne];
      [rewrite lookup_alter_eq|rewrite lookup_alter_ne by done];
      repeat case_decide; try done; exfalso;
      repeat match goal with
      | H : _ ∈ _ :: _ |- _ => apply elem_of_cons in H as [?|?]
      | H : ¬ (_ ∈ _ :: _) |- _ => apply not_elem_of_cons in H as [? ?]
      end; done.
Qed.

(** In a state the service can be in, [shutdown] empties the registry and
    leaves every job that was registered in the state [cancelled] with its
    [cancelled] flag set; the other job objects are untouched.  The engine
    calls the jobs are suspended on are not stopped: they are all still
    pending afterwards. *)
Theorem shutdown_cancels_every_job (users : gset string)
    (cfg : ServiceConfig) (clock : nat → Z) (s : Service) :
  reachable users cfg s →
  activeJobs (shutdown clock s) = []
  ∧ running (shutdown clock s) = running s
  ∧ (∀ u job, active_job s u = Some job →
       ∃ ref, (u, ref) ∈ activeJobs s
              ∧ heap (shutdown clock s) !! ref = Some (cancelled_copy job))
  ∧ (∀ r, r ∉ (activeJobs s).*2 → heap (shutdown clock s) !! r = heap s !! r).
Proof.
  intros Hwf%reachable_wf. unfold shutdown.
  destruct (shutdown_loop_spec cfg clock (activeJobs s) 0 s Hwf eq_refl)
    as (Ha & Hr & Hh).
  split; [done|]. split; [done|]. split.
  - intros u job Hjob.
    destruct (active_job_elem _ _ _ Hjob) as (ref & Hin & Href).
    exists ref. split; [done|]. rewrite Hh, decide_True.
    + by rewrite Href.
    + by apply (list_elem_of_fmap_2 snd) in Hin.
  - intros r Hout. by rewrite Hh, decide_False.
Qed.

(** [shutdown_cancels_every_job] on the full registry: no job stays
    registered and the ten engine calls are still pending. *)
Lemma shutdown_sample :
  activeJobs (shutdown (λ _, 5000) full_service) = []
  ∧ length (running (shutdown (λ _, 5000) full_service)) = 10%nat.
Proof.
  destruct (shutdown_cancels_every_job sample_users default_service_config
              (λ _, 5000) full_service (ex_intro _ ten_starts eq_refl))
    as (Ha & Hr & _).
  split; [exact Ha|]. rewrite Hr. vm_compute. reflexivity.
Defined.

(** ** The end of a job *)

Lemma settle_spec cfg now ref (f : Job → Job) s job :
  wf cfg s → heap s !! ref = Some job →
  job_userId (f job) = job_userId job → job_id (f job) = job_id job →
  terminal (job_status (f job)) = true →
  (ref ∉ running (executeDiscovery_finally now ref (update_job ref f s)))
  ∧ heap (executeDiscovery_finally now ref (update_job ref f s)) !! ref
    = Some (f job)
  ∧ active_job (executeDiscovery_finally now ref (update_job ref f s))
      (job_userId job) = None
  ∧ (∀ u, u ≠ job_userId job →
          active_job (executeDiscovery_finally now ref (update_job ref f s)) u
          = active_job s u)
  ∧ map_get (job_id job)
      (jobHistory (executeDiscovery_finally now ref (update_job ref f s)))
    = Some (mkHistoryEntry (f job) now).
Proof.
  intros Hwf Hjob Huser Hid Hterm.
  unfold executeDiscovery_finally, update_job. simpl.
  rewrite lookup_alter_eq, Hjob. simpl. rewrite Huser.
  split; [|split; [|split; [|split]]].
  - intros Hin. by apply list_elem_of_filter in Hin as [Hne _].
  - by rewrite lookup_alter_eq, Hjob.
  - unfold active_job. simpl.
    by rewrite (map_get_delete_eq _ _ (wf_users _ _ Hwf)).
  - intros u Hne. unfold active_job. simpl.
    rewrite map_get_delete_ne by done.
    destruct (map_get u (activeJobs s)) as [r|] eqn:Hget; [|done]. simpl.
    apply map_get_Some_elem in Hget.
    destruct (wf_active _ _ Hwf _ _ Hget) as (job' & Hjob' & Hu' & _).
    rewrite lookup_alter_ne; [done|]. intros ->. congruence.
  - destruct (moveJobToHistory_history now (f job)
                {| heap := alter f ref (heap s); next_ref := next_ref s;
                   activeJobs := activeJobs s; jobHistory := jobHistory s;
                   running := filter (λ r, r ≠ ref) (running s) |})
      as (_ & _ & Hget); [apply Hwf|].
    by rewrite Hid in Hget.
Qed.

(** In a state the service can be in, when the engine call of a job
    settles, the call is no longer pending, the job object is [completed]
    with the results (or [failed] with the error message) whatever its state
    was, a copy of it is in the history under the job id, and the requester
    of the job has no registered job left, be it this job or a later one of
    theirs; the jobs of the other requesters are untouched. *)
Theorem engine_settles (users : gset string) (cfg : ServiceConfig)
    (now : Z) (ref : nat) (job : Job) (s : Service) :
  reachable users cfg s →
  ref ∈ running s →
  heap s !! ref = Some job →
  (∀ results,
     let s' := executeDiscovery_resolved now ref results s in
     (ref ∉ running s')
     ∧ heap s' !! ref = Some (completed_copy now results job)
     ∧ active_job s' (job_userId job) = None
     ∧ (∀ u, u ≠ job_userId job → active_job s' u = active_job s u)
     ∧ map_get (job_id job) (jobHistory s')
       = Some (mkHistoryEntry (completed_copy now results job) now))
  ∧ (∀ message,
       let s' := executeDiscovery_rejected now ref message s in
       (ref ∉ running s')
       ∧ heap s' !! ref = Some (failed_copy now message job)
       ∧ active_job s' (job_userId job) = None
       ∧ (∀ u, u ≠ job_userId job → active_job s' u = active_job s u)
       ∧ map_get (job_id job) (jobHistory s')
         = Some (mkHistoryEntry (failed_copy now message job) now)).
Proof.
  intros Hwf%reachable_wf Hrun Hjob. split.
  - intros results. cbv zeta. unfold executeDiscovery_resolved.
    rewrite bool_decide_eq_true_2 by done.
    by apply (settle_spec cfg now ref (completed_copy now results) s job).
  - intros message. cbv zeta. unfold executeDiscovery_rejected.
    rewrite bool_decide_eq_true_2 by done.
    by apply (settle_spec cfg now ref (failed_copy now message) s job).
Qed.

(** [engine_settles] when a requester has cancelled a job and started
    another: the engine call of the first job resolves, and the requester's
    second job is no longer registered although its own engine call is still
    pending. *)
Lemma superseded_job_unregisters_its_successor :
  job_id <$> active_job superseded "u0" = Some "job_1"
  ∧ active_job
      (executeDiscovery_resolved 3000 0 (mkDiscoveryResults 2) superseded)
      "u0" = None
  ∧ running
      (executeDiscovery_resolved 3000 0 (mkDiscoveryResults 2) superseded)
    = [1%nat].
Proof.
  split; [vm_compute; reflexivity|]. split; [|vm_compute; reflexivity].
  refine (proj1 (proj2 (proj2 (proj1
    (engine_settles sample_users default_service_config 3000 0
       (cancelled_copy
          {| job_id := "job_0"; job_userId := "u0";
             job_status := in_progress; job_startedAt := 1000;
             job_options := ∅;
             job_progress := {| step := "discovering"; percentage := 10 |};
             job_completedAt := None; job_results := None;
             job_error := None; job_cancelled := false |})
       superseded _ _ _) (mkDiscoveryResults 2))))).
  - by eexists.
  - vm_compute. left.
  - vm_compute. reflexivity.
Defined.

(** ** The history *)

(** In a state the service can be in, moving a job to the history keeps at
    most 100 entries, one per job id, and the job can be looked up by its
    id afterwards.  A job whose id is already in the history replaces that
    entry in place; a new id is appended; and when the history already holds
    100 entries the oldest one is dropped to make room, so that the oldest
    job can no longer be looked up. *)
Theorem history_is_bounded_fifo (users : gset string) (cfg : ServiceConfig)
    (now : Z) (job : Job) (s : Service) :
  reachable users cfg s →
  let entry := mkHistoryEntry job now in
  let history := jobHistory (moveJobToHistory now job s) in
  (length history ≤ 100)%nat
  ∧ NoDup history.*1
  ∧ map_get (job_id job) history = Some entry
  ∧ (is_Some (map_get (job_id job) (jobHistory s)) →
     history = map_set (job_id job) entry (jobHistory s))
  ∧ (map_get (job_id job) (jobHistory s) = None →
     (length (jobHistory s) < 100)%nat →
     history = (jobHistory s ++ [(job_id job, entry)])%list)
  ∧ (map_get (job_id job) (jobHistory s) = None →
     length (jobHistory s) = 100%nat →
     history = (tail (jobHistory s) ++ [(job_id job, entry)])%list
     ∧ ∀ oldest, head (jobHistory s).*1 = Some oldest →
                 map_get oldest history = None).
Proof.
  intros Hwf%reachable_wf. cbv zeta.
  pose proof (wf_history_size _ _ Hwf) as Hlen.
  pose proof (wf_history_keys _ _ Hwf) as Hnd.
  destruct (moveJobToHistory_history now job s Hlen) as (Hlen' & _ & Hget).
  destruct (moveJobToHistory_cases now job s) as (Hold & Hnew & Hevict).
  cbv zeta in Hold, Hnew, Hevict.
  split; [done|]. split; [by apply moveJobToHistory_keys|]. split; [done|].
  split; [by intros ?; apply Hold|]. split; [done|].
  intros Hnone Hfull. rewrite Hevict by (done || lia). split; [done|].
  intros oldest Hhead. apply map_get_None in Hnone. apply map_get_None.
  destruct (jobHistory s) as [|[k0 e0] h]; [done|].
  rewrite fmap_cons in Hnd, Hnone, Hhead. simpl in Hhead.
  injection Hhead as <-. cbn [tail fst].
  apply NoDup_cons in Hnd as [Hk0 _].
  apply not_elem_of_cons in Hnone as [Hne _].
  rewrite fmap_app. intros [?|Hin]%elem_of_app; [done|].
  apply list_elem_of_singleton in Hin. simpl in Hin, Hne. congruence.
Qed.

(** [history_is_bounded_fifo] after one hundred jobs: the history is full,
    and the next job to finish pushes the first one out. *)
Lemma history_sample :
  length (jobHistory service_with_full_history) = 100%nat
  ∧ is_Some (map_get "0" (jobHistory service_with_full_history))
  ∧ map_get "0"
      (jobHistory
         (moveJobToHistory 5000 (finished_job "new")
            service_with_full_history))
    = None.
Proof.
  assert (Hlen : length (jobHistory service_with_full_history) = 100%nat)
    by (vm_compute; reflexivity).
  split; [exact Hlen|]. split; [vm_compute; by eexists|].
  destruct (history_is_bounded_fifo sample_users default_service_config 5000
              (finished_job "new") service_with_full_history
              (ex_intro _ hundred_retired eq_refl))
    as (_ & _ & _ & _ & _ & Hevict).
  destruct Hevict as [_ Hold]; [vm_compute; reflexivity|exact Hlen|].
  apply Hold. vm_compute. reflexivity.
Defined.
